(** * Genealogical: pedigree DAG queries (genealogy_aligner/Genealogical.py)

    A shallow embedding of the [Genealogical] class and of the parts of
    networkx and of the Python run time it relies on, followed by the
    properties of its traversal, depth inference, path counting, cohort
    and similarity routines. *)

From Stdlib Require String.
From Stdlib Require Import ZArith Arith Bool Lia QArith Permutation Sorted List.
Import ListNotations.
Local Open Scope nat_scope.

(** ** Python run time: exceptions, iterators, truthiness *)

Inductive exn : Set :=
| NodeNotFound      (* networkx.NodeNotFound *)
| NetworkXError     (* networkx.NetworkXError *)
| TypeError
| IndexError
| KeyError
| StopIteration.

(** The outcome of a call: a value, a raised exception, or [OutOfFuel] when the
    fuel given to a [while] loop ran out before the loop condition failed. *)
Inductive outcome (A : Type) : Type :=
| Ok (a : A)
| Raise (e : exn)
| OutOfFuel.
Arguments Ok {A} a.
Arguments Raise {A} e.
Arguments OutOfFuel {A}.

Definition bind {A B} (c : outcome A) (k : A -> outcome B) : outcome B :=
  match c with
  | Ok a => k a
  | Raise e => Raise e
  | OutOfFuel => OutOfFuel
  end.

Notation "x <- c ;; k" := (bind c (fun x => k))
  (at level 61, c at next level, right associativity).

(** Node identifiers are Python integers. *)
Definition node := Z.
Definition edge := (node * node)%type.

(** [bool(n)] for an integer: only [0] is false. *)
Definition truthy (n : node) : bool := negb (n =? 0)%Z.

(** A one-shot iterator, such as the [dict_keyiterator] that
    [DiGraph.successors] and [DiGraph.predecessors] return. *)
Inductive iterator (A : Type) : Type := Iter (items : list A).
Arguments Iter {A} items.

Definition items {A} (it : iterator A) : list A :=
  match it with Iter l => l end.

(** [any(it)]: is some element truthy? *)
Definition py_any (it : iterator node) : bool := existsb truthy (items it).

(** [next(it)] *)
Definition py_next {A} (it : iterator A) : outcome A :=
  match items it with
  | [] => Raise StopIteration
  | x :: _ => Ok x
  end.

(** [len(it)]: an iterator has no [__len__], and [len] raises [TypeError]. *)
Definition py_len {A} (it : iterator A) : outcome nat := Raise TypeError.

(** Iteration order of a [set].  Python fixes no order: a set built by adding
    the elements of [l] one after the other is iterated in some order that
    holds each of its elements once. *)
Record SetOrder : Type := {
  set_iter : list node -> list node;
  set_iter_In : forall l x, In x (set_iter l) <-> In x l;
  set_iter_NoDup : forall l, NoDup (set_iter l)
}.

(** One such order: by first insertion. *)
Fixpoint first_seen (seen l : list node) : list node :=
  match l with
  | [] => []
  | x :: r =>
      if existsb (Z.eqb x) seen then first_seen seen r
      else x :: first_seen (x :: seen) r
  end.

(** ** Dictionaries keyed by node, in insertion order *)

Section Dict.
Context {V : Type}.

Fixpoint dict_get (d : list (node * V)) (k : node) : option V :=
  match d with
  | [] => None
  | (k', v) :: r => if (k' =? k)%Z then Some v else dict_get r k
  end.

(** [d[k] = v]: an existing key keeps its place. *)
Fixpoint dict_set (d : list (node * V)) (k : node) (v : V) : list (node * V) :=
  match d with
  | [] => [(k, v)]
  | (k', v') :: r =>
      if (k' =? k)%Z then (k', v) :: r else (k', v') :: dict_set r k v
  end.

(** [del d[k]] *)
Fixpoint dict_del (d : list (node * V)) (k : node) : outcome (list (node * V)) :=
  match d with
  | [] => Raise KeyError
  | (k', v') :: r =>
      if (k' =? k)%Z then Ok r
      else r' <- dict_del r k ;; Ok ((k', v') :: r')
  end.

Definition dict_mem (d : list (node * V)) (k : node) : bool :=
  match dict_get d k with Some _ => true | None => false end.

Definition keys (d : list (node * V)) : list node := map fst d.
End Dict.

(** ** The graph store: networkx.DiGraph *)

Inductive pyval : Set :=
| PInt (z : Z)
| PStr (s : String.string).

Definition attrs := list (String.string * pyval).

(** [node_data] is the [_node] dictionary, in insertion order; [edge_list] holds
    the edges in the order they were added, which is the order of every
    [_succ[u]] and [_pred[v]]. *)
Record DiGraph : Type := {
  node_data : list (node * attrs);
  edge_list : list edge
}.

Definition node_ids (g : DiGraph) : list node := map fst (node_data g).

Definition has_node (g : DiGraph) (n : node) : bool :=
  existsb (Z.eqb n) (node_ids g).

Definition adj_succ (g : DiGraph) (n : node) : list node :=
  map snd (filter (fun e => (fst e =? n)%Z) (edge_list g)).

Definition adj_pred (g : DiGraph) (n : node) : list node :=
  map fst (filter (fun e => (snd e =? n)%Z) (edge_list g)).

(** [G.successors(n)] and [G.predecessors(n)]: [iter(self._succ[n])] and
    [iter(self._pred[n])] (networkx 2 and later, the versions that have the
    [subgraph_view] the class uses), [NetworkXError] for a node that is not in
    the graph. *)
Definition G_successors (g : DiGraph) (n : node) : outcome (iterator node) :=
  if has_node g n then Ok (Iter (adj_succ g n)) else Raise NetworkXError.

Definition G_predecessors (g : DiGraph) (n : node) : outcome (iterator node) :=
  if has_node g n then Ok (Iter (adj_pred g n)) else Raise NetworkXError.

(** [G.edges()]: by node, then by successor. *)
Definition G_edges (g : DiGraph) : list edge :=
  flat_map (fun u => map (pair u) (adj_succ g u)) (node_ids g).

(** [G.reverse()]: a fresh graph, nodes copied in order, then every edge of
    [G.edges()] added reversed. *)
Definition G_reverse (g : DiGraph) : DiGraph :=
  {| node_data := node_data g;
     edge_list := map (fun e => (snd e, fst e)) (G_edges g) |}.

(** What networkx maintains: nodes and edges are not repeated and every edge
    joins two nodes of the graph. *)
Definition wf_graph (g : DiGraph) : Prop :=
  NoDup (node_ids g) /\ NoDup (edge_list g) /\
  forall u v, In (u, v) (edge_list g) -> In u (node_ids g) /\ In v (node_ids g).

(** Directed walks of [n] edges along a neighbour function. *)
Inductive walk (nbrs : node -> list node) : node -> node -> nat -> Prop :=
| walk_nil u : walk nbrs u u 0
| walk_cons u y v n : In y (nbrs u) -> walk nbrs y v n -> walk nbrs u v (S n).

(** A DAG has no closed walk with an edge in it. *)
Definition acyclic (g : DiGraph) : Prop :=
  forall v n, walk (adj_succ g) v v n -> n = 0.

(** ** Genealogical: accessors *)

Definition nodes (g : DiGraph) : list node := node_ids g.
Definition edges (g : DiGraph) : list edge := G_edges g.
Definition n_individuals (g : DiGraph) : nat := length (nodes g).

(** [list(list(self.graph.nodes(data=True))[0][1].keys())] *)
Definition attributes (g : DiGraph) : outcome (list String.string) :=
  match node_data g with
  | [] => Raise IndexError
  | (_, d) :: _ => Ok (map fst d)
  end.

Definition parents (g : DiGraph) (n : node) : outcome (list node) :=
  it <- G_predecessors g n ;; Ok (items it).

(** [founders_view]: the nodes [n] with [not any(G.predecessors(n))]. *)
Definition founders (g : DiGraph) : list node :=
  filter (fun n => negb (py_any (Iter (adj_pred g n)))) (nodes g).

(** [probands_view]: the nodes [n] with [not any(G.successors(n))]. *)
Definition probands (g : DiGraph) : list node :=
  filter (fun n => negb (py_any (Iter (adj_succ g n)))) (nodes g).

(** ** networkx.single_source_shortest_path_length

    The breadth-first search of networkx 2: level by level, each level a set,
    the table of distances in the order of discovery. *)

Section Traversal.
Variable ord : SetOrder.

(** The pass over [thislevel]: each node not seen yet gets [level]. *)
Fixpoint visit_level (thislevel : list node) (level : nat)
         (seen : list (node * nat)) (found : list node)
  : list (node * nat) * list node :=
  match thislevel with
  | [] => (seen, found)
  | v :: r =>
      if dict_mem seen v then visit_level r level seen found
      else visit_level r level (seen ++ [(v, level)]) (found ++ [v])
  end.

(** [while nextlevel and cutoff >= level]: at most [rounds] levels are left. *)
Fixpoint sssp_loop (adj : node -> list node) (n : nat) (rounds level : nat)
         (nextlevel : list node) (seen : list (node * nat)) : list (node * nat) :=
  match rounds with
  | O => seen
  | S r =>
      match nextlevel with
      | [] => seen
      | _ :: _ =>
          let '(seen', found) := visit_level nextlevel level seen [] in
          if length seen' =? n then seen'
          else sssp_loop adj n r (S level)
                 (set_iter ord (flat_map adj found)) seen'
      end
  end.

Definition single_source_shortest_path_length
           (g : DiGraph) (source : node) (cutoff : nat)
  : outcome (list (node * nat)) :=
  if has_node g source then
    Ok (sssp_loop (adj_succ g) (length (node_ids g)) (S cutoff) 0
          (set_iter ord [source]) [])
  else Raise NodeNotFound.

(** ** Cohort queries *)

(** The loop of [predecessors] and [successors] over the distance table;
    [G_nbrs] is [self.graph.predecessors] or [self.graph.successors]. *)
Fixpoint collect_at (G_nbrs : node -> outcome (iterator node)) (k : nat)
         (include_ends : bool) (table : list (node * nat)) (acc : list node)
  : outcome (list node) :=
  match table with
  | [] => Ok acc
  | (nn, dist) :: r =>
      if dist =? k then collect_at G_nbrs k include_ends r (acc ++ [nn])
      else if include_ends then
        it <- G_nbrs nn ;;
        len <- py_len it ;;
        if len =? 0 then collect_at G_nbrs k include_ends r (acc ++ [nn])
        else collect_at G_nbrs k include_ends r acc
      else collect_at G_nbrs k include_ends r acc
  end.

Definition predecessors (g : DiGraph) (n : node) (k : nat)
           (include_intermediates include_founders : bool) : outcome (list node) :=
  predecessors <- single_source_shortest_path_length (G_reverse g) n k ;;
  if include_intermediates then Ok (keys predecessors)
  else collect_at (G_predecessors g) k include_founders predecessors [].

Definition successors (g : DiGraph) (n : node) (k : nat)
           (include_intermediates include_leaves : bool) : outcome (list node) :=
  successors <- single_source_shortest_path_length g n k ;;
  if include_intermediates then Ok (keys successors)
  else collect_at (G_successors g) k include_leaves successors [].

(** ** Traversal engine *)

(** One pass of [for node in curr_gen: for neighbor in neighbors(node)]: the
    pairs yielded, and how the pass ended. *)
Fixpoint layer_edges (neighbors : node -> outcome (iterator node))
         (curr_gen : list node) : list edge * outcome unit :=
  match curr_gen with
  | [] => ([], Ok tt)
  | n :: r =>
      match neighbors n with
      | Ok it =>
          let '(es, st) := layer_edges neighbors r in
          (map (pair n) (items it) ++ es, st)
      | Raise e => ([], Raise e)
      | OutOfFuel => ([], OutOfFuel)
      end
  end.

(** [while curr_gen:]; [next_gen] is the set of the neighbours yielded. *)
Fixpoint trace_loop (fuel : nat) (neighbors : node -> outcome (iterator node))
         (curr_gen : list node) : list edge * outcome unit :=
  match curr_gen with
  | [] => ([], Ok tt)
  | _ :: _ =>
      match fuel with
      | O => ([], OutOfFuel)
      | S fuel' =>
          match layer_edges neighbors curr_gen with
          | (es, Ok _) =>
              let '(rest, st) :=
                trace_loop fuel' neighbors (set_iter ord (map snd es)) in
              (es ++ rest, st)
          | (es, st) => (es, st)
          end
      end
  end.

(** The generator [trace_edges]: the pairs it yields within [fuel] rounds of
    its loop, and whether it is exhausted, has raised, or is still running. *)
Definition trace_edges (fuel : nat) (g : DiGraph) (forward : bool)
           (source : option (list node)) : list edge * outcome unit :=
  let source :=
    match source with
    | Some s => s
    | None => if forward then founders g else probands g
    end in
  let neighbors := if forward then G_successors g else G_predecessors g in
  trace_loop fuel neighbors (set_iter ord source).

(** ** Depth inference *)

(** [defaultdict(int).__getitem__]: a missing key is inserted with [0]. *)
Definition dd_getitem (d : list (node * nat)) (k : node) : nat * list (node * nat) :=
  match dict_get d k with
  | Some v => (v, d)
  | None => (0, d ++ [(k, 0)])
  end.

Definition relax (depth : list (node * nat)) (e : edge) : list (node * nat) :=
  let '(node, child) := e in
  let '(d, depth1) := dd_getitem depth node in
  let '(dc, depth2) := dd_getitem depth1 child in
  if dc <=? d then dict_set depth2 child (d + 1) else depth2.

Definition infer_depth (fuel : nat) (g : DiGraph) (forward : bool)
  : outcome (list (node * nat)) :=
  let '(ys, st) := trace_edges fuel g forward None in
  _ <- st ;; Ok (fold_left relax ys []).

(** ** Descendant cohorts *)

(** [s.add(x)] on a set kept as the list of its elements. *)
Definition set_add (s : list node) (x : node) : list node :=
  if existsb (Z.eqb x) s then s else s ++ [x].

(** [for ns in base_set: n_set += self.successors(ns)] *)
Fixpoint gather_successors (g : DiGraph) (base_set n_set : list node)
  : outcome (list node) :=
  match base_set with
  | [] => Ok n_set
  | ns :: r =>
      l <- successors g ns 1 false false ;;
      gather_successors g r (n_set ++ l)
  end.

(** [while len(n_set) > 0]: [reached] is the set [ntp[n]]. *)
Fixpoint expand_leaves (fuel : nat) (g : DiGraph) (n_set reached : list node)
  : outcome (list node) :=
  match n_set with
  | [] => Ok reached
  | nn :: rest =>
      match fuel with
      | O => OutOfFuel
      | S fuel' =>
          nn_children <- successors g nn 1 false false ;;
          if 0 <? length nn_children
          then expand_leaves fuel' g (rest ++ nn_children) reached
          else expand_leaves fuel' g rest (set_add reached nn)
      end
  end.

(** [for n in nodes:] of [get_probands_under]; each [while] loop gets [fuel]. *)
Fixpoint probands_under_loop (fuel : nat) (g : DiGraph) (nodes : list node)
         (climb_up_step : nat) (ntp : list (node * list node))
  : outcome (list (node * list node)) :=
  match nodes with
  | [] => Ok ntp
  | n :: r =>
      let ntp := dict_set ntp n [] in
      base_set <- predecessors g n climb_up_step false true ;;
      n_set <- gather_successors g base_set [] ;;
      reached <- (if length n_set =? 0 then Ok (set_add [] n)
                  else expand_leaves fuel g n_set []) ;;
      probands_under_loop fuel g r climb_up_step (dict_set ntp n reached)
  end.

Definition get_probands_under (fuel : nat) (g : DiGraph)
           (nodes : option (list node)) (climb_up_step : nat)
  : outcome (list (node * list node)) :=
  let nodes := match nodes with Some l => l | None => node_ids g end in
  probands_under_loop fuel g nodes climb_up_step [].

End Traversal.

(** Reading the returned [defaultdict]: [depth[n]]. *)
Definition depth_of (depth : list (node * nat)) (n : node) : nat :=
  match dict_get depth n with Some v => v | None => 0 end.

(** ** Similarity estimator *)

(** The entries of the matrix: [float64] with the two constants and the one
    operation the code uses.  Nothing else about the numbers is assumed. *)
Class Scalar (R : Type) : Type := {
  zero : R;             (* 0.0 *)
  half : R;             (* 0.5 *)
  halve : R -> R        (* x / 2 *)
}.

#[export] Instance Scalar_Q : Scalar Q :=
  {| zero := 0%Q; half := (1 # 2)%Q; halve := fun x => (x / 2)%Q |}.

(** A square numpy array. *)
Record ndarray (R : Type) : Type := {
  shape : nat;
  cell : nat -> nat -> R
}.
Arguments shape {R} _.
Arguments cell {R} _ _ _.

Section Similarity.
Context {R : Type} `{Scalar R}.

(** [np.zeros((n, n))] *)
Definition np_zeros (n : nat) : ndarray R :=
  {| shape := n; cell := fun _ _ => zero |}.

(** An index along an axis of length [n]: negative indices count from the
    end, anything else out of range raises. *)
Definition np_index (n : nat) (i : Z) : outcome nat :=
  if ((0 <=? i) && (i <? Z.of_nat n))%Z%bool then Ok (Z.to_nat i)
  else if ((- Z.of_nat n <=? i) && (i <? 0))%Z%bool then Ok (Z.to_nat (i + Z.of_nat n))
  else Raise IndexError.

(** [K[i, j]] *)
Definition np_get (K : ndarray R) (i j : Z) : outcome R :=
  a <- np_index (shape K) i ;;
  b <- np_index (shape K) j ;;
  Ok (cell K a b).

(** [K[i, j] = v] *)
Definition np_set (K : ndarray R) (i j : Z) (v : R) : outcome (ndarray R) :=
  a <- np_index (shape K) i ;;
  b <- np_index (shape K) j ;;
  Ok {| shape := shape K;
        cell := fun x y => if ((x =? a) && (y =? b))%bool then v else cell K x y |}.

(** A [for] loop over a range, with a body that may raise. *)
Fixpoint for_each {S : Type} (l : list nat) (body : nat -> S -> outcome S) (s : S)
  : outcome S :=
  match l with
  | [] => Ok s
  | k :: r => s' <- body k s ;; for_each r body s'
  end.

(** [range(a, b)] *)
Definition py_range (a b : nat) : list nat := seq a (b - a).

(** The body of the inner loop, for the pair [(i, j)]. *)
Definition similarity_cell (g : DiGraph) (i j : nat) (K : ndarray R)
  : outcome (ndarray R) :=
  it <- G_predecessors g (Z.of_nat j) ;;
  if py_any it then
    it' <- G_predecessors g (Z.of_nat j) ;;
    p <- py_next it' ;;
    x <- np_get K (Z.of_nat i) p ;;
    K <- np_set K (Z.of_nat i) (Z.of_nat j) (halve x) ;;
    y <- np_get K (Z.of_nat i) (Z.of_nat j) ;;
    np_set K (Z.of_nat j) (Z.of_nat i) y
  else Ok K.

Definition similarity_row (g : DiGraph) (n i : nat) (K : ndarray R)
  : outcome (ndarray R) :=
  K <- np_set K (Z.of_nat i) (Z.of_nat i) half ;;
  for_each (py_range (i + 1) n) (similarity_cell g i) K.

Definition similarity (g : DiGraph) : outcome (ndarray R) :=
  let n := n_individuals g in
  for_each (py_range 0 n) (similarity_row g n) (np_zeros n).

End Similarity.

(** ** Path-counting dynamic programme *)

(** A [Counter], or a plain [dict] of counts. *)
Definition counter := list (node * nat).

(** [c[t]] on a [Counter]: a missing key counts 0. *)
Definition count_of (c : counter) (t : node) : nat :=
  match dict_get c t with Some v => v | None => 0 end.

(** [Counter.__add__]: the keys of [a] with their sums, then the keys of [b]
    that [a] lacks; only positive counts are kept. *)
Definition add_left (b : counter) (result : counter) (ec : node * nat) : counter :=
  let newcount := snd ec + count_of b (fst ec) in
  if 0 <? newcount then dict_set result (fst ec) newcount else result.

Definition add_right (a : counter) (result : counter) (ec : node * nat) : counter :=
  if (negb (dict_mem a (fst ec)) && (0 <? snd ec))%bool
  then dict_set result (fst ec) (snd ec) else result.

Definition counter_add (a b : counter) : counter :=
  fold_left (add_right a) b (fold_left (add_left b) a []).

(** [sum((Counter(pts[suc]) for suc in n_succ), Counter())] *)
Fixpoint sum_counters (pts : list (node * counter)) (n_succ : list node)
         (acc : counter) : outcome counter :=
  match n_succ with
  | [] => Ok acc
  | suc :: r =>
      match dict_get pts suc with
      | None => Raise KeyError
      | Some c => sum_counters pts r (counter_add acc c)
      end
  end.

(** [sorted(l, key=key, reverse=True)]: by decreasing key, elements with the
    same key in their original order. *)
Fixpoint insert_desc (key : node -> nat) (x : node) (l : list node) : list node :=
  match l with
  | [] => [x]
  | y :: r => if key x <? key y then y :: insert_desc key x r else x :: y :: r
  end.

Definition sorted_desc (key : node -> nat) (l : list node) : list node :=
  fold_right (insert_desc key) [] l.

(** [for t in target: del pts[t]] *)
Fixpoint delete_all {V} (pts : list (node * V)) (target : list node)
  : outcome (list (node * V)) :=
  match target with
  | [] => Ok pts
  | t :: r => pts' <- dict_del pts t ;; delete_all pts' r
  end.

Section PathCounting.
Variable ord : SetOrder.

(** The body of the loop over the nodes, deepest first. *)
Definition paths_entry (g : DiGraph) (target : list node)
           (n : node) (pts : list (node * counter)) : outcome (list (node * counter)) :=
  n_succ <- successors ord g n 1 false false ;;
  if existsb (Z.eqb n) target then Ok (dict_set pts n [(n, 1)])
  else if length n_succ =? 0 then Ok (dict_set pts n [])
  else c <- sum_counters pts n_succ [] ;; Ok (dict_set pts n c).

Fixpoint paths_loop (g : DiGraph) (target : list node) (order : list node)
         (pts : list (node * counter)) : outcome (list (node * counter)) :=
  match order with
  | [] => Ok pts
  | n :: r => pts' <- paths_entry g target n pts ;; paths_loop g target r pts'
  end.

Definition get_num_paths_to_target (fuel : nat) (g : DiGraph)
           (target : option (list node)) (include_target : bool)
  : outcome (list (node * counter)) :=
  let target := match target with Some t => t | None => probands g end in
  nodes <- infer_depth ord fuel g true ;;
  pts <- paths_loop g target (sorted_desc (depth_of nodes) (keys nodes)) [] ;;
  let pts := filter (fun kv => 0 <? length (snd kv)) pts in
  if include_target then Ok pts else delete_all pts target.

End PathCounting.

(** ** Siblings and the deduplicating iterators *)

(** A loop that keeps a set of what it has visited and lets through what it
    meets for the first time. *)
Fixpoint first_visits {A : Type} (eqb : A -> A -> bool) (visited ys : list A)
  : list A :=
  match ys with
  | [] => []
  | y :: r =>
      if existsb (eqb y) visited then first_visits eqb visited r
      else y :: first_visits eqb (y :: visited) r
  end.

Definition edge_eq (a b : edge) : bool :=
  ((fst a =? fst b)%Z && (snd a =? snd b)%Z)%bool.

Section Iterators.
Variable ord : SetOrder.

(** [child for parent in parents for child in self.successors(parent)
    if child != node] *)
Fixpoint sibling_candidates (g : DiGraph) (n : node) (parents : list node)
  : outcome (list node) :=
  match parents with
  | [] => Ok []
  | parent :: r =>
      children <- successors ord g parent 1 false false ;;
      rest <- sibling_candidates g n r ;;
      Ok (filter (fun child => negb (child =? n)%Z) children ++ rest)
  end.

(** [list(set([...]))] *)
Definition siblings (g : DiGraph) (n : node) : outcome (list node) :=
  parents <- predecessors ord g n 1 false false ;;
  candidates <- sibling_candidates g n parents ;;
  Ok (set_iter ord candidates).

(** The generator [iter_edges]: what it yields of the pairs that [trace_edges]
    yields within [fuel] rounds, and how that generator stands. *)
Definition iter_edges (fuel : nat) (g : DiGraph) (forward : bool)
           (source : option (list node)) : list edge * outcome unit :=
  let source :=
    match source with
    | Some s => s
    | None => if forward then founders g else probands g
    end in
  let '(ys, st) := trace_edges ord fuel g forward (Some source) in
  (first_visits edge_eq [] ys, st).

(** The generator [iter_nodes]: the sources, then the far ends of the edges
    of [iter_edges], each node the first time it is met. *)
Definition iter_nodes (fuel : nat) (g : DiGraph) (forward : bool)
           (source : option (list node)) : list node * outcome unit :=
  let source :=
    match source with
    | Some s => s
    | None => if forward then founders g else probands g
    end in
  let first := first_visits Z.eqb [] source in
  let '(es, st) := iter_edges fuel g forward (Some source) in
  (first ++ first_visits Z.eqb (rev first) (map snd es), st).

End Iterators.

(** ** Node attributes and generations *)

(** [d[name]] on an attribute dictionary. *)
Fixpoint attr_get (d : attrs) (name : String.string) : option pyval :=
  match d with
  | [] => None
  | (k, v) :: r => if String.eqb k name then Some v else attr_get r name
  end.

(** [a == b] on attribute values. *)
Definition pyval_eqb (a b : pyval) : bool :=
  match a, b with
  | PInt x, PInt y => (x =? y)%Z
  | PStr x, PStr y => String.eqb x y
  | _, _ => false
  end.

(** [nx.get_node_attributes(G, name)]:
    [{n: d[name] for n, d in G.nodes.items() if name in d}] *)
Definition nx_get_node_attributes (g : DiGraph) (name : String.string)
  : list (node * pyval) :=
  flat_map (fun nd => match attr_get (snd nd) name with
                      | Some v => [(fst nd, v)]
                      | None => []
                      end) (node_data g).

(** What [get_node_attributes] returns: the whole dictionary, the value of one
    node, or the empty dictionary [{}] it falls back to. *)
Inductive attr_answer : Type :=
| AllNodes (d : list (node * pyval))
| OneValue (v : pyval)
| EmptyDict.

Definition get_node_attributes (g : DiGraph) (attr : String.string)
           (node : option node) : attr_answer :=
  let node_attr := nx_get_node_attributes g attr in
  match node with
  | None => AllNodes node_attr
  | Some n =>
      match dict_get node_attr n with
      | Some v => OneValue v
      | None => EmptyDict          (* except KeyError: return {} *)
      end
  end.

(** The nodes of [nodes_at_generation_view(k)], listed: the filter
    [time[n] == k] is applied to the nodes in their order. *)
Fixpoint generation_filter (time : list (node * pyval)) (k : pyval)
         (ns : list node) : outcome (list node) :=
  match ns with
  | [] => Ok []
  | n :: r =>
      match dict_get time n with
      | None => Raise KeyError
      | Some t =>
          rest <- generation_filter time k r ;;
          Ok (if pyval_eqb t k then n :: rest else rest)
      end
  end.

(** The reserved attribute name ['time']. *)
Module AttrNames.
Import String.
Definition time : string := "time"%string.
End AttrNames.

Definition nodes_at_generation (g : DiGraph) (k : pyval) : outcome (list node) :=
  match get_node_attributes g AttrNames.time None with
  | AllNodes time => generation_filter time k (node_ids g)
  | _ => Ok []
  end.

(** * Vocabulary of the statements *)

(** Reading the result: [pts[n][t]], with 0 where an entry is missing. *)
Definition paths_to (pts : list (node * counter)) (n t : node) : nat :=
  match dict_get pts n with
  | Some c => count_of c t
  | None => 0
  end.

(** What the dynamic programme is to compute: the number of directed paths
    from [n] to [t] with fewer than [fuel] edges. *)
Fixpoint count_paths (g : DiGraph) (fuel : nat) (n t : node) : nat :=
  match fuel with
  | O => 0
  | S fuel' =>
      (if (n =? t)%Z then 1 else 0) +
      list_sum (map (fun c => count_paths g fuel' c t) (adj_succ g n))
  end.

(** On a DAG no path has as many edges as there are nodes. *)
Definition num_paths (g : DiGraph) (n t : node) : nat :=
  count_paths g (length (node_ids g)) n t.

(** A directed path from [n] to [t], as the list of its nodes. *)
Inductive path (g : DiGraph) : node -> node -> list node -> Prop :=
| path_one n : path g n n [n]
| path_step n c t p :
    In c (adj_succ g n) -> path g c t p -> path g n t (n :: p).

(** The paths from [n] to [t] with fewer than [fuel] edges. *)
Fixpoint paths_between (g : DiGraph) (fuel : nat) (n t : node) : list (list node) :=
  match fuel with
  | O => []
  | S fuel' =>
      (if (n =? t)%Z then [[n]] else []) ++
      flat_map (fun c => map (cons n) (paths_between g fuel' c t)) (adj_succ g n)
  end.

(** The number of those paths from [n] to [t] with fewer than [fuel] edges
    that end at a target and meet no target before their end. *)
Fixpoint count_stopping (g : DiGraph) (target : list node) (fuel : nat)
         (n t : node) : nat :=
  match fuel with
  | O => 0
  | S fuel' =>
      if existsb (Z.eqb n) target then (if (n =? t)%Z then 1 else 0)
      else list_sum (map (fun c => count_stopping g target fuel' c t) (adj_succ g n))
  end.

Definition stopping_paths (g : DiGraph) (target : list node) (n t : node) : nat :=
  count_stopping g target (length (node_ids g)) n t.

(** Founders and probands as the specification has them: no incoming, or no
    outgoing, edge. *)
Definition is_founder (g : DiGraph) (v : node) : Prop :=
  In v (nodes g) /\ adj_pred g v = [].

Definition is_proband (g : DiGraph) (v : node) : Prop :=
  In v (nodes g) /\ adj_succ g v = [].

(** [n] is the length of the longest walk from a root to [v]. *)
Definition longest_from (nbrs : node -> list node) (root : node -> Prop)
           (v : node) (n : nat) : Prop :=
  (exists r, root r /\ walk nbrs r v n) /\
  (forall r m, root r -> walk nbrs r v m -> m <= n).

(** A graph without attributes. *)
Definition graph_of (ns : list node) (es : list edge) : DiGraph :=
  {| node_data := map (fun n => (n, [])) ns; edge_list := es |}.

(** Boolean checks of [wf_graph], for concrete graphs. *)
Definition edge_eqb (a b : edge) : bool :=
  ((fst a =? fst b)%Z && (snd a =? snd b)%Z)%bool.

Fixpoint nodupb {A} (eqb : A -> A -> bool) (l : list A) : bool :=
  match l with
  | [] => true
  | x :: r => (negb (existsb (eqb x) r) && nodupb eqb r)%bool
  end.

Definition wf_graphb (g : DiGraph) : bool :=
  (nodupb Z.eqb (node_ids g) && nodupb edge_eqb (edge_list g) &&
   forallb (fun e => has_node g (fst e) && has_node g (snd e)) (edge_list g))%bool.

(** Edges that climb a rank cannot close a cycle. *)
Definition ranked (rank : node -> nat) (g : DiGraph) : bool :=
  forallb (fun e => rank (fst e) <? rank (snd e)) (edge_list g).

(** The diamond: founder 1, its children 2 and 3, and 4 the child of both. *)
Definition diamond : DiGraph :=
  graph_of [1; 2; 3; 4]%Z [(1, 2); (1, 3); (2, 4); (3, 4)]%Z.

(** The neighbours followed and the sources taken by [trace_edges]. *)
Definition trace_nbrs (g : DiGraph) (forward : bool) : node -> list node :=
  if forward then adj_succ g else adj_pred g.

Definition trace_source (g : DiGraph) (forward : bool) (source : option (list node))
  : list node :=
  match source with
  | Some s => s
  | None => if forward then founders g else probands g
  end.

(** Some source reaches a closed walk with an edge in it. *)
Definition reaches_cycle (nbrs : node -> list node) (source : list node) : Prop :=
  exists s c n m, In s source /\ walk nbrs s c n /\ walk nbrs c c (S m).

(** The cycle with two nodes: it has no founder and no proband. *)
Definition two_cycle : DiGraph := graph_of [1; 2]%Z [(1, 2); (2, 1)]%Z.

(** A founder that leads into a cycle. *)
Definition lasso : DiGraph := graph_of [1; 2; 3]%Z [(1, 2); (2, 3); (3, 2)]%Z.

(** A single individual without relatives. *)
Definition loner : DiGraph := graph_of [1%Z] [].

(** A node with no parents and no children. *)
Definition isolated (g : DiGraph) (n : node) : Prop :=
  In n (nodes g) /\ adj_pred g n = [] /\ adj_succ g n = [].

(** The chain F -> A -> B. *)
Definition chain (F A B : node) : DiGraph := graph_of [F; A; B] [(F, A); (A, B)].

(** [g] is the chain F -> A -> B, whatever the order in which its nodes and
    edges were added. *)
Definition is_chain (g : DiGraph) (F A B : node) : Prop :=
  wf_graph g /\ NoDup [F; A; B] /\
  (forall x, In x (nodes g) <-> In x [F; A; B]) /\
  (forall e, In e (edge_list g) <-> In e [(F, A); (A, B)]).

(** Node 3, a child of 1, is the parent of node 2: a parent numbered after
    its child. *)
Definition late_parent : DiGraph := graph_of [0; 1; 2; 3]%Z [(1, 3); (3, 2)]%Z.

(** Three generations numbered in birth order. *)
Definition lineage : DiGraph := graph_of [0; 1; 2]%Z [(0, 1); (1, 2)]%Z.

(** A counter as the dynamic programme builds them: no key twice, every
    count positive. *)
Definition wf_counter (c : counter) : Prop :=
  NoDup (keys c) /\ forall k v, dict_get c k = Some v -> 0 < v.

(** The targets that [get_num_paths_to_target] works with. *)
Definition targets_of (g : DiGraph) (target : option (list node)) : list node :=
  match target with Some t => t | None => probands g end.

(** [n] is an end point of some edge. *)
Definition has_edge (g : DiGraph) (n : node) : Prop :=
  exists u c, In (u, c) (edge_list g) /\ (n = u \/ n = c).

(** [g] is the diamond on [F], [A], [B] and [C] (founder [F], its children [A]
    and [B], and [C] the child of both), whatever the order in which its nodes
    and edges were added. *)
Definition is_diamond (g : DiGraph) (F A B C : node) : Prop :=
  wf_graph g /\ NoDup [F; A; B; C] /\
  (forall x, In x (nodes g) <-> In x [F; A; B; C]) /\
  (forall e, In e (edge_list g) <-> In e [(F, A); (F, B); (A, C); (B, C)]).

(** Node 0 is the only child of node 1 and the parent of node 2. *)
Definition zero_child : DiGraph := graph_of [1; 0; 2]%Z [(1, 0); (0, 2)]%Z.

(** [m] is the least number of steps from [s] to [v]. *)
Definition nearest (nbrs : node -> list node) (s v : node) (m : nat) : Prop :=
  walk nbrs s v m /\ forall m', walk nbrs s v m' -> m <= m'.

(** The value that node [n] carries for the attribute [name], if any. *)
Definition node_attr (g : DiGraph) (n : node) (name : String.string) : option pyval :=
  match dict_get (node_data g) n with
  | Some d => attr_get d name
  | None => None
  end.

(** Node [n] carries the time [k]. *)
Definition at_time (g : DiGraph) (k : pyval) (n : node) : bool :=
  match node_attr g n AttrNames.time with
  | Some t => pyval_eqb t k
  | None => false
  end.

(** A parent at time 1 and its child at time 0. *)
Definition two_generations : DiGraph :=
  {| node_data := [(1%Z, [(AttrNames.time, PInt 1)]); (2%Z, [(AttrNames.time, PInt 0)])];
     edge_list := [(1%Z, 2%Z)] |}.

(** Some node of [src] leads to [u]. *)
Definition reached_from (nbrs : node -> list node) (src : list node) (u : node) : Prop :=
  exists s m, In s src /\ walk nbrs s u m.

(** [x] is a leaf that can be reached from [n]. *)
Definition leaf_under (g : DiGraph) (n x : node) : Prop :=
  adj_succ g x = [] /\ exists m, walk (adj_succ g) n x m.

(** * Properties *)

(** ** Dictionaries *)

Lemma dict_get_app {V} (d1 d2 : list (node * V)) k :
  dict_get (d1 ++ d2) k =
  match dict_get d1 k with Some v => Some v | None => dict_get d2 k end.
Proof.
  induction d1 as [|[k' v'] d1 IH]; simpl; auto.
  destruct (k' =? k)%Z; auto.
Qed.

Lemma dict_get_set {V} (d : list (node * V)) k v x :
  dict_get (dict_set d k v) x = if (k =? x)%Z then Some v else dict_get d x.
Proof.
  induction d as [|[k' v'] d IH]; simpl.
  - reflexivity.
  - destruct (k' =? k)%Z eqn:E; simpl.
    + apply Z.eqb_eq in E; subst k'. destruct (k =? x)%Z; reflexivity.
    + rewrite IH. destruct (k' =? x)%Z eqn:E'; auto.
      apply Z.eqb_eq in E'; subst k'. rewrite Z.eqb_sym, E. reflexivity.
Qed.

Lemma dict_get_In_keys {V} (d : list (node * V)) k :
  In k (keys d) <-> dict_get d k <> None.
Proof.
  induction d as [|[k' v'] d IH]; simpl.
  - split; [tauto | congruence].
  - destruct (k' =? k)%Z eqn:E.
    + apply Z.eqb_eq in E. split; [congruence | auto].
    + apply Z.eqb_neq in E. rewrite <- IH. split; [intros [?|?]; tauto | auto].
Qed.

Lemma keys_dict_set_In {V} (d : list (node * V)) k v x :
  In x (keys (dict_set d k v)) <-> x = k \/ In x (keys d).
Proof.
  rewrite !dict_get_In_keys, dict_get_set.
  destruct (k =? x)%Z eqn:E.
  - apply Z.eqb_eq in E. split; [auto | congruence].
  - apply Z.eqb_neq in E. split; [auto | intros [?|?]; congruence].
Qed.

Lemma keys_dict_set_NoDup {V} (d : list (node * V)) k v :
  NoDup (keys d) -> NoDup (keys (dict_set d k v)).
Proof.
  induction d as [|[k' v'] d IH]; simpl; intro Hnd.
  - constructor; [simpl; tauto | constructor].
  - inversion Hnd as [|? ? Hn Hd]; subst.
    destruct (k' =? k)%Z eqn:E; simpl.
    + constructor; assumption.
    + constructor; [| apply IH; assumption].
      change (~ In k' (keys (dict_set d k v))). rewrite keys_dict_set_In.
      apply Z.eqb_neq in E. intros [?|?]; [congruence | contradiction].
Qed.

(** A new key goes to the end. *)
Lemma keys_dict_set_new {V} (d : list (node * V)) k v :
  ~ In k (keys d) -> keys (dict_set d k v) = keys d ++ [k].
Proof.
  induction d as [|[k' v'] d IH]; simpl; intro Hn.
  - reflexivity.
  - destruct (k' =? k)%Z eqn:E.
    + apply Z.eqb_eq in E. tauto.
    + simpl. f_equal. apply IH. tauto.
Qed.

Lemma dict_get_In {V} (d : list (node * V)) k v :
  NoDup (keys d) -> In (k, v) d -> dict_get d k = Some v.
Proof.
  induction d as [|[k' v'] d IH]; simpl; intros Hnd Hin.
  - contradiction.
  - inversion Hnd as [|? ? Hn Hd]; subst.
    destruct Hin as [Heq | Hin].
    + inversion Heq; subst. rewrite Z.eqb_refl. reflexivity.
    + destruct (k' =? k)%Z eqn:E; [| apply IH; assumption].
      apply Z.eqb_eq in E. subst k'. exfalso. apply Hn.
      change (In k (keys d)). unfold keys. apply in_map_iff. exists (k, v). auto.
Qed.

Lemma dict_get_Some_In {V} (d : list (node * V)) k v :
  dict_get d k = Some v -> In (k, v) d.
Proof.
  induction d as [|[k' v'] d IH]; simpl; intro H.
  - discriminate.
  - destruct (k' =? k)%Z eqn:E.
    + apply Z.eqb_eq in E. inversion H; subst. left. reflexivity.
    + right. apply IH. exact H.
Qed.

Lemma dict_mem_In {V} (d : list (node * V)) k : dict_mem d k = true <-> In k (keys d).
Proof.
  unfold dict_mem. rewrite dict_get_In_keys.
  destruct (dict_get d k); split; congruence.
Qed.

(** ** The defaultdict of depths *)

Lemma dd_getitem_fst d k : fst (dd_getitem d k) = depth_of d k.
Proof. unfold dd_getitem, depth_of. destruct (dict_get d k); reflexivity. Qed.

Lemma dd_getitem_snd d k x : depth_of (snd (dd_getitem d k)) x = depth_of d x.
Proof.
  unfold dd_getitem, depth_of. destruct (dict_get d k) eqn:E; simpl; auto.
  rewrite dict_get_app. destruct (dict_get d x) eqn:E'; auto. simpl.
  destruct (k =? x)%Z; reflexivity.
Qed.

Lemma dd_getitem_keys d k x :
  In x (keys (snd (dd_getitem d k))) <-> x = k \/ In x (keys d).
Proof.
  unfold dd_getitem. destruct (dict_get d k) eqn:E; simpl.
  - split; auto. intros [->|?]; auto. apply dict_get_In_keys. congruence.
  - unfold keys. rewrite map_app, in_app_iff. simpl. intuition.
Qed.

Lemma depth_of_set d k v x :
  depth_of (dict_set d k v) x = if (k =? x)%Z then v else depth_of d x.
Proof. unfold depth_of. rewrite dict_get_set. destruct (k =? x)%Z; reflexivity. Qed.

(** What one relaxation does to the depth read at [x]. *)
Lemma relax_depth d u c x :
  depth_of (relax d (u, c)) x =
  if ((c =? x)%Z && (depth_of d c <=? depth_of d u))%bool
  then depth_of d u + 1 else depth_of d x.
Proof.
  unfold relax.
  destruct (dd_getitem d u) as [du d1] eqn:E1.
  destruct (dd_getitem d1 c) as [dc d2] eqn:E2.
  assert (Hdu : du = depth_of d u) by (rewrite <- dd_getitem_fst, E1; reflexivity).
  assert (Hd1 : forall y, depth_of d1 y = depth_of d y).
  { intro y. rewrite <- (dd_getitem_snd d u y), E1. reflexivity. }
  assert (Hdc : dc = depth_of d c).
  { rewrite <- Hd1, <- dd_getitem_fst, E2. reflexivity. }
  assert (Hd2 : forall y, depth_of d2 y = depth_of d y).
  { intro y. rewrite <- Hd1, <- (dd_getitem_snd d1 c y), E2. reflexivity. }
  subst du dc.
  destruct (depth_of d c <=? depth_of d u) eqn:L.
  - rewrite depth_of_set, Hd2, andb_true_r. reflexivity.
  - rewrite andb_false_r. apply Hd2.
Qed.

Lemma relax_mono d e x : depth_of d x <= depth_of (relax d e) x.
Proof.
  destruct e as [u c]. rewrite relax_depth.
  destruct (c =? x)%Z eqn:E; simpl; auto.
  destruct (depth_of d c <=? depth_of d u) eqn:L; auto.
  apply Z.eqb_eq in E; subst. apply Nat.leb_le in L. lia.
Qed.

Lemma fold_relax_mono es d x : depth_of d x <= depth_of (fold_left relax es d) x.
Proof.
  revert d. induction es as [|e es IH]; intro d; cbn [fold_left]; auto.
  etransitivity; [apply relax_mono | apply IH].
Qed.

Lemma relax_child d u c : depth_of d u + 1 <= depth_of (relax d (u, c)) c.
Proof.
  rewrite relax_depth, Z.eqb_refl. simpl.
  destruct (depth_of d c <=? depth_of d u) eqn:L; auto.
  apply Nat.leb_gt in L. lia.
Qed.

Lemma dd_getitem_NoDup d k : NoDup (keys d) -> NoDup (keys (snd (dd_getitem d k))).
Proof.
  intro Hnd. unfold dd_getitem. destruct (dict_get d k) eqn:E; simpl; auto.
  unfold keys. rewrite map_app. simpl.
  apply NoDup_app; auto.
  - constructor; [simpl; tauto | constructor].
  - intros x Hx [<-|[]]. apply dict_get_In_keys in Hx. congruence.
Qed.

Lemma relax_NoDup d e : NoDup (keys d) -> NoDup (keys (relax d e)).
Proof.
  intro Hnd. destruct e as [u c]. unfold relax.
  pose proof (dd_getitem_NoDup d u Hnd) as H1.
  destruct (dd_getitem d u) as [du d1].
  pose proof (dd_getitem_NoDup d1 c H1) as H2.
  destruct (dd_getitem d1 c) as [dc d2]. simpl in *.
  destruct (dc <=? du); auto. apply keys_dict_set_NoDup. exact H2.
Qed.

Lemma fold_relax_NoDup es : forall d,
  NoDup (keys d) -> NoDup (keys (fold_left relax es d)).
Proof.
  induction es as [|e es IH]; intros d Hd; cbn [fold_left]; auto.
  apply IH. apply relax_NoDup. exact Hd.
Qed.

Lemma fold_relax_lower es : forall d k,
  (forall u c, In (u, c) es -> k <= depth_of d u) ->
  forall u c, In (u, c) es -> k + 1 <= depth_of (fold_left relax es d) c.
Proof.
  induction es as [|[u0 c0] es IH]; intros d k Hk u c Hin; cbn [fold_left In] in *.
  - contradiction.
  - destruct Hin as [Heq | Hin].
    + inversion Heq; subst u0 c0.
      etransitivity; [| apply fold_relax_mono].
      etransitivity; [| apply relax_child].
      specialize (Hk u c (or_introl eq_refl)). lia.
    + apply (IH _ k) with (u := u); auto.
      intros u' c' H'. etransitivity; [| apply relax_mono]. eauto.
Qed.

(** ** Walks *)

Section Walks.
Variable nbrs : node -> list node.

Lemma walk_snoc u v w n :
  walk nbrs u v n -> In w (nbrs v) -> walk nbrs u w (S n).
Proof.
  induction 1 as [u | u y v n Hy Hw IH]; intro Hin.
  - eapply walk_cons; [eassumption | constructor].
  - eapply walk_cons; eauto.
Qed.

Lemma walk_app u v w n m :
  walk nbrs u v n -> walk nbrs v w m -> walk nbrs u w (n + m).
Proof.
  induction 1 as [u | u y v n Hy Hw IH]; intro H2; simpl; auto.
  eapply walk_cons; eauto.
Qed.

Lemma walk_snoc_inv u w n :
  walk nbrs u w (S n) -> exists v, walk nbrs u v n /\ In w (nbrs v).
Proof.
  revert u. induction n as [|n IH]; intros u H.
  - inversion H as [|? y ? ? Hy Hw]; subst. inversion Hw; subst.
    exists u. split; [constructor | assumption].
  - inversion H as [|? y ? ? Hy Hw]; subst.
    destruct (IH _ Hw) as [v [Hv Hin]].
    exists v. split; [eapply walk_cons; eauto | assumption].
Qed.

Lemma walk_zero u v : walk nbrs u v 0 -> u = v.
Proof. inversion 1; reflexivity. Qed.

End Walks.

(** Walks along the reversed neighbour relation. *)
Lemma walk_reverse (f b : node -> list node) :
  (forall u v, In u (b v) <-> In v (f u)) ->
  forall u v n, walk f u v n -> walk b v u n.
Proof.
  intros Hfb u v n H. induction H as [u | u y v n Hy Hw IH].
  - constructor.
  - eapply walk_snoc; [exact IH | apply Hfb; exact Hy].
Qed.

(** ** Layered traversal of a finite acyclic relation

    [V] are the nodes, [nbrs] the direction of the traversal, [back] the
    opposite direction, and [G_nbrs] the graph method that gives [nbrs]. *)

Section Layers.
Variable ord : SetOrder.
Variable V : list node.
Variables nbrs back : node -> list node.
Variable G_nbrs : node -> outcome (iterator node).

Hypothesis nbrs_closed : forall u v, In v (nbrs u) -> In u V /\ In v V.
Hypothesis back_spec : forall u v, In u (back v) <-> In v (nbrs u).
Hypothesis G_nbrs_spec : forall n, In n V -> G_nbrs n = Ok (Iter (nbrs n)).

Definition layer (curr : list node) : list edge :=
  flat_map (fun n => map (pair n) (nbrs n)) curr.
Local Arguments layer : simpl never.

Lemma in_layer curr u c : In (u, c) (layer curr) <-> In u curr /\ In c (nbrs u).
Proof.
  unfold layer. rewrite in_flat_map. split.
  - intros [n [Hn Hin]]. apply in_map_iff in Hin. destruct Hin as [y [Heq Hy]].
    inversion Heq; subst. auto.
  - intros [Hu Hc]. exists u. split; auto. apply in_map. exact Hc.
Qed.

Lemma in_next_gen curr x :
  In x (set_iter ord (map snd (layer curr))) <->
  exists u, In u curr /\ In x (nbrs u).
Proof.
  rewrite set_iter_In, in_map_iff. split.
  - intros [[u c] [Heq Hin]]. simpl in Heq; subst c.
    apply in_layer in Hin. exists u. exact Hin.
  - intros [u Hu]. exists (u, x). split; auto. apply in_layer. exact Hu.
Qed.

Lemma next_gen_incl curr :
  incl (set_iter ord (map snd (layer curr))) V.
Proof.
  intros x Hx. apply in_next_gen in Hx. destruct Hx as [u [_ Hx]].
  apply nbrs_closed in Hx. tauto.
Qed.

Lemma layer_edges_ok curr :
  incl curr V -> layer_edges G_nbrs curr = (layer curr, Ok tt).
Proof.
  induction curr as [|n r IH]; intro Hincl; simpl.
  - reflexivity.
  - rewrite G_nbrs_spec by (apply Hincl; left; reflexivity).
    rewrite IH by (intros x Hx; apply Hincl; right; exact Hx).
    reflexivity.
Qed.

(** The loop unfolded once on current nodes of the graph. *)
Lemma trace_loop_step fuel n r :
  incl (n :: r) V ->
  trace_loop ord (S fuel) G_nbrs (n :: r) =
  let '(rest, st) :=
    trace_loop ord fuel G_nbrs (set_iter ord (map snd (layer (n :: r)))) in
  (layer (n :: r) ++ rest, st).
Proof.
  intro Hincl. cbn [trace_loop]. rewrite (layer_edges_ok _ Hincl). reflexivity.
Qed.

(** Every pair yielded is an edge in the direction of the traversal. *)
Lemma trace_loop_edges fuel : forall curr,
  incl curr V ->
  forall u c, In (u, c) (fst (trace_loop ord fuel G_nbrs curr)) -> In c (nbrs u).
Proof.
  induction fuel as [|fuel IH]; intros curr Hincl u c Hin.
  - destruct curr; simpl in Hin; contradiction.
  - destruct curr as [|n r]; [simpl in Hin; contradiction|].
    rewrite trace_loop_step in Hin by assumption.
    specialize (IH _ (next_gen_incl (n :: r)) u c).
    destruct (trace_loop ord fuel G_nbrs _) as [rest st]. simpl in Hin, IH.
    apply in_app_iff in Hin. destruct Hin as [Hin | Hin]; auto.
    apply in_layer in Hin. tauto.
Qed.

(** [far curr k]: every walk that starts in [curr] has fewer than [k] edges. *)
Definition far (curr : list node) (k : nat) : Prop :=
  forall x y n, In x curr -> walk nbrs x y n -> n < k.

Lemma far_next curr k :
  far curr (S k) -> far (set_iter ord (map snd (layer curr))) k.
Proof.
  intros Hfar x y n Hx Hw. apply in_next_gen in Hx. destruct Hx as [u [Hu Hx]].
  assert (S n < S k) by (eapply Hfar; [exact Hu | eapply walk_cons; eauto]). lia.
Qed.

(** The loop ends once the walks from the current generation are used up. *)
Lemma trace_loop_finishes fuel : forall curr k,
  incl curr V -> far curr k -> k <= fuel ->
  snd (trace_loop ord fuel G_nbrs curr) = Ok tt.
Proof.
  induction fuel as [|fuel IH]; intros curr k Hincl Hfar Hk.
  - destruct curr as [|n r]; [reflexivity|].
    assert (0 < k) by (eapply (Hfar n n 0); [left; reflexivity | constructor]). lia.
  - destruct curr as [|n r]; [reflexivity|].
    rewrite trace_loop_step by assumption.
    assert (0 < k) by (eapply (Hfar n n 0); [left; reflexivity | constructor]).
    destruct k as [|k]; [lia|].
    specialize (IH _ k (next_gen_incl (n :: r)) (far_next _ _ Hfar)).
    destruct (trace_loop ord fuel G_nbrs _) as [rest st]. simpl in *.
    apply IH. lia.
Qed.

(** More fuel changes nothing once the loop has ended. *)
Lemma trace_loop_fuel_mono fuel : forall curr fuel',
  incl curr V -> snd (trace_loop ord fuel G_nbrs curr) = Ok tt -> fuel <= fuel' ->
  trace_loop ord fuel' G_nbrs curr = trace_loop ord fuel G_nbrs curr.
Proof.
  induction fuel as [|fuel IH]; intros curr fuel' Hincl Hst Hle.
  - destruct curr; [destruct fuel'; reflexivity | simpl in Hst; discriminate].
  - destruct curr as [|n r]; [destruct fuel'; reflexivity|].
    destruct fuel' as [|fuel']; [lia|].
    rewrite !trace_loop_step in * by assumption.
    specialize (IH _ fuel' (next_gen_incl (n :: r))).
    destruct (trace_loop ord fuel G_nbrs _) as [rest st]. simpl in Hst.
    rewrite IH; auto. lia.
Qed.

(** The loop goes on as long as some walk from the current generation is
    longer than the fuel. *)
Lemma trace_loop_diverges fuel : forall curr x y,
  incl curr V -> In x curr -> walk nbrs x y fuel ->
  snd (trace_loop ord fuel G_nbrs curr) = OutOfFuel.
Proof.
  induction fuel as [|fuel IH]; intros curr x y Hincl Hx Hw.
  - destruct curr; [contradiction | reflexivity].
  - destruct curr as [|n r]; [contradiction|].
    rewrite trace_loop_step by assumption.
    inversion Hw as [|? z ? ? Hz Hw']; subst.
    specialize (IH (set_iter ord (map snd (layer (n :: r)))) z y
                  (next_gen_incl (n :: r))).
    destruct (trace_loop ord fuel G_nbrs _) as [rest st]. simpl in *.
    apply IH; auto. apply in_next_gen. exists x. auto.
Qed.

(** After the traversal each node is at least as deep as any walk that leads
    to it from the current generation. *)
Lemma trace_loop_lower fuel : forall curr d i,
  incl curr V ->
  snd (trace_loop ord fuel G_nbrs curr) = Ok tt ->
  (forall x, In x curr -> i <= depth_of d x) ->
  forall s v m, In s curr -> walk nbrs s v m ->
  i + m <= depth_of (fold_left relax (fst (trace_loop ord fuel G_nbrs curr)) d) v.
Proof.
  induction fuel as [|fuel IH]; intros curr d i Hincl Hst Hd s v m Hs Hw.
  - destruct curr; [contradiction | simpl in Hst; discriminate].
  - destruct curr as [|n r]; [contradiction|].
    rewrite trace_loop_step in * by assumption.
    specialize (IH (set_iter ord (map snd (layer (n :: r))))
                  (fold_left relax (layer (n :: r)) d) (i + 1)
                  (next_gen_incl (n :: r))).
    destruct (trace_loop ord fuel G_nbrs _) as [rest st]. simpl in Hst, IH |- *.
    rewrite fold_left_app.
    inversion Hw as [|? y ? m' Hy Hw']; subst.
    + etransitivity; [| apply fold_relax_mono].
      etransitivity; [| apply fold_relax_mono].
      specialize (Hd _ Hs). lia.
    + replace (i + S m') with (i + 1 + m') by lia.
      apply IH with (s := y); auto.
      * intros x Hx. apply in_next_gen in Hx. destruct Hx as [u [Hu Hx]].
        apply fold_relax_lower with (u := u).
        -- intros u' c' H'. apply in_layer in H'. apply Hd. tauto.
        -- apply in_layer. auto.
      * apply in_next_gen. exists s. auto.
Qed.

(** Once the loop has ended, it has yielded every edge that can be reached
    from the current generation. *)
Lemma trace_loop_covers fuel : forall curr,
  incl curr V ->
  snd (trace_loop ord fuel G_nbrs curr) = Ok tt ->
  forall s u m c, In s curr -> walk nbrs s u m -> In c (nbrs u) ->
  In (u, c) (fst (trace_loop ord fuel G_nbrs curr)).
Proof.
  induction fuel as [|fuel IH]; intros curr Hincl Hst s u m c Hs Hw Hc.
  - destruct curr; [contradiction | simpl in Hst; discriminate].
  - destruct curr as [|n r]; [contradiction|].
    rewrite trace_loop_step in * by assumption.
    specialize (IH (set_iter ord (map snd (layer (n :: r))))
                  (next_gen_incl (n :: r))).
    destruct (trace_loop ord fuel G_nbrs _) as [rest st]. simpl in Hst, IH |- *.
    apply in_app_iff.
    inversion Hw as [|? y ? m' Hy Hw']; subst.
    + left. apply in_layer. auto.
    + right. apply (IH eq_refl y u m' c); auto.
      apply in_next_gen. exists s. auto.
Qed.

(** Each depth is the length of a walk that ends at the node. *)
Definition attained (d : list (node * nat)) : Prop :=
  forall x, exists s, walk nbrs s x (depth_of d x).

Lemma attained_empty : attained [].
Proof. intro x. exists x. constructor. Qed.

Lemma relax_attained d u c : In c (nbrs u) -> attained d -> attained (relax d (u, c)).
Proof.
  intros Hc Hd x. rewrite relax_depth.
  destruct ((c =? x)%Z && (depth_of d c <=? depth_of d u))%bool eqn:E; [| apply Hd].
  apply andb_true_iff in E. destruct E as [E _]. apply Z.eqb_eq in E; subst x.
  destruct (Hd u) as [s Hs]. exists s.
  rewrite Nat.add_1_r. eapply walk_snoc; eauto.
Qed.

Lemma fold_relax_attained es : forall d,
  (forall u c, In (u, c) es -> In c (nbrs u)) ->
  attained d -> attained (fold_left relax es d).
Proof.
  induction es as [|[u c] es IH]; intros d Hes Hd; cbn [fold_left]; auto.
  apply IH.
  - intros u' c' H'. apply Hes. right. exact H'.
  - apply relax_attained; auto. apply Hes. left. reflexivity.
Qed.

(** The keys of the table are the end points of the pairs relaxed. *)
Lemma relax_keys d u c x :
  In x (keys (relax d (u, c))) <-> x = u \/ x = c \/ In x (keys d).
Proof.
  unfold relax.
  destruct (dd_getitem d u) as [du d1] eqn:E1.
  destruct (dd_getitem d1 c) as [dc d2] eqn:E2.
  assert (H1 : forall y, In y (keys d1) <-> y = u \/ In y (keys d)).
  { intro y. rewrite <- (dd_getitem_keys d u y), E1. reflexivity. }
  assert (H2 : forall y, In y (keys d2) <-> y = c \/ In y (keys d1)).
  { intro y. rewrite <- (dd_getitem_keys d1 c y), E2. reflexivity. }
  destruct (dc <=? du).
  - rewrite keys_dict_set_In, H2, H1. tauto.
  - rewrite H2, H1. tauto.
Qed.

Lemma fold_relax_keys es : forall d x,
  In x (keys (fold_left relax es d)) <->
  In x (keys d) \/ exists u c, In (u, c) es /\ (x = u \/ x = c).
Proof.
  induction es as [|[u c] es IH]; intros d x; cbn [fold_left].
  - split; [auto | intros [?|[? [? [[] _]]]]; auto].
  - rewrite IH, relax_keys. split.
    + intros [[?|[?|?]] | [u' [c' [Hin Hx]]]]; auto.
      * right. exists u, c. split; [left; reflexivity | auto].
      * right. exists u, c. split; [left; reflexivity | auto].
      * right. exists u', c'. split; [right; assumption | auto].
    + intros [? | [u' [c' [[Heq | Hin] Hx]]]]; auto.
      * inversion Heq; subst. left. tauto.
      * right. exists u', c'. auto.
Qed.

(** *** Relations without a cycle in reach *)

(** No closed walk with an edge in it can be reached from [u]. *)
Definition cycle_free_from (u : node) : Prop :=
  forall c k m, walk nbrs u c k -> walk nbrs c c m -> m = 0.

(** The nodes along a walk are then pairwise different nodes of the graph. *)
Lemma walk_vertices u v n :
  walk nbrs u v n -> In u V -> cycle_free_from u ->
  exists p, length p = S n /\ NoDup p /\ incl p V /\
            forall x, In x p -> exists k, walk nbrs u x k.
Proof.
  induction 1 as [u | u y v n Hy Hw IH]; intros Hu Hfree.
  - exists [u]. repeat split.
    + constructor; [simpl; tauto | constructor].
    + intros x [<-|[]]. exact Hu.
    + intros x [<-|[]]. exists 0. constructor.
  - destruct IH as [p [Hlen [Hnd [Hincl Hreach]]]].
    { apply nbrs_closed in Hy. tauto. }
    { intros c k m Hc Hcc. apply (Hfree c (S k) m); auto.
      eapply walk_cons; eauto. }
    exists (u :: p). repeat split.
    + simpl. rewrite Hlen. reflexivity.
    + constructor; [| exact Hnd].
      intro Hin. destruct (Hreach _ Hin) as [k Hk].
      assert (S k = 0).
      { apply (Hfree u 0); [constructor | eapply walk_cons; eauto]. }
      discriminate.
    + intros x [<-|Hx]; auto.
    + intros x [<-|Hx].
      * exists 0. constructor.
      * destruct (Hreach _ Hx) as [k Hk]. exists (S k). eapply walk_cons; eauto.
Qed.

Lemma walk_bound_from u v n :
  walk nbrs u v n -> In u V -> cycle_free_from u -> n < length V.
Proof.
  intros Hw Hu Hfree.
  destruct (walk_vertices _ _ _ Hw Hu Hfree) as [p [Hlen [Hnd [Hincl _]]]].
  pose proof (NoDup_incl_length Hnd Hincl). lia.
Qed.

Lemma far_cycle_free curr :
  incl curr V -> (forall x, In x curr -> cycle_free_from x) -> far curr (length V).
Proof. intros Hincl Hfree x y n Hx Hw. eapply walk_bound_from; eauto. Qed.

Lemma walk_prefix u v n :
  walk nbrs u v n -> forall k, k <= n -> exists w, walk nbrs u w k.
Proof.
  induction 1 as [u | u y v n Hy Hw IH]; intros k Hk.
  - exists u. replace k with 0 by lia. constructor.
  - destruct k as [|k].
    + exists u. constructor.
    + destruct (IH k ltac:(lia)) as [w Hw']. exists w. eapply walk_cons; eauto.
Qed.

Lemma walk_around c m k : walk nbrs c c m -> walk nbrs c c (k * m).
Proof.
  intro H. induction k as [|k IH]; simpl.
  - constructor.
  - eapply walk_app; eauto.
Qed.

(** A source that reaches a cycle starts walks of every length. *)
Lemma cycle_walks s c n m fuel :
  walk nbrs s c n -> walk nbrs c c (S m) -> exists w, walk nbrs s w fuel.
Proof.
  intros Hs Hc.
  apply (walk_prefix s c (n + fuel * S m)).
  - eapply walk_app; [exact Hs | apply walk_around; exact Hc].
  - nia.
Qed.

(** *** Acyclic relations *)

Hypothesis acyc : forall v n, walk nbrs v v n -> n = 0.

Lemma walk_bound u v n : walk nbrs u v n -> In u V -> n < length V.
Proof.
  intros Hw Hu. apply (walk_bound_from u v n Hw Hu).
  intros c k m _ Hcc. eapply acyc; eauto.
Qed.

Lemma walk_start_in u v n : walk nbrs u v n -> In v V -> In u V.
Proof.
  intros Hw Hv. inversion Hw as [|? y ? ? Hy _]; subst; auto.
  apply nbrs_closed in Hy. tauto.
Qed.

Lemma far_nodes curr : incl curr V -> far curr (length V).
Proof. intros Hincl x y n Hx Hw. eapply walk_bound; eauto. Qed.

(** A walk can be extended backwards until it starts at a node that nothing
    leads to. *)
Lemma extend_to_root k : forall n u v,
  length V - n <= k -> walk nbrs u v n -> In u V ->
  exists r m, In r V /\ back r = [] /\ walk nbrs r v m /\ n <= m.
Proof.
  induction k as [|k IH]; intros n u v Hk Hw Hu.
  - pose proof (walk_bound _ _ _ Hw Hu). lia.
  - destruct (back u) as [|p ps] eqn:E.
    + exists u, n. auto.
    + assert (Hp : In u (nbrs p)) by (apply back_spec; rewrite E; left; reflexivity).
      assert (Hw' : walk nbrs p v (S n)) by (eapply walk_cons; eauto).
      assert (HpV : In p V) by (apply nbrs_closed in Hp; tauto).
      pose proof (walk_bound _ _ _ Hw Hu).
      destruct (IH (S n) p v ltac:(lia) Hw' HpV) as [r [m [Hr [Hb [Hwr Hm]]]]].
      exists r, m. repeat split; auto. lia.
Qed.

(** The traversal from a set of nodes that holds every root ends within
    [length V] rounds, and the relaxation of the pairs it yields leaves at
    each node the length of the longest walk that ends there. *)
Lemma layered_depth (source : list node) :
  incl source V ->
  (forall r, In r V -> back r = [] -> In r source) ->
  let run := trace_loop ord (length V) G_nbrs (set_iter ord source) in
  snd run = Ok tt /\
  forall v, In v V ->
    (exists r, In r V /\ back r = [] /\
               walk nbrs r v (depth_of (fold_left relax (fst run) []) v)) /\
    (forall u n, walk nbrs u v n -> n <= depth_of (fold_left relax (fst run) []) v).
Proof.
  intros Hsrc Hroots run.
  assert (Hincl : incl (set_iter ord source) V).
  { intros x Hx. apply set_iter_In in Hx. auto. }
  assert (Hfin : snd run = Ok tt).
  { apply trace_loop_finishes with (k := length V); auto. apply far_nodes; auto. }
  split; [exact Hfin|]. intros v Hv.
  assert (Hup : forall u n, walk nbrs u v n ->
                n <= depth_of (fold_left relax (fst run) []) v).
  { intros u n Hw.
    destruct (extend_to_root (length V) n u v ltac:(lia) Hw
                (walk_start_in _ _ _ Hw Hv)) as [r [m [Hr [Hb [Hwr Hm]]]]].
    pose proof (trace_loop_lower (length V) _ [] 0 Hincl Hfin
                  ltac:(intros; lia) r v m
                  ltac:(apply set_iter_In; auto) Hwr) as Hlow.
    fold run in Hlow. simpl in Hlow. lia. }
  split; [| exact Hup].
  destruct (fold_relax_attained (fst run) []
              (trace_loop_edges _ _ Hincl) attained_empty v) as [s Hs].
  destruct (extend_to_root (length V) _ s v ltac:(lia) Hs
              (walk_start_in _ _ _ Hs Hv)) as [r [m [Hr [Hb [Hwr Hm]]]]].
  pose proof (Hup _ _ Hwr).
  exists r. repeat split; auto.
  replace (depth_of (fold_left relax (fst run) []) v) with m by lia. exact Hwr.
Qed.

(** That traversal yields every edge, and only edges. *)
Lemma layered_edges (source : list node) :
  incl source V ->
  (forall r, In r V -> back r = [] -> In r source) ->
  forall u c,
    In (u, c) (fst (trace_loop ord (length V) G_nbrs (set_iter ord source))) <->
    In c (nbrs u).
Proof.
  intros Hsrc Hroots u c.
  assert (Hincl : incl (set_iter ord source) V).
  { intros x Hx. apply set_iter_In in Hx. auto. }
  split; [apply trace_loop_edges; exact Hincl|].
  intro Hc.
  assert (Hu : In u V) by (apply nbrs_closed in Hc; tauto).
  destruct (extend_to_root (length V) 0 u u ltac:(lia) (walk_nil nbrs u) Hu)
    as [r [m [Hr [Hb [Hwr _]]]]].
  apply (trace_loop_covers (length V) _ Hincl) with (s := r) (m := m); auto.
  - apply trace_loop_finishes with (k := length V); auto. apply far_nodes; auto.
  - apply set_iter_In. auto.
Qed.

End Layers.

(** ** The graph store *)

Lemma in_adj_succ g u v : In v (adj_succ g u) <-> In (u, v) (edge_list g).
Proof.
  unfold adj_succ. rewrite in_map_iff. split.
  - intros [[a b] [Heq Hin]]. apply filter_In in Hin. destruct Hin as [Hin Hf].
    simpl in *. apply Z.eqb_eq in Hf. subst. exact Hin.
  - intro Hin. exists (u, v). split; auto. apply filter_In. split; auto.
    simpl. apply Z.eqb_refl.
Qed.

Lemma in_adj_pred g u v : In u (adj_pred g v) <-> In (u, v) (edge_list g).
Proof.
  unfold adj_pred. rewrite in_map_iff. split.
  - intros [[a b] [Heq Hin]]. apply filter_In in Hin. destruct Hin as [Hin Hf].
    simpl in *. apply Z.eqb_eq in Hf. subst. exact Hin.
  - intro Hin. exists (u, v). split; auto. apply filter_In. split; auto.
    simpl. apply Z.eqb_refl.
Qed.

Lemma adj_pred_succ g u v : In u (adj_pred g v) <-> In v (adj_succ g u).
Proof. rewrite in_adj_pred, in_adj_succ. reflexivity. Qed.

Lemma has_node_In g n : has_node g n = true <-> In n (node_ids g).
Proof.
  unfold has_node. rewrite existsb_exists. split.
  - intros [x [Hx E]]. apply Z.eqb_eq in E. subst. exact Hx.
  - intro H. exists n. split; auto. apply Z.eqb_refl.
Qed.

Lemma G_successors_node g n :
  In n (node_ids g) -> G_successors g n = Ok (Iter (adj_succ g n)).
Proof. intro H. unfold G_successors. apply has_node_In in H. rewrite H. reflexivity. Qed.

Lemma G_predecessors_node g n :
  In n (node_ids g) -> G_predecessors g n = Ok (Iter (adj_pred g n)).
Proof. intro H. unfold G_predecessors. apply has_node_In in H. rewrite H. reflexivity. Qed.

Lemma succ_closed g : wf_graph g ->
  forall u v, In v (adj_succ g u) -> In u (node_ids g) /\ In v (node_ids g).
Proof. intros [_ [_ H]] u v Hin. apply H. apply in_adj_succ. exact Hin. Qed.

Lemma pred_closed g : wf_graph g ->
  forall u v, In v (adj_pred g u) -> In u (node_ids g) /\ In v (node_ids g).
Proof.
  intros [_ [_ H]] u v Hin. apply in_adj_pred in Hin. apply H in Hin. tauto.
Qed.

Lemma acyclic_pred g : acyclic g -> forall v n, walk (adj_pred g) v v n -> n = 0.
Proof.
  intros Hac v n Hw. apply (Hac v).
  eapply walk_reverse; [| exact Hw]. intros a b. symmetry. apply adj_pred_succ.
Qed.

(** [G.edges()] lists the edges of the graph. *)
Lemma in_G_edges g u v : wf_graph g -> In (u, v) (G_edges g) <-> In (u, v) (edge_list g).
Proof.
  intro Hwf. unfold G_edges. rewrite in_flat_map. split.
  - intros [a [Ha Hin]]. apply in_map_iff in Hin. destruct Hin as [b [Heq Hb]].
    inversion Heq; subst. apply in_adj_succ. exact Hb.
  - intro Hin. exists u. split.
    + destruct Hwf as [_ [_ H]]. apply H in Hin. tauto.
    + apply in_map. apply in_adj_succ. exact Hin.
Qed.

Lemma adj_succ_NoDup g n : wf_graph g -> NoDup (adj_succ g n).
Proof.
  intros [_ [Hnd _]]. unfold adj_succ.
  induction (edge_list g) as [|[a b] l IH]; simpl; [constructor|].
  inversion Hnd as [|? ? Hn Hl]; subst.
  destruct (Z.eqb_spec a n); simpl; auto.
  subst a. constructor; auto.
  intro Hin. apply Hn. apply in_map_iff in Hin. destruct Hin as [[a' b'] [Heq Hin]].
  apply filter_In in Hin. destruct Hin as [Hin Hf]. simpl in *.
  apply Z.eqb_eq in Hf. subst. exact Hin.
Qed.

Lemma singleton_list (l : list node) a :
  NoDup l -> (forall x, In x l <-> x = a) -> l = [a].
Proof.
  intros Hnd Hin. destruct l as [|x l].
  - exfalso. apply (Hin a). reflexivity.
  - assert (x = a) by (apply Hin; left; reflexivity). subst x.
    destruct l as [|y l]; [reflexivity|]. exfalso.
    assert (y = a) by (apply Hin; right; left; reflexivity). subst y.
    inversion Hnd as [|? ? Hn _]. apply Hn. left. reflexivity.
Qed.

Lemma empty_list (l : list node) : (forall x, ~ In x l) -> l = [].
Proof.
  intro Hin. destruct l as [|x l]; [reflexivity|].
  exfalso. apply (Hin x). left. reflexivity.
Qed.

Lemma founders_incl g : incl (founders g) (node_ids g).
Proof. intros x Hx. apply filter_In in Hx. tauto. Qed.

Lemma probands_incl g : incl (probands g) (node_ids g).
Proof. intros x Hx. apply filter_In in Hx. tauto. Qed.

Lemma is_founder_founders g v : is_founder g v -> In v (founders g).
Proof.
  intros [Hv Hp]. apply filter_In. split; auto. rewrite Hp. reflexivity.
Qed.

Lemma is_proband_probands g v : is_proband g v -> In v (probands g).
Proof.
  intros [Hv Hp]. apply filter_In. split; auto. rewrite Hp. reflexivity.
Qed.

(** ** Depth inference on a DAG *)

Section Depth.
Variable ord : SetOrder.
Variable g : DiGraph.
Hypothesis Hwf : wf_graph g.
Hypothesis Hac : acyclic g.

Lemma infer_depth_forward :
  exists depth,
    (forall fuel, length (nodes g) <= fuel -> infer_depth ord fuel g true = Ok depth) /\
    (forall v, In v (nodes g) ->
      (exists r, is_founder g r /\ walk (adj_succ g) r v (depth_of depth v)) /\
      (forall u n, walk (adj_succ g) u v n -> n <= depth_of depth v)) /\
    NoDup (keys depth) /\
    (forall x, In x (keys depth) <->
               exists u c, In c (adj_succ g u) /\ (x = u \/ x = c)).
Proof.
  pose proof (layered_depth ord (node_ids g) (adj_succ g) (adj_pred g)
                (G_successors g) (succ_closed g Hwf) (adj_pred_succ g)
                (G_successors_node g) Hac (founders g) (founders_incl g)
                (fun r Hr Hb => is_founder_founders g r (conj Hr Hb))) as [Hfin Hd].
  pose proof (layered_edges ord (node_ids g) (adj_succ g) (adj_pred g)
                (G_successors g) (succ_closed g Hwf) (adj_pred_succ g)
                (G_successors_node g) Hac (founders g) (founders_incl g)
                (fun r Hr Hb => is_founder_founders g r (conj Hr Hb))) as Hedges.
  set (run := trace_loop ord (length (node_ids g)) (G_successors g)
                (set_iter ord (founders g))) in *.
  exists (fold_left relax (fst run) []). split; [| split; [| split]].
  - intros fuel Hfuel. unfold infer_depth, trace_edges.
    rewrite (trace_loop_fuel_mono ord (node_ids g) (adj_succ g) (G_successors g)
               (succ_closed g Hwf) (G_successors_node g) (length (node_ids g)));
      auto.
    + fold run. destruct run as [ys st]. simpl in *. rewrite Hfin. reflexivity.
    + intros x Hx. apply set_iter_In in Hx. apply founders_incl. exact Hx.
  - intros v Hv. destruct (Hd v Hv) as [[r [Hr [Hb Hw]]] Hup].
    split; [exists r; split; [split |]; assumption | exact Hup].
  - apply fold_relax_NoDup. constructor.
  - intro x. rewrite fold_relax_keys. simpl. split.
    + intros [[] | [u [c [Hin Hx]]]]. exists u, c. split; auto. apply Hedges. exact Hin.
    + intros [u [c [Hc Hx]]]. right. exists u, c. split; auto. apply Hedges. exact Hc.
Qed.

Lemma infer_depth_backward :
  exists depth,
    (forall fuel, length (nodes g) <= fuel -> infer_depth ord fuel g false = Ok depth) /\
    forall v, In v (nodes g) ->
      (exists r, is_proband g r /\ walk (adj_pred g) r v (depth_of depth v)) /\
      (forall u n, walk (adj_pred g) u v n -> n <= depth_of depth v).
Proof.
  pose proof (layered_depth ord (node_ids g) (adj_pred g) (adj_succ g)
                (G_predecessors g) (pred_closed g Hwf)
                (fun u v => iff_sym (adj_pred_succ g v u))
                (G_predecessors_node g) (acyclic_pred g Hac)
                (probands g) (probands_incl g)
                (fun r Hr Hb => is_proband_probands g r (conj Hr Hb))) as [Hfin Hd].
  set (run := trace_loop ord (length (node_ids g)) (G_predecessors g)
                (set_iter ord (probands g))) in *.
  exists (fold_left relax (fst run) []). split.
  - intros fuel Hfuel. unfold infer_depth, trace_edges.
    rewrite (trace_loop_fuel_mono ord (node_ids g) (adj_pred g) (G_predecessors g)
               (pred_closed g Hwf) (G_predecessors_node g) (length (node_ids g)));
      auto.
    + fold run. destruct run as [ys st]. simpl in *. rewrite Hfin. reflexivity.
    + intros x Hx. apply set_iter_In in Hx. apply probands_incl. exact Hx.
  - intros v Hv. destruct (Hd v Hv) as [[r [Hr [Hb Hw]]] Hup].
    split; [exists r; split; [split |]; assumption | exact Hup].
Qed.

End Depth.

(** ** Checking concrete graphs and orders *)

Lemma first_seen_In l : forall seen x,
  In x (first_seen seen l) <-> In x l /\ ~ In x seen.
Proof.
  induction l as [|y r IH]; intros seen x; simpl.
  - tauto.
  - destruct (existsb (Z.eqb y) seen) eqn:E.
    + apply existsb_exists in E. destruct E as [z [Hz E]].
      apply Z.eqb_eq in E. subst z. rewrite IH. split.
      * tauto.
      * intros [[<-|H] Hn]; tauto.
    + assert (Hy : ~ In y seen).
      { intro H. apply Bool.not_true_iff_false in E. apply E.
        apply existsb_exists. exists y. split; auto. apply Z.eqb_refl. }
      simpl. rewrite IH. simpl. split.
      * intros [<-|[H Hn]]; tauto.
      * intros [[<-|H] Hn]; [tauto|].
        destruct (Z.eq_dec y x); [tauto|]. right. tauto.
Qed.

Lemma first_seen_NoDup l : forall seen, NoDup (first_seen seen l).
Proof.
  induction l as [|y r IH]; intro seen; simpl.
  - constructor.
  - destruct (existsb (Z.eqb y) seen); auto.
    constructor; auto. rewrite first_seen_In. simpl. tauto.
Qed.

(** Sets iterated in the order of first insertion. *)
Definition insertion_order : SetOrder :=
  {| set_iter := first_seen [];
     set_iter_In := fun l x =>
       iff_trans (first_seen_In l [] x)
                 (conj (fun H => proj1 H) (fun H => conj H (fun F : False => F)));
     set_iter_NoDup := fun l => first_seen_NoDup l [] |}.

Lemma nodupb_sound {A} (eqb : A -> A -> bool) :
  (forall x, eqb x x = true) -> forall l, nodupb eqb l = true -> NoDup l.
Proof.
  intros Hrefl l. induction l as [|x r IH]; simpl; intro H.
  - constructor.
  - apply andb_true_iff in H. destruct H as [H1 H2].
    constructor; auto. intro Hin.
    apply negb_true_iff in H1. apply Bool.not_true_iff_false in H1. apply H1.
    apply existsb_exists. exists x. auto.
Qed.

Lemma wf_graphb_sound g : wf_graphb g = true -> wf_graph g.
Proof.
  unfold wf_graphb. intro H.
  apply andb_true_iff in H. destruct H as [H H3].
  apply andb_true_iff in H. destruct H as [H1 H2].
  split; [| split].
  - apply (nodupb_sound Z.eqb); auto. apply Z.eqb_refl.
  - apply (nodupb_sound edge_eqb); auto.
    intros [a b]. unfold edge_eqb. simpl. rewrite !Z.eqb_refl. reflexivity.
  - intros u v Hin. rewrite forallb_forall in H3. apply H3 in Hin. simpl in Hin.
    apply andb_true_iff in Hin. rewrite <- !has_node_In. exact Hin.
Qed.

Lemma ranked_acyclic rank g : ranked rank g = true -> acyclic g.
Proof.
  intros H.
  assert (Hw : forall u v n, walk (adj_succ g) u v n -> rank u + n <= rank v).
  { induction 1 as [u | u y v n Hy Hw IH]; [lia|].
    apply in_adj_succ in Hy. unfold ranked in H. rewrite forallb_forall in H.
    apply H in Hy. simpl in Hy. apply Nat.ltb_lt in Hy. lia. }
  intros v n Hv. apply Hw in Hv. lia.
Qed.

Lemma diamond_wf : wf_graph diamond.
Proof. apply wf_graphb_sound. reflexivity. Qed.

Lemma diamond_acyclic : acyclic diamond.
Proof. apply (ranked_acyclic Z.to_nat). reflexivity. Qed.

(** ** Depth inference: the statements *)

Lemma root_depth_zero nbrs back (root : node -> Prop) v n :
  (forall a b, In a (back b) <-> In b (nbrs a)) ->
  back v = [] -> (exists r, root r /\ walk nbrs r v n) -> n = 0.
Proof.
  intros Hback Hb [r [_ Hw]]. destruct n as [|n]; auto.
  apply walk_snoc_inv in Hw. destruct Hw as [p [_ Hp]].
  apply Hback in Hp. rewrite Hb in Hp. contradiction.
Qed.

(** C1.  On a finite DAG [infer_depth(forward=True)] returns, given fuel for at
    least as many rounds as there are nodes, a table in which every founder
    has depth 0 and every node has the length of the longest directed path
    that leads to it from a founder; [infer_depth(forward=False)] does the same
    from the probands along reversed edges. *)
Theorem infer_depth_longest_path (ord : SetOrder) (g : DiGraph) :
  wf_graph g -> acyclic g ->
  (exists depth,
     (forall fuel, length (nodes g) <= fuel ->
                   infer_depth ord fuel g true = Ok depth) /\
     (forall f, is_founder g f -> depth_of depth f = 0) /\
     (forall v, In v (nodes g) ->
                longest_from (adj_succ g) (is_founder g) v (depth_of depth v))) /\
  (exists depth,
     (forall fuel, length (nodes g) <= fuel ->
                   infer_depth ord fuel g false = Ok depth) /\
     (forall p, is_proband g p -> depth_of depth p = 0) /\
     (forall v, In v (nodes g) ->
                longest_from (adj_pred g) (is_proband g) v (depth_of depth v))).
Proof.
  intros Hwf Hac. split.
  - destruct (infer_depth_forward ord g Hwf Hac) as [depth [Hrun [Hd _]]].
    assert (Hl : forall v, In v (nodes g) ->
              longest_from (adj_succ g) (is_founder g) v (depth_of depth v)).
    { intros v Hv. destruct (Hd v Hv) as [Hex Hup]. split; auto.
      intros r m _ Hw. eapply Hup; eauto. }
    exists depth. repeat split; auto; try (apply Hl; assumption).
    intros f [Hf Hb].
    apply (root_depth_zero (adj_succ g) (adj_pred g) (is_founder g) f); auto.
    + apply adj_pred_succ.
    + apply Hl. exact Hf.
  - destruct (infer_depth_backward ord g Hwf Hac) as [depth [Hrun Hd]].
    assert (Hl : forall v, In v (nodes g) ->
              longest_from (adj_pred g) (is_proband g) v (depth_of depth v)).
    { intros v Hv. destruct (Hd v Hv) as [Hex Hup]. split; auto.
      intros r m _ Hw. eapply Hup; eauto. }
    exists depth. repeat split; auto; try (apply Hl; assumption).
    intros f [Hf Hb].
    apply (root_depth_zero (adj_pred g) (adj_succ g) (is_proband g) f); auto.
    + intros a b. symmetry. apply adj_pred_succ.
    + apply Hl. exact Hf.
Qed.

(** The forward half at the diamond, sets iterated in insertion order. *)
Lemma infer_depth_longest_path_witness :
  wf_graph diamond /\ acyclic diamond /\
  (exists depth,
     (forall fuel, length (nodes diamond) <= fuel ->
                   infer_depth insertion_order fuel diamond true = Ok depth) /\
     (forall f, is_founder diamond f -> depth_of depth f = 0) /\
     (forall v, In v (nodes diamond) ->
                longest_from (adj_succ diamond) (is_founder diamond) v
                             (depth_of depth v))).
Proof.
  split; [exact diamond_wf | split; [exact diamond_acyclic |]].
  exact (proj1 (infer_depth_longest_path insertion_order diamond
                  diamond_wf diamond_acyclic)).
Defined.

(** C6.  On a DAG the table of [infer_depth(forward=True)] puts every child at
    least one level below each of its parents, and exactly one level below
    at least one of them. *)
Theorem infer_depth_edge_invariant (ord : SetOrder) (g : DiGraph) :
  wf_graph g -> acyclic g ->
  exists depth,
    (forall fuel, length (nodes g) <= fuel ->
                  infer_depth ord fuel g true = Ok depth) /\
    (forall parent child, In (parent, child) (edges g) ->
                          depth_of depth child >= depth_of depth parent + 1) /\
    (forall child, In child (nodes g) ->
       (exists parent, In (parent, child) (edges g)) ->
       exists parent, In (parent, child) (edges g) /\
                      depth_of depth child = depth_of depth parent + 1).
Proof.
  intros Hwf Hac.
  destruct (infer_depth_forward ord g Hwf Hac) as [depth [Hrun [Hd _]]].
  assert (Hedge : forall p c, In (p, c) (edges g) ->
            depth_of depth c >= depth_of depth p + 1).
  { intros p c He. apply (in_G_edges g p c Hwf) in He.
    pose proof He as Hn. apply Hwf in Hn. destruct Hn as [Hp Hc].
    destruct (Hd p Hp) as [[r [_ Hw]] _]. destruct (Hd c Hc) as [_ Hup].
    rewrite Nat.add_1_r. apply (Hup r).
    eapply walk_snoc; [exact Hw | apply in_adj_succ; exact He]. }
  exists depth. split; [exact Hrun | split; [exact Hedge |]].
  intros c Hc [q Hq].
  destruct (Hd c Hc) as [[r [_ Hw]] _].
  pose proof (Hedge q c Hq) as Hq'.
  destruct (depth_of depth c) as [|k] eqn:E; [lia|].
  apply walk_snoc_inv in Hw. destruct Hw as [p [Hwp Hp]].
  assert (He : In (p, c) (edges g)).
  { apply in_G_edges; auto. apply in_adj_succ. exact Hp. }
  exists p. split; auto.
  pose proof (Hedge p c He) as Hge. rewrite E in Hge.
  assert (HpV : In p (nodes g)) by (apply (succ_closed g Hwf) in Hp; tauto).
  destruct (Hd p HpV) as [_ Hup]. apply Hup in Hwp. lia.
Qed.

(** The invariant at the diamond, sets iterated in insertion order. *)
Lemma infer_depth_edge_invariant_witness :
  wf_graph diamond /\ acyclic diamond /\
  exists depth,
    (forall fuel, length (nodes diamond) <= fuel ->
                  infer_depth insertion_order fuel diamond true = Ok depth) /\
    (forall parent child, In (parent, child) (edges diamond) ->
                          depth_of depth child >= depth_of depth parent + 1) /\
    (forall child, In child (nodes diamond) ->
       (exists parent, In (parent, child) (edges diamond)) ->
       exists parent, In (parent, child) (edges diamond) /\
                      depth_of depth child = depth_of depth parent + 1).
Proof.
  split; [exact diamond_wf | split; [exact diamond_acyclic |]].
  exact (infer_depth_edge_invariant insertion_order diamond
           diamond_wf diamond_acyclic).
Defined.

(** ** Termination of the traversal *)

Section TraceTermination.
Variable ord : SetOrder.
Variable g : DiGraph.
Variable nbrs : node -> list node.
Variable G_nbrs : node -> outcome (iterator node).
Hypothesis G_nbrs_def :
  forall n, G_nbrs n = if has_node g n then Ok (Iter (nbrs n)) else Raise NetworkXError.

(** A pass over a generation that holds a stranger to the graph raises. *)
Lemma layer_edges_raise curr :
  forallb (has_node g) curr = false ->
  exists es, layer_edges G_nbrs curr = (es, Raise NetworkXError).
Proof.
  induction curr as [|n r IH]; simpl; intro H.
  - discriminate.
  - rewrite G_nbrs_def. destruct (has_node g n); simpl in H.
    + destruct (IH H) as [es Hes]. rewrite Hes. eexists. reflexivity.
    + eexists. reflexivity.
Qed.

Lemma trace_loop_raise curr :
  forallb (has_node g) curr = false ->
  exists es, forall fuel, trace_loop ord (S fuel) G_nbrs curr = (es, Raise NetworkXError).
Proof.
  intro H. destruct (layer_edges_raise curr H) as [es Hes].
  exists es. intro fuel. destruct curr as [|n r]; [discriminate|].
  cbn [trace_loop]. rewrite Hes. reflexivity.
Qed.

Lemma forallb_has_node curr :
  forallb (has_node g) curr = true <-> incl curr (node_ids g).
Proof.
  rewrite forallb_forall. split; intros H x Hx; apply has_node_In; auto.
Qed.

Hypothesis nbrs_closed :
  forall u v, In v (nbrs u) -> In u (node_ids g) /\ In v (node_ids g).

Lemma G_nbrs_node n : In n (node_ids g) -> G_nbrs n = Ok (Iter (nbrs n)).
Proof. intro H. rewrite G_nbrs_def. apply has_node_In in H. rewrite H. reflexivity. Qed.

(** From sources none of which reaches a cycle the loop stops, for every
    amount of fuel from [S (length nodes)] on, with the same finite sequence. *)
Lemma trace_loop_halts source :
  (incl source (node_ids g) ->
   forall x, In x source -> cycle_free_from nbrs x) ->
  exists es st, st <> OutOfFuel /\
    (incl source (node_ids g) -> st = Ok tt) /\
    forall fuel, S (length (node_ids g)) <= fuel ->
      trace_loop ord fuel G_nbrs (set_iter ord source) = (es, st).
Proof.
  intro Hfree.
  destruct (forallb (has_node g) (set_iter ord source)) eqn:E.
  - apply forallb_has_node in E.
    assert (Hsrc : incl source (node_ids g)).
    { intros x Hx. apply E. apply set_iter_In. exact Hx. }
    pose proof (trace_loop_finishes ord (node_ids g) nbrs G_nbrs nbrs_closed
                  G_nbrs_node (length (node_ids g)) (set_iter ord source)
                  (length (node_ids g)) E) as Hfin.
    assert (Hst : snd (trace_loop ord (length (node_ids g)) G_nbrs
                         (set_iter ord source)) = Ok tt).
    { apply Hfin; auto. apply far_cycle_free; auto.
      intros x Hx. apply Hfree; auto. apply set_iter_In in Hx. exact Hx. }
    destruct (trace_loop ord (length (node_ids g)) G_nbrs (set_iter ord source))
      as [es st] eqn:Erun.
    simpl in Hst. subst st.
    exists es, (Ok tt). split; [discriminate | split; [reflexivity |]].
    intros fuel Hfuel. rewrite <- Erun.
    apply (trace_loop_fuel_mono ord (node_ids g) nbrs G_nbrs nbrs_closed G_nbrs_node);
      auto; [rewrite Erun; reflexivity | lia].
  - destruct (trace_loop_raise _ E) as [es Hes].
    exists es, (Raise NetworkXError). split; [discriminate | split].
    + intro Hsrc. exfalso.
      assert (forallb (has_node g) (set_iter ord source) = true); [| congruence].
      apply forallb_has_node. intros x Hx. apply Hsrc.
      apply set_iter_In in Hx. exact Hx.
    + intros [|fuel] Hfuel; [lia | apply Hes].
Qed.

(** From a source that reaches a cycle the loop outlasts every fuel. *)
Lemma trace_loop_runs_on source s c n m :
  incl source (node_ids g) -> In s source ->
  walk nbrs s c n -> walk nbrs c c (S m) ->
  forall fuel, snd (trace_loop ord fuel G_nbrs (set_iter ord source)) = OutOfFuel.
Proof.
  intros Hsrc Hs Hw Hc fuel.
  destruct (cycle_walks nbrs s c n m fuel Hw Hc) as [w Hwalk].
  apply (trace_loop_diverges ord (node_ids g) nbrs G_nbrs nbrs_closed G_nbrs_node
           fuel (set_iter ord source) s w); auto.
  - intros x Hx. apply Hsrc. apply set_iter_In in Hx. exact Hx.
  - apply set_iter_In. exact Hs.
Qed.

End TraceTermination.

Lemma acyclic_trace_nbrs g forward :
  acyclic g -> forall v n, walk (trace_nbrs g forward) v v n -> n = 0.
Proof.
  intros Hac. destruct forward; simpl; [exact Hac | apply acyclic_pred; exact Hac].
Qed.

Lemma trace_nbrs_closed g forward : wf_graph g ->
  forall u v, In v (trace_nbrs g forward u) -> In u (node_ids g) /\ In v (node_ids g).
Proof.
  intro Hwf. destruct forward; simpl; [apply succ_closed | apply pred_closed]; auto.
Qed.

Lemma trace_edges_unfold ord fuel g forward source :
  trace_edges ord fuel g forward source =
  trace_loop ord fuel (if forward then G_successors g else G_predecessors g)
             (set_iter ord (trace_source g forward source)).
Proof. reflexivity. Qed.

Lemma G_trace_def g (forward : bool) n :
  (if forward then G_successors g else G_predecessors g) n =
  if has_node g n then Ok (Iter (trace_nbrs g forward n)) else Raise NetworkXError.
Proof. destruct forward; reflexivity. Qed.

Lemma two_cycle_cyclic : ~ acyclic two_cycle.
Proof.
  intro H. specialize (H 1%Z 2).
  assert (W : walk (adj_succ two_cycle) 1%Z 1%Z 2).
  { apply walk_cons with (y := 2%Z); [simpl; auto|].
    apply walk_cons with (y := 1%Z); [simpl; auto | constructor]. }
  apply H in W. discriminate.
Qed.

Lemma set_iter_nil ord : set_iter ord [] = [].
Proof.
  destruct (set_iter ord []) as [|x r] eqn:E; auto.
  exfalso. apply (set_iter_In ord [] x). rewrite E. left. reflexivity.
Qed.

(** C7, as the claim has it, fails: the traversal of a cyclic graph from its
    default sources ends at once when no node is a founder. *)
Lemma trace_edges_cyclic_counterexample :
  ~ (forall (ord : SetOrder) (g : DiGraph) (forward : bool)
            (source : option (list node)),
       wf_graph g -> ~ acyclic g ->
       forall fuel, snd (trace_edges ord fuel g forward source) = OutOfFuel).
Proof.
  intro H.
  specialize (H insertion_order two_cycle true None
                (wf_graphb_sound two_cycle eq_refl) two_cycle_cyclic 5).
  vm_compute in H. discriminate.
Qed.

(** C7, amended.  On a finite graph the sequence of [trace_edges], in either
    direction, is finite whenever no source reaches a cycle, as on every
    acyclic graph: from some fuel on the loop stops with one and the same
    sequence, and stops because the current generation is empty when the
    sources are nodes of the graph.  From sources of the graph one of which
    reaches a cycle the traversal never stops. *)
Theorem trace_edges_termination (ord : SetOrder) (g : DiGraph) (forward : bool)
        (source : option (list node)) :
  wf_graph g ->
  let nbrs := trace_nbrs g forward in
  let src := trace_source g forward source in
  ((acyclic g \/ ~ reaches_cycle nbrs src) ->
   exists es st, st <> OutOfFuel /\
     (incl src (nodes g) -> st = Ok tt) /\
     forall fuel, S (length (nodes g)) <= fuel ->
       trace_edges ord fuel g forward source = (es, st)) /\
  (incl src (nodes g) -> reaches_cycle nbrs src ->
   forall fuel, snd (trace_edges ord fuel g forward source) = OutOfFuel).
Proof.
  intros Hwf nbrs src. split.
  - intro Hfree.
    apply (trace_loop_halts ord g nbrs _ (G_trace_def g forward)
             (trace_nbrs_closed g forward Hwf) src).
    intros _ x Hx c k m Hw Hc. destruct Hfree as [Hac | Hno].
    + eapply acyclic_trace_nbrs; eauto.
    + destruct m as [|m]; auto. exfalso. apply Hno. exists x, c, k, m. auto.
  - intros Hsrc [s [c [n [m [Hs [Hw Hc]]]]]] fuel.
    rewrite trace_edges_unfold.
    apply (trace_loop_runs_on ord g nbrs _ (G_trace_def g forward)
             (trace_nbrs_closed g forward Hwf) src s c n m); auto.
Qed.

Lemma lasso_reaches_cycle :
  reaches_cycle (trace_nbrs lasso true) (trace_source lasso true None).
Proof.
  exists 1%Z, 2%Z, 1, 1. split; [simpl; auto | split].
  - apply walk_cons with (y := 2%Z); [simpl; auto | constructor].
  - apply walk_cons with (y := 3%Z); [simpl; auto|].
    apply walk_cons with (y := 2%Z); [simpl; auto | constructor].
Qed.

(** Both halves: the traversal of the diamond stops, that of the lasso does
    not. *)
Lemma trace_edges_termination_witness :
  (wf_graph diamond /\ acyclic diamond /\
   exists es st, st <> OutOfFuel /\
     (incl (trace_source diamond true None) (nodes diamond) -> st = Ok tt) /\
     forall fuel, S (length (nodes diamond)) <= fuel ->
       trace_edges insertion_order fuel diamond true None = (es, st)) /\
  (wf_graph lasso /\
   incl (trace_source lasso true None) (nodes lasso) /\
   reaches_cycle (trace_nbrs lasso true) (trace_source lasso true None) /\
   forall fuel, snd (trace_edges insertion_order fuel lasso true None) = OutOfFuel).
Proof.
  split.
  - split; [exact diamond_wf | split; [exact diamond_acyclic |]].
    apply (proj1 (trace_edges_termination insertion_order diamond true None
                    diamond_wf)).
    left. exact diamond_acyclic.
  - assert (Hwf : wf_graph lasso) by (apply wf_graphb_sound; reflexivity).
    assert (Hin : incl (trace_source lasso true None) (nodes lasso))
      by apply founders_incl.
    split; [exact Hwf | split; [exact Hin | split; [exact lasso_reaches_cycle |]]].
    apply (proj2 (trace_edges_termination insertion_order lasso true None Hwf));
      [exact Hin | exact lasso_reaches_cycle].
Defined.

(** ** Cohort queries *)

Lemma set_iter_single ord x : set_iter ord [x] = [x].
Proof.
  pose proof (set_iter_In ord [x]) as Hin. pose proof (set_iter_NoDup ord [x]) as Hnd.
  destruct (set_iter ord [x]) as [|a r].
  - exfalso. apply (Hin x). left. reflexivity.
  - assert (a = x).
    { destruct (proj1 (Hin a) (or_introl eq_refl)) as [E|[]]. auto. }
    subst a. destruct r as [|b r]; auto.
    assert (b = x).
    { destruct (proj1 (Hin b) (or_intror (or_introl eq_refl))) as [E|[]]. auto. }
    subst b. inversion Hnd as [|? ? Hn _]. exfalso. apply Hn. left. reflexivity.
Qed.

Lemma visit_level_prefix level : forall thislevel seen found,
  exists rest, fst (visit_level thislevel level seen found) = seen ++ rest.
Proof.
  induction thislevel as [|v r IH]; intros seen found; simpl.
  - exists []. rewrite app_nil_r. reflexivity.
  - destruct (dict_mem seen v); [apply IH|].
    destruct (IH (seen ++ [(v, level)]) (found ++ [v])) as [rest Hrest].
    rewrite Hrest, <- app_assoc. eexists. reflexivity.
Qed.

Lemma sssp_loop_prefix ord adj n rounds : forall level nextlevel seen,
  exists rest, sssp_loop ord adj n rounds level nextlevel seen = seen ++ rest.
Proof.
  induction rounds as [|r IH]; intros level nextlevel seen; simpl.
  - exists []. rewrite app_nil_r. reflexivity.
  - destruct nextlevel as [|x l].
    + exists []. rewrite app_nil_r. reflexivity.
    + destruct (visit_level_prefix level (x :: l) seen []) as [rest1 H1].
      destruct (visit_level (x :: l) level seen []) as [seen' found].
      simpl in H1. subst seen'.
      destruct (length (seen ++ rest1) =? n).
      * eexists. reflexivity.
      * destruct (IH (S level) (set_iter ord (flat_map adj found)) (seen ++ rest1))
          as [rest2 H2].
        rewrite H2, <- app_assoc. eexists. reflexivity.
Qed.

(** The distance table starts with the source, at distance 0. *)
Lemma sssp_source_first ord g n cutoff :
  In n (node_ids g) ->
  exists rest,
    single_source_shortest_path_length ord g n cutoff = Ok ((n, 0) :: rest).
Proof.
  intro Hn. unfold single_source_shortest_path_length.
  apply has_node_In in Hn. rewrite Hn.
  rewrite set_iter_single. cbn [sssp_loop visit_level dict_mem dict_get app].
  destruct (length [(n, 0)] =? length (node_ids g)).
  - exists []. reflexivity.
  - destruct (sssp_loop_prefix ord (adj_succ g) (length (node_ids g)) cutoff 1
                (set_iter ord (flat_map (adj_succ g) [n])) [(n, 0)]) as [rest H].
    rewrite H. exists rest. reflexivity.
Qed.

(** With [include_founders] or [include_leaves] set, a node of the graph and
    [k >= 1], the first entry of the table, the node itself at distance 0,
    already takes the branch that calls [len] on an iterator. *)
Lemma include_ends_raises ord g n k :
  In n (nodes g) -> 1 <= k ->
  predecessors ord g n k false true = Raise TypeError /\
  successors ord g n k false true = Raise TypeError.
Proof.
  intros Hn Hk. split.
  - unfold predecessors.
    destruct (sssp_source_first ord (G_reverse g) n k Hn) as [rest H].
    rewrite H. cbn [bind collect_at].
    destruct (Nat.eqb_spec 0 k); [lia|].
    rewrite (G_predecessors_node g n Hn). reflexivity.
  - unfold successors.
    destruct (sssp_source_first ord g n k Hn) as [rest H].
    rewrite H. cbn [bind collect_at].
    destruct (Nat.eqb_spec 0 k); [lia|].
    rewrite (G_successors_node g n Hn). reflexivity.
Qed.

(** C2: the code at the failing input.  On the graph of one isolated node,
    [predecessors(1, 1, include_founders=True)] and
    [successors(1, 1, include_leaves=True)] raise [TypeError], whatever the
    order of sets, where the claim has them return the node. *)
Theorem include_founders_type_error (ord : SetOrder) :
  predecessors ord loner 1%Z 1 false true = Raise TypeError /\
  successors ord loner 1%Z 1 false true = Raise TypeError.
Proof. apply include_ends_raises; [simpl; auto | lia]. Qed.

(** The node itself is its only ancestor zero generations back. *)
Lemma predecessors_zero ord g n include_founders :
  In n (nodes g) -> predecessors ord g n 0 false include_founders = Ok [n].
Proof.
  intro Hn. unfold predecessors, single_source_shortest_path_length.
  assert (H : has_node (G_reverse g) n = true) by (apply has_node_In; exact Hn).
  rewrite H, set_iter_single.
  cbn [sssp_loop visit_level dict_mem dict_get app].
  destruct (length [(n, 0)] =? _); reflexivity.
Qed.

(** A node without children has no successor one step away. *)
Lemma successors_leaf ord g n :
  In n (nodes g) -> adj_succ g n = [] -> successors ord g n 1 false false = Ok [].
Proof.
  intros Hn Hs. unfold successors, single_source_shortest_path_length.
  apply has_node_In in Hn. rewrite Hn, set_iter_single.
  cbn [sssp_loop visit_level dict_mem dict_get app flat_map].
  rewrite Hs, set_iter_nil.
  destruct (length [(n, 0)] =? _); reflexivity.
Qed.

(** C8.  For an isolated node [n], [get_probands_under(n)] with the default
    [climb_up_step=0] returns the mapping with the single entry [n: {n}]. *)
Theorem get_probands_under_isolated (ord : SetOrder) (fuel : nat) (g : DiGraph)
        (n : node) :
  isolated g n -> get_probands_under ord fuel g (Some [n]) 0 = Ok [(n, [n])].
Proof.
  intros [Hn [_ Hs]].
  unfold get_probands_under. cbn [probands_under_loop].
  rewrite predecessors_zero by exact Hn.
  cbn [bind gather_successors].
  rewrite successors_leaf by assumption.
  cbn [bind gather_successors app length Nat.eqb set_add existsb
       probands_under_loop dict_set].
  rewrite Z.eqb_refl. reflexivity.
Qed.

(** The graph of one node, without any fuel. *)
Lemma get_probands_under_isolated_witness :
  isolated loner 1%Z /\
  get_probands_under insertion_order 0 loner (Some [1%Z]) 0 = Ok [(1%Z, [1%Z])].
Proof.
  assert (H : isolated loner 1%Z) by (repeat split; simpl; auto).
  split; [exact H |].
  exact (get_probands_under_isolated insertion_order 0 loner 1%Z H).
Defined.

(** ** The chain F -> A -> B *)

Ltac eqb_cases :=
  repeat match goal with
         | |- context [(?a =? ?b)%Z] =>
             destruct (Z.eqb_spec a b); try congruence
         end.

(** [G.reverse()] is a graph with the same nodes and every edge turned. *)
Lemma G_edges_NoDup g : wf_graph g -> NoDup (G_edges g).
Proof.
  intros Hwf. pose proof (proj1 Hwf) as Hnd. unfold G_edges.
  assert (Hadj : forall u, NoDup (map (pair u) (adj_succ g u))).
  { intro u. pose proof (adj_succ_NoDup g u Hwf) as H.
    clear - H. induction H as [|x l Hx Hl IH]; simpl; constructor; auto.
    intro Hin. apply in_map_iff in Hin. destruct Hin as [y [Heq Hy]].
    inversion Heq; subst. contradiction. }
  induction (node_ids g) as [|u l IH]; simpl; [constructor|].
  inversion Hnd as [|? ? Hu Hl]; subst.
  apply NoDup_app; auto.
  intros [a b] H1 H2.
  apply in_map_iff in H1. destruct H1 as [y [Heq _]]. inversion Heq; subst.
  apply in_flat_map in H2. destruct H2 as [u' [Hu' H2]].
  apply in_map_iff in H2. destruct H2 as [y' [Heq' _]]. inversion Heq'; subst.
  contradiction.
Qed.

Lemma in_G_reverse g u v :
  wf_graph g -> In (u, v) (edge_list (G_reverse g)) <-> In (v, u) (edge_list g).
Proof.
  intro Hwf. cbn [G_reverse edge_list]. rewrite in_map_iff. split.
  - intros [[a b] [Heq Hin]]. simpl in Heq. inversion Heq; subst.
    apply in_G_edges; assumption.
  - intro Hin. exists (v, u). split; [reflexivity | apply in_G_edges; assumption].
Qed.

Lemma G_reverse_wf g : wf_graph g -> wf_graph (G_reverse g).
Proof.
  intro Hwf. split; [apply Hwf | split].
  - cbn [G_reverse edge_list].
    pose proof (G_edges_NoDup g Hwf) as H.
    induction H as [|[a b] l Hx Hl IH]; simpl; constructor; auto.
    intro Hin. apply in_map_iff in Hin. destruct Hin as [[a' b'] [Heq Hy]].
    simpl in Heq. inversion Heq; subst. contradiction.
  - intros u v Hin. apply (proj1 (in_G_reverse g u v Hwf)) in Hin.
    apply Hwf in Hin. cbn [node_ids G_reverse node_data]. tauto.
Qed.

Lemma in_adj_reverse g u v :
  wf_graph g -> In v (adj_succ (G_reverse g) u) <-> In (v, u) (edge_list g).
Proof. intro Hwf. rewrite in_adj_succ. apply in_G_reverse. exact Hwf. Qed.

Lemma sssp_loop_step ord adj n r level x l seen :
  sssp_loop ord adj n (S r) level (x :: l) seen =
  let '(seen', found) := visit_level (x :: l) level seen [] in
  if length seen' =? n then seen'
  else sssp_loop ord adj n r (S level) (set_iter ord (flat_map adj found)) seen'.
Proof. reflexivity. Qed.

Ltac sssp_level :=
  rewrite set_iter_single, sssp_loop_step;
  cbn [visit_level]; unfold dict_mem; cbn [dict_get]; eqb_cases;
  cbn [app length Nat.eqb flat_map].

Section Chain.
Variable g : DiGraph.
Variables F A B : node.
Hypothesis Hchain : is_chain g F A B.

Lemma chain_distinct : F <> A /\ F <> B /\ A <> B.
Proof.
  destruct Hchain as [_ [Hnd _]].
  repeat match goal with
         | H : NoDup (_ :: _) |- _ => apply NoDup_cons_iff in H; destruct H
         end.
  simpl in *. intuition congruence.
Qed.

Lemma chain_parents x :
  In x (adj_succ (G_reverse g) B) <-> x = A.
Proof.
  destruct chain_distinct as [? [? ?]].
  rewrite in_adj_reverse by apply Hchain.
  destruct Hchain as [_ [_ [_ He]]]. rewrite He. simpl. intuition congruence.
Qed.

Lemma chain_grandparents x :
  In x (adj_succ (G_reverse g) A) <-> x = F.
Proof.
  destruct chain_distinct as [? [? ?]].
  rewrite in_adj_reverse by apply Hchain.
  destruct Hchain as [_ [_ [_ He]]]. rewrite He. simpl. intuition congruence.
Qed.

Lemma chain_distances ord :
  single_source_shortest_path_length ord (G_reverse g) B 2 =
  Ok [(B, 0); (A, 1); (F, 2)].
Proof.
  destruct chain_distinct as [HFA [HFB HAB]].
  pose proof (G_reverse_wf g (proj1 Hchain)) as Hwf'.
  assert (HB : adj_succ (G_reverse g) B = [A]).
  { apply singleton_list; [apply adj_succ_NoDup; exact Hwf' | apply chain_parents]. }
  assert (HA : adj_succ (G_reverse g) A = [F]).
  { apply singleton_list; [apply adj_succ_NoDup; exact Hwf' | apply chain_grandparents]. }
  assert (Hlen : length (node_ids (G_reverse g)) = 3).
  { destruct Hchain as [[Hnd _] [Hnd' [Hn _]]].
    apply (Permutation_length (NoDup_Permutation Hnd Hnd' Hn)). }
  unfold single_source_shortest_path_length.
  replace (has_node (G_reverse g) B) with true
    by (symmetry; apply has_node_In; apply Hchain; simpl; auto).
  rewrite Hlen.
  sssp_level. rewrite HB. cbn [app].
  sssp_level. rewrite HA. cbn [app].
  sssp_level. reflexivity.
Qed.

End Chain.

(** C3, as the claim has it, fails: with [include_intermediates] the result
    holds the query node itself. *)
Lemma predecessors_chain_counterexample :
  ~ (forall ord : SetOrder,
       exists l, predecessors ord (chain 1 2 3)%Z 3%Z 2 true false = Ok l /\
                 forall x, In x l <-> x = 1%Z \/ x = 2%Z).
Proof.
  intro H. destruct (H insertion_order) as [l [Hl Hin]].
  vm_compute in Hl. inversion Hl; subst l.
  destruct (proj1 (Hin 3%Z) (or_introl eq_refl)); discriminate.
Qed.

(** C3, amended.  On the chain F -> A -> B, however it was built and whatever
    the order of sets, [predecessors(B, k=2)] returns [F] alone, and
    [predecessors(B, k=2, include_intermediates=True)] returns B itself, A
    and F: every node within two steps, B at distance 0 among them. *)
Theorem predecessors_chain (ord : SetOrder) (g : DiGraph) (F A B : node) :
  is_chain g F A B ->
  predecessors ord g B 2 false false = Ok [F] /\
  predecessors ord g B 2 true false = Ok [B; A; F].
Proof.
  intro Hchain. unfold predecessors.
  rewrite (chain_distances g F A B Hchain). split; reflexivity.
Qed.

(** The chain 1 -> 2 -> 3. *)
Lemma predecessors_chain_witness :
  is_chain (chain 1 2 3)%Z 1%Z 2%Z 3%Z /\
  predecessors insertion_order (chain 1 2 3)%Z 3%Z 2 false false = Ok [1%Z] /\
  predecessors insertion_order (chain 1 2 3)%Z 3%Z 2 true false = Ok [3; 2; 1]%Z.
Proof.
  assert (H : is_chain (chain 1 2 3)%Z 1%Z 2%Z 3%Z).
  { split; [apply wf_graphb_sound; reflexivity | split; [| split]].
    - apply (nodupb_sound Z.eqb Z.eqb_refl). reflexivity.
    - intro x. reflexivity.
    - intro e. reflexivity. }
  split; [exact H|].
  exact (predecessors_chain insertion_order _ 1%Z 2%Z 3%Z H).
Defined.

(** ** The attribute accessor *)

(** C10.  [attributes] is partial: on a graph whose first listed node carries
    the attribute dictionary [d] it returns the keys of [d], whatever the
    other nodes carry; on a graph without nodes the indexing raises
    [IndexError]; and it returns a value exactly on the graphs that have a
    node. *)
Theorem attributes_first_node :
  (forall n d rest es,
      attributes {| node_data := (n, d) :: rest; edge_list := es |} = Ok (map fst d)) /\
  (forall es, attributes {| node_data := []; edge_list := es |} = Raise IndexError) /\
  (forall g, (exists ks, attributes g = Ok ks) <-> nodes g <> []) /\
  (forall g, attributes g = Raise IndexError <-> nodes g = []).
Proof.
  repeat split.
  - intros [ks H] Hn. unfold attributes in H. unfold nodes, node_ids in Hn.
    destruct (node_data g); [discriminate | discriminate].
  - intro Hn. unfold attributes. unfold nodes, node_ids in Hn.
    destruct (node_data g) as [|[n d] r]; [contradiction Hn; reflexivity |].
    eexists. reflexivity.
  - unfold attributes, nodes, node_ids.
    destruct (node_data g) as [|[n d] r]; [reflexivity | discriminate].
  - unfold attributes, nodes, node_ids. intro Hn.
    destruct (node_data g) as [|[n d] r]; [reflexivity | discriminate].
Qed.

(** ** The similarity matrix *)

Lemma for_each_seq {S : Type} (body : nat -> S -> outcome S) (P : nat -> S -> Prop) :
  forall len start s,
    P start s ->
    (forall k s, start <= k < start + len -> P k s ->
                 exists s', body k s = Ok s' /\ P (Datatypes.S k) s') ->
    exists s', for_each (seq start len) body s = Ok s' /\ P (start + len) s'.
Proof.
  induction len as [|len IH]; intros start s Hs Hbody; simpl.
  - exists s. rewrite Nat.add_0_r. auto.
  - destruct (Hbody start s ltac:(lia) Hs) as [s1 [H1 HP1]].
    rewrite H1. cbn [bind].
    destruct (IH (Datatypes.S start) s1 HP1) as [s' [H' HP']].
    + intros k s2 Hk. apply Hbody. lia.
    + exists s'. split; auto. replace (start + Datatypes.S len) with (Datatypes.S start + len) by lia.
      exact HP'.
Qed.

Section SimilarityProof.
Context {R : Type} `{Scalar R}.
Variable g : DiGraph.
Let n := n_individuals g.
Hypothesis Hwf : wf_graph g.
Hypothesis Hrange : forall z, In z (nodes g) <-> (0 <= z < Z.of_nat n)%Z.

Lemma np_index_nat i : i < n -> np_index n (Z.of_nat i) = Ok i.
Proof.
  intro Hi. unfold np_index.
  destruct (Z.leb_spec 0 (Z.of_nat i)); [| lia].
  destruct (Z.ltb_spec (Z.of_nat i) (Z.of_nat n)); [| lia].
  simpl. rewrite Nat2Z.id. reflexivity.
Qed.

Lemma np_index_node p : In p (nodes g) -> np_index n p = Ok (Z.to_nat p).
Proof.
  intro Hp. apply Hrange in Hp. unfold np_index.
  destruct (Z.leb_spec 0 p); [| lia].
  destruct (Z.ltb_spec p (Z.of_nat n)); [| lia]. reflexivity.
Qed.

(** The first parent of [b] is [p], the test [any(predecessors(b))] passes,
    and [p] is smaller than [b]. *)
Definition halved_from (b : nat) (p : node) : Prop :=
  py_any (Iter (adj_pred g (Z.of_nat b))) = true /\
  hd_error (adj_pred g (Z.of_nat b)) = Some p /\
  (p < Z.of_nat b)%Z.

(** What the body of the inner loop does to the matrix. *)
Definition cell_written (i j : nat) (K K' : ndarray R) : Prop :=
  shape K' = shape K /\
  ((py_any (Iter (adj_pred g (Z.of_nat j))) = false /\
    forall x y, cell K' x y = cell K x y) \/
   (py_any (Iter (adj_pred g (Z.of_nat j))) = true /\
    exists p, hd_error (adj_pred g (Z.of_nat j)) = Some p /\
      forall x y, cell K' x y =
        if (((x =? i) && (y =? j)) || ((x =? j) && (y =? i)))%bool
        then halve (cell K i (Z.to_nat p)) else cell K x y)).

Lemma similarity_cell_spec i j K :
  shape K = n -> i < n -> j < n ->
  exists K', similarity_cell g i j K = Ok K' /\ cell_written i j K K'.
Proof.
  intros Hshape Hi Hj. unfold similarity_cell.
  assert (HjV : In (Z.of_nat j) (node_ids g)) by (apply Hrange; lia).
  rewrite (G_predecessors_node g _ HjV). cbn [bind].
  destruct (py_any (Iter (adj_pred g (Z.of_nat j)))) eqn:Hany.
  - destruct (adj_pred g (Z.of_nat j)) as [|p rest] eqn:Hpred;
      [simpl in Hany; discriminate|].
    assert (HpV : In p (nodes g)).
    { apply (pred_closed g Hwf (Z.of_nat j) p). rewrite Hpred. left. reflexivity. }
    unfold py_next, np_get, np_set. cbn [items bind shape cell].
    rewrite Hshape.
    repeat (first [ rewrite (np_index_nat i Hi) | rewrite (np_index_nat j Hj)
                  | rewrite (np_index_node p HpV) ]; cbn [bind shape cell]).
    eexists. split; [reflexivity|]. split; [symmetry; exact Hshape|].
    right. split; [rewrite Hpred; exact Hany|].
    exists p. split; [rewrite Hpred; reflexivity|].
    intros x y. cbn [cell]. rewrite !Nat.eqb_refl. cbn [andb].
    destruct ((x =? j) && (y =? i))%bool; [rewrite orb_true_r; reflexivity|].
    rewrite orb_false_r. reflexivity.
  - exists K. split; [reflexivity|]. split; [reflexivity|]. left. auto.
Qed.

(** The state of the matrix when row [i] has been filled up to column [j]. *)
Definition filled (i j : nat) (K : ndarray R) : Prop :=
  shape K = n /\
  (forall a, a <= i -> cell K a a = half) /\
  (forall a b, cell K a b = cell K b a) /\
  (forall a b p, a < b -> b < n -> a < i \/ (a = i /\ b < j) ->
                 halved_from b p -> cell K a b = halve (cell K a (Z.to_nat p))).

(** The state of the matrix when the rows before [i] have been filled. *)
Definition rows_filled (i : nat) (K : ndarray R) : Prop :=
  shape K = n /\
  (forall a, a < i -> cell K a a = half) /\
  (forall a b, cell K a b = cell K b a) /\
  (forall a b p, a < b -> b < n -> a < i ->
                 halved_from b p -> cell K a b = halve (cell K a (Z.to_nat p))).

Lemma filled_step i j K :
  i < j -> j < n -> filled i j K ->
  exists K', similarity_cell g i j K = Ok K' /\ filled i (S j) K'.
Proof.
  intros Hij Hj [Hshape [Hdiag [Hsym Hhalf]]].
  destruct (similarity_cell_spec i j K Hshape ltac:(lia) Hj) as [K' [Hrun [Hsh Hw]]].
  exists K'. split; [exact Hrun|].
  destruct Hw as [[Hany Hsame] | [Hany [p [Hp Hnew]]]].
  - split; [congruence|]. split; [| split].
    + intros a Ha. rewrite Hsame. auto.
    + intros a b. rewrite !Hsame. auto.
    + intros a b q Hab Hb Hdone [Hq1 [Hq2 Hq3]]. rewrite !Hsame.
      assert (b <> j) by (intro; subst b; congruence).
      apply Hhalf; auto; [lia | repeat split; auto].
  - assert (Hpj : forall q, halved_from j q -> q = p).
    { intros q [_ [Hq _]]. congruence. }
    assert (Hpos : forall b q, b < n -> halved_from b q -> (0 <= q)%Z).
    { intros b q Hb [_ [Hq _]].
      assert (In q (nodes g)).
      { apply (pred_closed g Hwf (Z.of_nat b) q).
        destruct (adj_pred g (Z.of_nat b)); inversion Hq; subst. left. reflexivity. }
      apply Hrange in H0. lia. }
    split; [congruence|]. split; [| split].
    + intros a Ha. rewrite Hnew.
      destruct (Nat.eqb_spec a i); destruct (Nat.eqb_spec a j); simpl; auto; lia.
    + intros a b. rewrite !Hnew.
      destruct (Nat.eqb_spec a i); destruct (Nat.eqb_spec a j);
        destruct (Nat.eqb_spec b i); destruct (Nat.eqb_spec b j); simpl; auto.
    + intros a b q Hab Hb Hdone Hq.
      pose proof (Hpos b q Hb Hq) as Hq0.
      destruct Hq as [Hq1 [Hq2 Hq3]]. rewrite !Hnew.
      assert (Hqb : Z.to_nat q < b) by lia.
      destruct (Nat.eqb_spec a i) as [->|Hai].
      * destruct (Nat.eqb_spec b j) as [->|Hbj].
        -- assert (q = p) by (apply Hpj; repeat split; auto). subst q.
           destruct (Nat.eqb_spec (Z.to_nat p) j); [lia|].
           destruct (Nat.eqb_spec i j); [lia|]. simpl. reflexivity.
        -- destruct (Nat.eqb_spec i j); [lia|].
           destruct (Nat.eqb_spec (Z.to_nat q) j); [lia|]. simpl.
           apply Hhalf; auto; [lia | repeat split; auto].
      * destruct (Nat.eqb_spec a j); [lia|]. simpl.
        apply Hhalf; auto; [lia | repeat split; auto].
Qed.

Lemma similarity_row_spec i K :
  i < n -> rows_filled i K ->
  exists K', similarity_row g n i K = Ok K' /\ rows_filled (S i) K'.
Proof.
  intros Hi [Hshape [Hdiag [Hsym Hhalf]]].
  unfold similarity_row, np_set. rewrite Hshape, !(np_index_nat i Hi). cbn [bind].
  set (K1 := {| shape := n;
                cell := fun x y => if ((x =? i) && (y =? i))%bool then half
                                   else cell K x y |}).
  assert (H1 : filled i (i + 1) K1).
  { split; [reflexivity|]. split; [| split]; intros; cbn [K1 cell].
    - destruct (Nat.eqb_spec a i); simpl; auto. apply Hdiag. lia.
    - destruct (Nat.eqb_spec a i); destruct (Nat.eqb_spec b i); simpl; subst; auto.
    - destruct (Nat.eqb_spec a i); [lia|]. simpl. apply Hhalf; auto. lia. }
  destruct (for_each_seq (similarity_cell g i) (filled i) (n - (i + 1)) (i + 1) K1 H1)
    as [K' [Hrun Hend]].
  - intros k s Hk Hs. apply filled_step; auto; lia.
  - exists K'. split; [exact Hrun|].
    replace (i + 1 + (n - (i + 1))) with n in Hend by lia.
    destruct Hend as [Hs' [Hd' [Hsym' Hh']]].
    split; [exact Hs'|]. split; [| split]; auto.
    + intros a Ha. apply Hd'. lia.
    + intros a b p Hab Hb Ha. apply Hh'; auto. lia.
Qed.

Lemma similarity_spec :
  exists K, similarity g = Ok K /\ rows_filled n K.
Proof.
  unfold similarity, py_range. fold n. rewrite Nat.sub_0_r.
  apply (for_each_seq (similarity_row g n) rows_filled n 0 (np_zeros n)).
  - split; [reflexivity|]. split; [| split]; intros; try lia. reflexivity.
  - intros k s Hk Hs. apply similarity_row_spec; auto; lia.
Qed.

End SimilarityProof.

Lemma late_parent_range :
  forall z, In z (nodes late_parent) <-> (0 <= z < Z.of_nat (n_individuals late_parent))%Z.
Proof. intro z. simpl. lia. Qed.

(** C9, as the claim has it, fails: when the first parent of [j] has a larger
    number than [j], the entry [K[i,p]] read for [K[i,j]] is still 0 and is
    set only later. *)
Lemma similarity_counterexample :
  ~ (forall g : DiGraph,
       wf_graph g ->
       (forall z, In z (nodes g) <-> (0 <= z < Z.of_nat (n_individuals g))%Z) ->
       forall K : ndarray Q, similarity g = Ok K ->
       forall i j p, i < j -> j < n_individuals g ->
         hd_error (adj_pred g (Z.of_nat j)) = Some p ->
         (cell K i j == cell K i (Z.to_nat p) / 2)%Q).
Proof.
  intro Hclaim.
  specialize (Hclaim late_parent (wf_graphb_sound late_parent eq_refl)
                late_parent_range).
  destruct (similarity (R := Q) late_parent) as [K| |] eqn:E;
    [| vm_compute in E; discriminate | vm_compute in E; discriminate].
  specialize (Hclaim K eq_refl 1 2 3%Z ltac:(lia) ltac:(unfold n_individuals; simpl; lia)
                eq_refl).
  assert (H12 : cell K 1 2 = (0 # 2)%Q).
  { assert (Hc : match similarity (R := Q) late_parent with
                 | Ok K => cell K 1 2 | _ => 1%Q end = (0 # 2)%Q) by (vm_compute; reflexivity).
    rewrite E in Hc. exact Hc. }
  assert (H13 : cell K 1 3 = (1 # 4)%Q).
  { assert (Hc : match similarity (R := Q) late_parent with
                 | Ok K => cell K 1 3 | _ => 0%Q end = (1 # 4)%Q) by (vm_compute; reflexivity).
    rewrite E in Hc. exact Hc. }
  change (Z.to_nat 3) with 3 in Hclaim. rewrite H12, H13 in Hclaim.
  vm_compute in Hclaim. discriminate.
Qed.

(** C9, amended.  On a graph whose [n] nodes are the integers [0..n-1],
    [similarity()] returns an [n] by [n] matrix [K] with [K[i,i] = 0.5], with
    [K[i,j] = K[j,i]], and with [K[i,j] = K[i,p]/2] for every pair [i < j] such
    that some predecessor of [j] is not node 0 and the first predecessor [p]
    of [j] is smaller than [j]. *)
Theorem similarity_kinship {R : Type} `{Scalar R} (g : DiGraph) :
  wf_graph g ->
  (forall z, In z (nodes g) <-> (0 <= z < Z.of_nat (n_individuals g))%Z) ->
  exists K,
    similarity g = Ok K /\
    shape K = n_individuals g /\
    (forall i, i < n_individuals g -> cell K i i = half) /\
    (forall i j, i < n_individuals g -> j < n_individuals g ->
                 cell K i j = cell K j i) /\
    (forall i j p, i < j -> j < n_individuals g ->
       (exists q, In q (adj_pred g (Z.of_nat j)) /\ q <> 0%Z) ->
       hd_error (adj_pred g (Z.of_nat j)) = Some p ->
       (p < Z.of_nat j)%Z ->
       cell K i j = halve (cell K i (Z.to_nat p))).
Proof.
  intros Hwf Hrange.
  destruct (similarity_spec g Hwf Hrange) as [K [Hrun [Hshape [Hdiag [Hsym Hhalf]]]]].
  exists K. split; [exact Hrun|]. split; [exact Hshape|].
  split; [| split]; auto.
  intros i j p Hij Hj [q [Hq Hq0]] Hp Hpj.
  apply Hhalf; auto; [lia|].
  split; [| split]; auto.
  unfold py_any. cbn [items]. apply existsb_exists. exists q. split; auto.
  unfold truthy. apply negb_true_iff. apply Z.eqb_neq. exact Hq0.
Qed.

(** The lineage 0 -> 1 -> 2 over the rationals. *)
Lemma similarity_kinship_witness :
  wf_graph lineage /\
  (forall z, In z (nodes lineage) <-> (0 <= z < Z.of_nat (n_individuals lineage))%Z) /\
  exists K : ndarray Q,
    similarity lineage = Ok K /\
    shape K = n_individuals lineage /\
    (forall i, i < n_individuals lineage -> cell K i i = half) /\
    (forall i j, i < n_individuals lineage -> j < n_individuals lineage ->
                 cell K i j = cell K j i) /\
    (forall i j p, i < j -> j < n_individuals lineage ->
       (exists q, In q (adj_pred lineage (Z.of_nat j)) /\ q <> 0%Z) ->
       hd_error (adj_pred lineage (Z.of_nat j)) = Some p ->
       (p < Z.of_nat j)%Z ->
       cell K i j = halve (cell K i (Z.to_nat p))).
Proof.
  assert (Hwf : wf_graph lineage) by (apply wf_graphb_sound; reflexivity).
  assert (Hr : forall z, In z (nodes lineage) <->
                         (0 <= z < Z.of_nat (n_individuals lineage))%Z)
    by (intro z; simpl; lia).
  split; [exact Hwf | split; [exact Hr |]].
  exact (similarity_kinship lineage Hwf Hr).
Defined.

(** The test [any(predecessors(j))] fails for a node whose only parent is
    node 0: on the graph 0 -> 1 the entry [K[0,1]] stays 0. *)
Lemma similarity_parent_zero :
  match similarity (R := Q) (graph_of [0; 1]%Z [(0, 1)]%Z) with
  | Ok K => cell K 0 1 = 0%Q /\ cell K 0 0 = (1 # 2)%Q
  | _ => False
  end.
Proof. vm_compute. split; reflexivity. Qed.

(** ** Counters *)

Lemma wf_counter_nil : wf_counter [].
Proof. split; [constructor | intros k v H; discriminate]. Qed.

Lemma wf_counter_tail e c a : wf_counter ((e, c) :: a) -> 0 < c /\ wf_counter a /\ ~ In e (keys a).
Proof.
  intros [Hnd Hpos]. inversion Hnd as [|? ? Hn Hd]; subst. split; [| split]; auto.
  - apply (Hpos e). simpl. rewrite Z.eqb_refl. reflexivity.
  - split; auto. intros k v Hk. apply (Hpos k). simpl.
    destruct (e =? k)%Z eqn:E; auto.
    apply Z.eqb_eq in E. subst. exfalso. apply Hn.
    apply dict_get_In_keys. congruence.
Qed.

Lemma add_left_fold b a : forall r,
  wf_counter a ->
  forall t, dict_get (fold_left (add_left b) a r) t =
            if dict_mem a t then Some (count_of a t + count_of b t) else dict_get r t.
Proof.
  induction a as [|[e c] a IH]; intros r Hwf t.
  - reflexivity.
  - destruct (wf_counter_tail _ _ _ Hwf) as [Hc [Hwf' He]].
    cbn [fold_left]. rewrite IH by assumption.
    unfold add_left. cbn [fst snd].
    destruct (Nat.ltb_spec 0 (c + count_of b e)); [| lia].
    unfold dict_mem, count_of. cbn [dict_get].
    destruct (e =? t)%Z eqn:E.
    + apply Z.eqb_eq in E. subst t.
      destruct (dict_get a e) eqn:Ha.
      * exfalso. apply He. apply dict_get_In_keys. congruence.
      * rewrite dict_get_set, Z.eqb_refl. reflexivity.
    + destruct (dict_get a t); auto. rewrite dict_get_set, E. reflexivity.
Qed.

Lemma dict_mem_cons {V} e (c : V) b t :
  dict_mem ((e, c) :: b) t = ((e =? t)%Z || dict_mem b t)%bool.
Proof. unfold dict_mem. simpl. destruct (e =? t)%Z; reflexivity. Qed.

Lemma count_of_cons e c b t :
  count_of ((e, c) :: b) t = if (e =? t)%Z then c else count_of b t.
Proof. unfold count_of. simpl. destruct (e =? t)%Z; reflexivity. Qed.

Lemma add_right_fold a b : forall r,
  wf_counter b ->
  forall t, dict_get (fold_left (add_right a) b r) t =
            if (dict_mem b t && negb (dict_mem a t))%bool
            then Some (count_of b t) else dict_get r t.
Proof.
  induction b as [|[e c] b IH]; intros r Hwf t.
  - reflexivity.
  - destruct (wf_counter_tail _ _ _ Hwf) as [Hc [Hwf' He]].
    cbn [fold_left]. rewrite IH by assumption.
    rewrite dict_mem_cons, count_of_cons.
    unfold add_right. cbn [fst snd].
    destruct (Nat.ltb_spec 0 c); [| lia]. rewrite andb_true_r.
    destruct (e =? t)%Z eqn:E; cbn [orb].
    + apply Z.eqb_eq in E. subst t.
      assert (Hb : dict_mem b e = false).
      { destruct (dict_mem b e) eqn:Hb; auto. apply dict_mem_In in Hb. contradiction. }
      rewrite Hb. cbn [andb].
      destruct (dict_mem a e); cbn [negb]; auto.
      rewrite dict_get_set, Z.eqb_refl. reflexivity.
    + destruct (dict_mem b t && negb (dict_mem a t))%bool; auto.
      destruct (dict_mem a e); cbn [negb]; auto.
      rewrite dict_get_set, E. reflexivity.
Qed.

Lemma counter_add_get a b t :
  wf_counter a -> wf_counter b ->
  dict_get (counter_add a b) t =
  if dict_mem a t then Some (count_of a t + count_of b t)
  else if dict_mem b t then Some (count_of b t) else None.
Proof.
  intros Ha Hb. unfold counter_add.
  rewrite add_right_fold, add_left_fold by assumption.
  destruct (dict_mem a t), (dict_mem b t); reflexivity.
Qed.

Lemma count_of_mem c t : wf_counter c -> dict_mem c t = true -> 0 < count_of c t.
Proof.
  intros [_ Hpos]. unfold dict_mem, count_of.
  destruct (dict_get c t) eqn:E; [| discriminate]. intros _. eauto.
Qed.

Lemma count_of_not_mem (c : counter) t : dict_mem c t = false -> count_of c t = 0.
Proof. unfold dict_mem, count_of. destruct (dict_get c t); [discriminate | reflexivity]. Qed.

Lemma fold_keys_NoDup (f : counter -> node * nat -> counter) :
  (forall r ec, NoDup (keys r) -> NoDup (keys (f r ec))) ->
  forall l r, NoDup (keys r) -> NoDup (keys (fold_left f l r)).
Proof.
  intros Hf l. induction l as [|x l IH]; intros r Hr; cbn [fold_left]; auto.
Qed.

(** Counters add up key by key. *)
Lemma counter_add_spec a b :
  wf_counter a -> wf_counter b ->
  wf_counter (counter_add a b) /\
  forall t, count_of (counter_add a b) t = count_of a t + count_of b t.
Proof.
  intros Ha Hb. split; [split |].
  - unfold counter_add. apply fold_keys_NoDup.
    + intros r ec Hr. unfold add_right.
      destruct (negb _ && _)%bool; auto. apply keys_dict_set_NoDup. exact Hr.
    + apply fold_keys_NoDup; [| constructor].
      intros r ec Hr. unfold add_left.
      destruct (0 <? _); auto. apply keys_dict_set_NoDup. exact Hr.
  - intros k v. rewrite counter_add_get by assumption.
    destruct (dict_mem a k) eqn:Ea.
    + intro Hv. inversion Hv. pose proof (count_of_mem a k Ha Ea). lia.
    + destruct (dict_mem b k) eqn:Eb; [| discriminate].
      intro Hv. inversion Hv. apply count_of_mem; assumption.
  - intro t. unfold count_of at 1. rewrite counter_add_get by assumption.
    destruct (dict_mem a t) eqn:Ea; auto.
    rewrite (count_of_not_mem a t Ea).
    destruct (dict_mem b t) eqn:Eb; auto.
    rewrite (count_of_not_mem b t Eb). reflexivity.
Qed.

(** A well-formed counter is empty exactly when it counts nothing. *)
Lemma wf_counter_empty c :
  wf_counter c -> (length c = 0 <-> forall t, count_of c t = 0).
Proof.
  intros Hwf. destruct c as [|[e v] c]; simpl.
  - split; auto.
  - split; [discriminate|]. intro Hall. exfalso.
    destruct (wf_counter_tail _ _ _ Hwf) as [Hv _].
    specialize (Hall e). unfold count_of in Hall. simpl in Hall.
    rewrite Z.eqb_refl in Hall. lia.
Qed.

(** ** Sorting by decreasing depth *)

Section SortedDesc.
Variable key : node -> nat.

Definition key_ge (a b : node) : Prop := key b <= key a.

Lemma insert_desc_In x l y : In y (insert_desc key x l) <-> y = x \/ In y l.
Proof.
  induction l as [|z l IH]; simpl.
  - split; intros [?|?]; auto.
  - destruct (key x <? key z); simpl; [rewrite IH |]; intuition.
Qed.

Lemma sorted_desc_In l y : In y (sorted_desc key l) <-> In y l.
Proof.
  induction l as [|x l IH]; simpl; [tauto|].
  rewrite insert_desc_In, IH. intuition.
Qed.

Lemma insert_desc_NoDup x l : ~ In x l -> NoDup l -> NoDup (insert_desc key x l).
Proof.
  induction l as [|z l IH]; simpl; intros Hx Hnd.
  - constructor; auto.
  - destruct (key x <? key z).
    + inversion Hnd; subst. constructor.
      * rewrite insert_desc_In. intuition.
      * apply IH; auto.
    + constructor; auto.
Qed.

Lemma sorted_desc_NoDup l : NoDup l -> NoDup (sorted_desc key l).
Proof.
  induction l as [|x l IH]; simpl; intro Hnd; [constructor|].
  inversion Hnd; subst. apply insert_desc_NoDup; auto.
  rewrite sorted_desc_In. assumption.
Qed.

Lemma insert_desc_sorted x l :
  StronglySorted key_ge l -> StronglySorted key_ge (insert_desc key x l).
Proof.
  induction l as [|z l IH]; simpl; intro Hs.
  - constructor; constructor.
  - inversion Hs as [|? ? Hl Hz]; subst.
    destruct (Nat.ltb_spec (key x) (key z)).
    + constructor; [apply IH; assumption|].
      apply Forall_forall. intros y Hy. apply insert_desc_In in Hy.
      destruct Hy as [-> | Hy]; [unfold key_ge; lia|].
      rewrite Forall_forall in Hz. auto.
    + constructor; [assumption|].
      constructor; [unfold key_ge; lia|].
      rewrite Forall_forall in *. intros y Hy. specialize (Hz y Hy).
      unfold key_ge in *. lia.
Qed.

Lemma sorted_desc_sorted l : StronglySorted key_ge (sorted_desc key l).
Proof.
  induction l as [|x l IH]; simpl; [constructor | apply insert_desc_sorted; exact IH].
Qed.

(** Whatever follows [x] in a sorted list is no deeper than [x]. *)
Lemma sorted_after l1 x l2 :
  StronglySorted key_ge (l1 ++ x :: l2) -> forall y, In y l2 -> key y <= key x.
Proof.
  induction l1 as [|z l1 IH]; simpl; intros Hs y Hy.
  - inversion Hs as [|? ? _ Hx]; subst. rewrite Forall_forall in Hx. apply Hx. exact Hy.
  - inversion Hs; subst. eauto.
Qed.

End SortedDesc.

(** ** The children of a node, as [successors] reports them *)

Lemma visit_level_fresh level : forall l seen found,
  NoDup l -> (forall v, In v l -> dict_mem seen v = false) ->
  visit_level l level seen found =
  (seen ++ map (fun v => (v, level)) l, found ++ l).
Proof.
  induction l as [|v r IH]; intros seen found Hnd Hfresh; simpl.
  - rewrite !app_nil_r. reflexivity.
  - inversion Hnd as [|? ? Hv Hr]; subst.
    rewrite (Hfresh v (or_introl eq_refl)).
    rewrite IH; auto.
    + rewrite <- !app_assoc. reflexivity.
    + intros w Hw. unfold dict_mem. rewrite dict_get_app.
      pose proof (Hfresh w (or_intror Hw)) as Hf. unfold dict_mem in Hf.
      destruct (dict_get seen w); [discriminate|]. simpl.
      destruct (Z.eqb_spec v w); [subst; contradiction | reflexivity].
Qed.

Lemma collect_at_plain G k : forall table acc,
  collect_at G k false table acc =
  Ok (acc ++ map fst (filter (fun e => snd e =? k) table)).
Proof.
  induction table as [|[nn dist] r IH]; intro acc; simpl.
  - rewrite app_nil_r. reflexivity.
  - destruct (dist =? k); simpl; rewrite IH; [rewrite <- app_assoc |]; reflexivity.
Qed.

Lemma single_node_graph g n :
  wf_graph g -> In n (node_ids g) -> length (node_ids g) = 1 ->
  ~ In n (adj_succ g n) -> adj_succ g n = [].
Proof.
  intros Hwf Hn Hlen Hself.
  destruct (adj_succ g n) as [|c r] eqn:E; auto. exfalso.
  assert (Hc : In c (adj_succ g n)) by (rewrite E; left; reflexivity).
  pose proof (proj2 (succ_closed g Hwf _ _ Hc)) as HcV.
  destruct (node_ids g) as [|a [|b l]]; simpl in Hlen; try discriminate.
  destruct Hn as [<-|[]]. destruct HcV as [<-|[]]. apply Hself. left. reflexivity.
Qed.

Lemma level_filter (l : list node) k :
  map fst (filter (fun e : node * nat => snd e =? k) (map (fun v => (v, k)) l)) = l.
Proof.
  induction l as [|v r IH]; simpl; auto.
  rewrite Nat.eqb_refl. simpl. f_equal. exact IH.
Qed.

(** One step away from [n] are its children, each once. *)
Lemma successors_children ord g n :
  wf_graph g -> In n (node_ids g) -> ~ In n (adj_succ g n) ->
  successors ord g n 1 false false = Ok (set_iter ord (adj_succ g n)).
Proof.
  intros Hwf Hn Hself. unfold successors, single_source_shortest_path_length.
  pose proof Hn as Hh. apply has_node_In in Hh. rewrite Hh.
  rewrite set_iter_single, sssp_loop_step.
  cbn [visit_level dict_mem dict_get app length flat_map]. rewrite app_nil_r.
  cbn [bind].
  destruct (Nat.eqb_spec 1 (length (node_ids g))) as [Hone | Hmore].
  - rewrite (single_node_graph g n Hwf Hn (eq_sym Hone) Hself), set_iter_nil.
    reflexivity.
  - destruct (set_iter ord (adj_succ g n)) as [|x l] eqn:E; [reflexivity|].
    rewrite sssp_loop_step, <- E.
    rewrite visit_level_fresh.
    + cbn [sssp_loop].
      assert (Htab : collect_at (G_successors g) 1 false
                       ([(n, 0)] ++ map (fun v => (v, 1)) (set_iter ord (adj_succ g n))) []
                     = Ok (set_iter ord (adj_succ g n))).
      { rewrite collect_at_plain. cbn [app filter snd Nat.eqb map].
        rewrite level_filter. reflexivity. }
      destruct (length _ =? length (node_ids g)); exact Htab.
    + apply set_iter_NoDup.
    + intros v Hv. apply set_iter_In in Hv. unfold dict_mem. simpl.
      destruct (Z.eqb_spec n v); [subst; contradiction | reflexivity].
Qed.

Lemma successors_permutation ord g n :
  wf_graph g -> Permutation (set_iter ord (adj_succ g n)) (adj_succ g n).
Proof.
  intro Hwf. apply NoDup_Permutation.
  - apply set_iter_NoDup.
  - apply adj_succ_NoDup. exact Hwf.
  - intro x. apply set_iter_In.
Qed.

Lemma acyclic_no_loop g n : acyclic g -> ~ In n (adj_succ g n).
Proof.
  intros Hac Hin.
  assert (1 = 0); [| discriminate].
  apply (Hac n). eapply walk_cons; [exact Hin | constructor].
Qed.

(** ** Counting paths *)

Lemma count_paths_stable g t : forall f f' n,
  (forall y m, walk (adj_succ g) n y m -> m < f) -> f <= f' ->
  count_paths g f' n t = count_paths g f n t.
Proof.
  induction f as [|f IH]; intros f' n Hfar Hle.
  - specialize (Hfar n 0 (walk_nil _ n)). lia.
  - destruct f' as [|f']; [lia|]. cbn [count_paths]. f_equal. f_equal.
    apply map_ext_in. intros c Hc. apply IH; [| lia].
    intros y m Hw.
    assert (S m < S f) by (apply (Hfar y); eapply walk_cons; eauto). lia.
Qed.

Lemma count_paths_S g f n t :
  count_paths g (S f) n t =
  (if (n =? t)%Z then 1 else 0) +
  list_sum (map (fun c => count_paths g f c t) (adj_succ g n)).
Proof. reflexivity. Qed.

(** The recurrence that the number of paths satisfies on a DAG. *)
Lemma num_paths_unfold g n t :
  wf_graph g -> acyclic g -> In n (node_ids g) ->
  num_paths g n t =
  (if (n =? t)%Z then 1 else 0) +
  list_sum (map (fun c => num_paths g c t) (adj_succ g n)).
Proof.
  intros Hwf Hac Hn. unfold num_paths.
  pose proof (fun u v m => walk_bound (node_ids g) (adj_succ g) (succ_closed g Hwf)
                             Hac u v m) as Hbound.
  destruct (length (node_ids g)) as [|N] eqn:EN.
  - destruct (node_ids g); [contradiction | discriminate].
  - rewrite count_paths_S. f_equal. f_equal.
    apply map_ext_in. intros c Hc. symmetry. apply count_paths_stable; [| lia].
    intros y m Hw.
    assert (S m < S N) by (apply (Hbound n y); [eapply walk_cons; eauto | exact Hn]).
    lia.
Qed.

Lemma list_sum_perm l1 l2 : Permutation l1 l2 -> list_sum l1 = list_sum l2.
Proof. induction 1; simpl; lia. Qed.

Lemma list_sum_zero {A} (l : list A) : list_sum (map (fun _ => 0) l) = 0.
Proof. induction l; simpl; auto. Qed.

Lemma count_stopping_S g target f n t :
  count_stopping g target (S f) n t =
  if existsb (Z.eqb n) target then (if (n =? t)%Z then 1 else 0)
  else list_sum (map (fun c => count_stopping g target f c t) (adj_succ g n)).
Proof. reflexivity. Qed.

Lemma count_stopping_stable g target t : forall f f' n,
  (forall y m, walk (adj_succ g) n y m -> m < f) -> f <= f' ->
  count_stopping g target f' n t = count_stopping g target f n t.
Proof.
  induction f as [|f IH]; intros f' n Hfar Hle.
  - specialize (Hfar n 0 (walk_nil _ n)). lia.
  - destruct f' as [|f']; [lia|]. rewrite !count_stopping_S.
    destruct (existsb (Z.eqb n) target); [reflexivity|]. f_equal.
    apply map_ext_in. intros c Hc. apply IH; [| lia].
    intros y m Hw.
    assert (S m < S f) by (apply (Hfar y); eapply walk_cons; eauto). lia.
Qed.

Lemma mem_target target t : existsb (Z.eqb t) target = true <-> In t target.
Proof.
  rewrite existsb_exists. split.
  - intros [x [Hx E]]. apply Z.eqb_eq in E. subst. exact Hx.
  - intro Ht. exists t. split; auto. apply Z.eqb_refl.
Qed.

(** The recurrence of the paths that stop at the first target. *)
Lemma stopping_paths_unfold g target n t :
  wf_graph g -> acyclic g -> In n (node_ids g) ->
  stopping_paths g target n t =
  if existsb (Z.eqb n) target then (if (n =? t)%Z then 1 else 0)
  else list_sum (map (fun c => stopping_paths g target c t) (adj_succ g n)).
Proof.
  intros Hwf Hac Hn. unfold stopping_paths.
  pose proof (fun u v m => walk_bound (node_ids g) (adj_succ g) (succ_closed g Hwf)
                             Hac u v m) as Hbound.
  destruct (length (node_ids g)) as [|N] eqn:EN.
  - destruct (node_ids g); [contradiction | discriminate].
  - rewrite count_stopping_S.
    destruct (existsb (Z.eqb n) target); [reflexivity|]. f_equal.
    apply map_ext_in. intros c Hc. symmetry. apply count_stopping_stable; [| lia].
    intros y m Hw.
    assert (S m < S N) by (apply (Hbound n y); [eapply walk_cons; eauto | exact Hn]).
    lia.
Qed.

(** When no target has a child, these are all the paths to the targets. *)
Lemma count_stopping_leaves g target t :
  (forall x, In x target -> adj_succ g x = []) ->
  forall f n,
    count_stopping g target f n t =
    if existsb (Z.eqb t) target then count_paths g f n t else 0.
Proof.
  intros Hleaf. induction f as [|f IH]; intro n.
  - simpl. destruct (existsb (Z.eqb t) target); reflexivity.
  - rewrite count_stopping_S, count_paths_S.
    destruct (existsb (Z.eqb n) target) eqn:En.
    + rewrite (Hleaf n (proj1 (mem_target target n) En)). simpl.
      rewrite Nat.add_0_r.
      destruct (Z.eqb_spec n t) as [Heq | Hne].
      * rewrite <- Heq, En. reflexivity.
      * destruct (existsb (Z.eqb t) target); reflexivity.
    + destruct (existsb (Z.eqb t) target) eqn:Et.
      * destruct (Z.eqb_spec n t); [subst; congruence|]. simpl.
        f_equal. apply map_ext. intro c. apply IH.
      * erewrite map_ext; [apply list_sum_zero|].
        intro c. simpl. apply IH.
Qed.

Section PathProof.
Variable ord : SetOrder.
Variable g : DiGraph.
Variable target : list node.
Hypothesis Hwf : wf_graph g.
Hypothesis Hac : acyclic g.

(** What the entry of [n] is to hold for the key [t]. *)
Definition expected (n t : node) : nat := stopping_paths g target n t.

Definition entry_ok (n : node) (c : counter) : Prop :=
  wf_counter c /\ forall t, count_of c t = expected n t.

Lemma expected_children n t :
  In n (node_ids g) -> existsb (Z.eqb n) target = false ->
  list_sum (map (fun s => expected s t) (adj_succ g n)) = expected n t.
Proof.
  intros Hn Hnt. unfold expected.
  rewrite (stopping_paths_unfold g target n t Hwf Hac Hn), Hnt. reflexivity.
Qed.

Lemma expected_target n t :
  In n (node_ids g) -> existsb (Z.eqb n) target = true ->
  expected n t = if (n =? t)%Z then 1 else 0.
Proof.
  intros Hn Hnt. unfold expected.
  rewrite (stopping_paths_unfold g target n t Hwf Hac Hn), Hnt. reflexivity.
Qed.

Lemma sum_counters_spec pts : forall l acc,
  wf_counter acc ->
  (forall s, In s l -> exists c, dict_get pts s = Some c /\ entry_ok s c) ->
  exists c, sum_counters pts l acc = Ok c /\ wf_counter c /\
            forall t, count_of c t =
                      count_of acc t + list_sum (map (fun s => expected s t) l).
Proof.
  induction l as [|s l IH]; intros acc Hacc Hl; simpl.
  - exists acc. split; [reflexivity | split; [assumption | intro t; lia]].
  - destruct (Hl s (or_introl eq_refl)) as [c [Hget [Hc Hcount]]].
    rewrite Hget.
    destruct (counter_add_spec acc c Hacc Hc) as [Hwf' Hadd].
    destruct (IH (counter_add acc c) Hwf') as [c' [Hrun [Hwfc' Hc']]].
    + intros s' Hs'. apply Hl. right. exact Hs'.
    + exists c'. split; [exact Hrun | split; [exact Hwfc' |]].
      intro t. rewrite Hc', Hadd, Hcount. lia.
Qed.

(** The table of depths: it grows along every edge, and its keys are the
    end points of the edges. *)
Variable d : list (node * nat).
Hypothesis Hdepth : forall u c, In c (adj_succ g u) -> depth_of d u < depth_of d c.
Hypothesis Hkeys_nd : NoDup (keys d).
Hypothesis Hkeys :
  forall x, In x (keys d) <-> exists u c, In c (adj_succ g u) /\ (x = u \/ x = c).

Let order := sorted_desc (depth_of d) (keys d).

Lemma key_is_node x : In x (keys d) -> In x (node_ids g).
Proof.
  intro Hx. apply Hkeys in Hx. destruct Hx as [u [c [Hc Hx]]].
  apply (succ_closed g Hwf) in Hc. destruct Hx; subst; tauto.
Qed.

Lemma paths_entry_spec done n rest pts :
  order = done ++ n :: rest -> keys pts = done ->
  (forall m, In m done -> exists c, dict_get pts m = Some c /\ entry_ok m c) ->
  exists pts', paths_entry ord g target n pts = Ok pts' /\
               keys pts' = done ++ [n] /\
               forall m, In m (done ++ [n]) ->
                         exists c, dict_get pts' m = Some c /\ entry_ok m c.
Proof.
  intros Horder Hdone Hpts.
  assert (Hnd : NoDup (done ++ n :: rest)).
  { rewrite <- Horder. apply sorted_desc_NoDup. exact Hkeys_nd. }
  assert (Hn_done : ~ In n done).
  { apply NoDup_remove_2 in Hnd. intro H. apply Hnd. apply in_app_iff. auto. }
  assert (Hn_key : In n (keys d)).
  { apply (sorted_desc_In (depth_of d)). fold order. rewrite Horder.
    apply in_app_iff. right. left. reflexivity. }
  pose proof (key_is_node n Hn_key) as HnV.
  assert (Hfin : forall c, entry_ok n c ->
            keys (dict_set pts n c) = done ++ [n] /\
            forall m, In m (done ++ [n]) ->
                      exists c', dict_get (dict_set pts n c) m = Some c' /\ entry_ok m c').
  { intros c Hc. split.
    - rewrite keys_dict_set_new; rewrite Hdone; auto.
    - intros m Hm. rewrite dict_get_set. apply in_app_iff in Hm.
      destruct (Z.eqb_spec n m) as [<-|Hne].
      + exists c. auto.
      + destruct Hm as [Hm | [Hm | []]]; [apply Hpts; exact Hm | contradiction]. }
  unfold paths_entry.
  rewrite (successors_children ord g n Hwf HnV (acyclic_no_loop g n Hac)).
  cbn [bind].
  pose proof (successors_permutation ord g n Hwf) as Hperm.
  destruct (existsb (Z.eqb n) target) eqn:Et.
  - (* a target *)
    eexists. split; [reflexivity|]. apply Hfin.
    split.
    + split; [constructor; [simpl; tauto | constructor]|].
      intros k v. simpl. destruct (n =? k)%Z; [| discriminate].
      intro Hv. inversion Hv. lia.
    + intro t. rewrite (expected_target n t HnV Et).
      unfold count_of. simpl. destruct (n =? t)%Z; reflexivity.
  - destruct (length (set_iter ord (adj_succ g n)) =? 0) eqn:El.
    + (* a leaf that is no target *)
      eexists. split; [reflexivity|]. apply Hfin.
      split; [apply wf_counter_nil|].
      intro t. apply Nat.eqb_eq in El. apply length_zero_iff_nil in El.
      rewrite El in Hperm. apply Permutation_nil in Hperm.
      rewrite <- (expected_children n t HnV Et), Hperm. reflexivity.
    + (* an inner node *)
      destruct (sum_counters_spec pts (set_iter ord (adj_succ g n)) []
                  wf_counter_nil) as [c [Hrun [Hwfc Hc]]].
      * intros s Hs. apply Hpts.
        apply set_iter_In in Hs.
        pose proof (Hdepth n s Hs) as Hlt.
        assert (Hs_order : In s (done ++ n :: rest)).
        { rewrite <- Horder. apply sorted_desc_In. apply Hkeys.
          exists n, s. auto. }
        apply in_app_iff in Hs_order.
        destruct Hs_order as [Hs_done | [Heq | Hs_rest]]; auto.
        -- subst s. lia.
        -- pose proof (sorted_desc_sorted (depth_of d) (keys d)) as Hsorted.
           fold order in Hsorted. rewrite Horder in Hsorted.
           pose proof (sorted_after (depth_of d) done n rest Hsorted s Hs_rest).
           lia.
      * rewrite Hrun. cbn [bind]. eexists. split; [reflexivity|]. apply Hfin.
        split; [exact Hwfc|].
        intro t. rewrite Hc. unfold count_of at 1. simpl.
        rewrite (list_sum_perm _ _ (Permutation_map (fun s => expected s t) Hperm)).
        apply expected_children; assumption.
Qed.

Lemma paths_loop_spec : forall rest done pts,
  order = done ++ rest -> keys pts = done ->
  (forall m, In m done -> exists c, dict_get pts m = Some c /\ entry_ok m c) ->
  exists pts', paths_loop ord g target rest pts = Ok pts' /\
               keys pts' = order /\
               forall m, In m order -> exists c, dict_get pts' m = Some c /\ entry_ok m c.
Proof.
  induction rest as [|n rest IH]; intros done pts Horder Hdone Hpts.
  - rewrite app_nil_r in Horder. exists pts. rewrite Horder. auto.
  - destruct (paths_entry_spec done n rest pts Horder Hdone Hpts)
      as [pts1 [Hrun [Hk1 Hp1]]].
    cbn [paths_loop]. rewrite Hrun. cbn [bind].
    apply (IH (done ++ [n]) pts1); auto.
    rewrite <- app_assoc. exact Horder.
Qed.

End PathProof.


(** ** The table of path counts *)

Lemma keys_filter_In {V} (f : node * V -> bool) (d : list (node * V)) x :
  In x (keys (filter f d)) -> In x (keys d).
Proof.
  unfold keys. rewrite !in_map_iff. intros [kv [Hk Hin]].
  apply filter_In in Hin. exists kv. tauto.
Qed.

Lemma keys_filter_NoDup {V} (f : node * V -> bool) (d : list (node * V)) :
  NoDup (keys d) -> NoDup (keys (filter f d)).
Proof.
  induction d as [|[k v] d IH]; simpl; intro Hnd; [constructor|].
  inversion Hnd as [|? ? Hn Hd]; subst.
  destruct (f (k, v)); simpl; auto.
  constructor; auto. intro Hin. apply Hn. eapply keys_filter_In. exact Hin.
Qed.

Lemma dict_get_filter {V} (P : V -> bool) (d : list (node * V)) k :
  NoDup (keys d) ->
  dict_get (filter (fun kv => P (snd kv)) d) k =
  match dict_get d k with
  | Some c => if P c then Some c else None
  | None => None
  end.
Proof.
  induction d as [|[k' v] d IH]; simpl; intro Hnd; [reflexivity|].
  inversion Hnd as [|? ? Hn Hd]; subst.
  destruct (k' =? k)%Z eqn:E.
  - apply Z.eqb_eq in E. subst k'.
    destruct (P v) eqn:EP; simpl.
    + rewrite Z.eqb_refl. reflexivity.
    + rewrite IH by assumption.
      destruct (dict_get d k) eqn:Eg; auto.
      exfalso. apply Hn. apply dict_get_In_keys. congruence.
  - destruct (P v); simpl; [rewrite E |]; apply IH; assumption.
Qed.

Lemma nonempty_counter c :
  wf_counter c -> ((0 <? length c) = true <-> exists t, 0 < count_of c t).
Proof.
  intro Hwf. destruct c as [|[e v] c]; simpl.
  - split; [discriminate | intros [t Ht]; unfold count_of in Ht; simpl in Ht; lia].
  - split; auto. intros _. exists e.
    destruct (wf_counter_tail _ _ _ Hwf) as [Hv _].
    rewrite count_of_cons, Z.eqb_refl. exact Hv.
Qed.

(** On a DAG [get_num_paths_to_target] returns a table whose keys are the
    nodes with an edge from which some target can be reached, each with the
    number of its paths to every target that stop at the first target met. *)
Lemma stopping_paths_table ord g target :
  wf_graph g -> acyclic g ->
  exists pts,
    (forall fuel, length (nodes g) <= fuel ->
                  get_num_paths_to_target ord fuel g target true = Ok pts) /\
    NoDup (keys pts) /\
    (forall n, In n (keys pts) <->
               has_edge g n /\
               exists t, 0 < stopping_paths g (targets_of g target) n t) /\
    (forall n c, dict_get pts n = Some c ->
       wf_counter c /\
       forall t, count_of c t = stopping_paths g (targets_of g target) n t).
Proof.
  intros Hwf Hac.
  destruct (infer_depth_forward ord g Hwf Hac) as [d [Hrun [Hd [Hnd Hkeys]]]].
  assert (Hdepth : forall u c, In c (adj_succ g u) -> depth_of d u < depth_of d c).
  { intros u c Hc. destruct (succ_closed g Hwf u c Hc) as [Hu HcV].
    destruct (Hd u Hu) as [[r [_ Hw]] _]. destruct (Hd c HcV) as [_ Hup].
    specialize (Hup r (S (depth_of d u)) (walk_snoc _ _ _ _ _ Hw Hc)). lia. }
  destruct (paths_loop_spec ord g (targets_of g target) Hwf Hac d Hdepth Hnd Hkeys
              (sorted_desc (depth_of d) (keys d)) [] [] eq_refl eq_refl)
    as [pts [Hloop [Hpk Hpe]]].
  { intros m []. }
  assert (Hpnd : NoDup (keys pts)).
  { rewrite Hpk. apply sorted_desc_NoDup. exact Hnd. }
  exists (filter (fun kv : node * counter => 0 <? length (snd kv)) pts).
  split; [| split; [| split]].
  - intros fuel Hfuel. unfold get_num_paths_to_target.
    rewrite (Hrun fuel Hfuel). cbn [bind].
    fold (targets_of g target). rewrite Hloop. reflexivity.
  - apply keys_filter_NoDup. exact Hpnd.
  - intro n. rewrite dict_get_In_keys.
    pose proof (@dict_get_filter counter (fun c : counter => 0 <? length c) pts n Hpnd) as Hf.
    cbv beta in Hf. rewrite Hf. clear Hf.
    split.
    + intro Hne. destruct (dict_get pts n) as [c|] eqn:Eg; [| congruence].
      assert (Hn : In n (sorted_desc (depth_of d) (keys d))).
      { rewrite <- Hpk. apply dict_get_In_keys. congruence. }
      destruct (Hpe n Hn) as [c' [Hc' [Hwfc Hcount]]].
      rewrite Eg in Hc'. inversion Hc'; subst c'.
      destruct (0 <? length c) eqn:El; [| congruence].
      apply (nonempty_counter c Hwfc) in El. destruct El as [t Ht].
      split.
      * apply sorted_desc_In in Hn. apply Hkeys in Hn.
        destruct Hn as [u [c0 [Hc0 Hx]]]. exists u, c0. split; auto.
        apply in_adj_succ. exact Hc0.
      * exists t. rewrite Hcount in Ht. exact Ht.
    + intros [[u [c0 [Hc0 Hx]]] [t Hpos]].
      assert (Hn : In n (sorted_desc (depth_of d) (keys d))).
      { apply sorted_desc_In. apply Hkeys. exists u, c0. split; auto.
        apply in_adj_succ. exact Hc0. }
      destruct (Hpe n Hn) as [c [Hc [Hwfc Hcount]]]. rewrite Hc.
      assert (El : (0 <? length c) = true).
      { apply (nonempty_counter c Hwfc). exists t. rewrite Hcount. exact Hpos. }
      rewrite El. congruence.
  - intros n c Hget.
    pose proof (@dict_get_filter counter (fun c : counter => 0 <? length c) pts n Hpnd) as Hf.
    cbv beta in Hf. rewrite Hf in Hget. clear Hf.
    destruct (dict_get pts n) as [c'|] eqn:Eg; [| discriminate].
    destruct (0 <? length c'); inversion Hget; subst c'.
    assert (Hn : In n (sorted_desc (depth_of d) (keys d))).
    { rewrite <- Hpk. apply dict_get_In_keys. congruence. }
    destruct (Hpe n Hn) as [c' [Hc' Hok]].
    rewrite Eg in Hc'. inversion Hc'; subst c'. exact Hok.
Qed.

(** When no target has a child, the counts are the numbers of all paths to
    the targets. *)
Lemma stopping_paths_leaves g target n t :
  (forall x, In x target -> adj_succ g x = []) ->
  stopping_paths g target n t =
  if existsb (Z.eqb t) target then num_paths g n t else 0.
Proof. intro Hleaf. apply count_stopping_leaves. exact Hleaf. Qed.

(** Without [include_target] the targets are deleted from the table that the
    default returns. *)
Lemma exclude_target ord fuel g target :
  get_num_paths_to_target ord fuel g target false =
  (pts <- get_num_paths_to_target ord fuel g target true ;;
   delete_all pts (targets_of g target)).
Proof.
  unfold get_num_paths_to_target. fold (targets_of g target).
  destruct (infer_depth ord fuel g true); cbn [bind]; try reflexivity.
  destruct (paths_loop ord g (targets_of g target) _ []); reflexivity.
Qed.

Lemma dict_del_present {V} (d : list (node * V)) k :
  NoDup (keys d) -> In k (keys d) ->
  exists d', dict_del d k = Ok d' /\ NoDup (keys d') /\
             (forall x, In x (keys d') <-> In x (keys d) /\ x <> k) /\
             (forall x, x <> k -> dict_get d' x = dict_get d x).
Proof.
  induction d as [|[k' v] d IH]; simpl; intros Hnd Hin; [contradiction|].
  inversion Hnd as [|? ? Hn Hd]; subst.
  destruct (Z.eqb_spec k' k) as [->|Hne].
  - exists d. split; [reflexivity | split; [assumption | split]].
    + intro x. split; [intro Hx; split; [auto | intro; subst; contradiction]|].
      intros [[?|?] ?]; [congruence | assumption].
    + intros x Hx. destruct (Z.eqb_spec k x); [congruence | reflexivity].
  - destruct Hin as [?|Hin]; [contradiction|].
    destruct (IH Hd Hin) as [d' [Hdel [Hnd' [Hk' Hg']]]].
    rewrite Hdel. cbn [bind]. exists ((k', v) :: d').
    split; [reflexivity | split; [| split]].
    + simpl. constructor; auto. intro H. apply Hk' in H. tauto.
    + intro x. simpl. rewrite Hk'. split.
      * intros [<-|[? ?]]; auto.
      * intros [[?|?] ?]; auto.
    + intros x Hx. simpl. destruct (k' =? x)%Z; auto.
Qed.

Lemma dict_del_missing {V} (d : list (node * V)) k :
  ~ In k (keys d) -> dict_del d k = Raise KeyError.
Proof.
  induction d as [|[k' v] d IH]; simpl; intro Hn; [reflexivity|].
  destruct (Z.eqb_spec k' k); [tauto|].
  rewrite IH by tauto. reflexivity.
Qed.

(** A counter that counts [v] at [k] and nothing elsewhere. *)
Lemma singleton_counter c k v :
  wf_counter c -> 0 < v ->
  (forall t, count_of c t = if (t =? k)%Z then v else 0) ->
  c = [(k, v)].
Proof.
  intros Hwf Hv Hcount.
  destruct c as [|[e x] c].
  - specialize (Hcount k). rewrite Z.eqb_refl in Hcount.
    unfold count_of in Hcount. simpl in Hcount. lia.
  - destruct (wf_counter_tail _ _ _ Hwf) as [Hx [Hwf' He]].
    pose proof (Hcount e) as H1. rewrite count_of_cons, Z.eqb_refl in H1.
    destruct (Z.eqb_spec e k) as [->|]; [| lia]. subst x.
    destruct c as [|[e' x'] c]; [reflexivity|]. exfalso.
    destruct (wf_counter_tail _ _ _ Hwf') as [Hx' _].
    pose proof (Hcount e') as H2. rewrite !count_of_cons, Z.eqb_refl in H2.
    destruct (Z.eqb_spec k e') as [->|].
    + apply He. left. reflexivity.
    + destruct (Z.eqb_spec e' k); [congruence | lia].
Qed.

(** Depths can be read off a ranking that some walk to each node attains. *)
Lemma depth_by_rank g (rank : node -> nat) d v :
  ranked rank g = true ->
  (exists r, walk (adj_succ g) r v (depth_of d v)) ->
  (forall u n, walk (adj_succ g) u v n -> n <= depth_of d v) ->
  (exists r, walk (adj_succ g) r v (rank v)) ->
  depth_of d v = rank v.
Proof.
  intros Hrank [r Hr] Hup [r' Hr'].
  assert (Hw : forall a b n, walk (adj_succ g) a b n -> rank a + n <= rank b).
  { induction 1 as [u | u y w n Hy Hw IH]; [lia|].
    apply in_adj_succ in Hy. unfold ranked in Hrank. rewrite forallb_forall in Hrank.
    apply Hrank in Hy. simpl in Hy. apply Nat.ltb_lt in Hy. lia. }
  apply Hw in Hr. apply Hup in Hr'. lia.
Qed.

(** ** The diamond *)

Section Diamond.
Variable g : DiGraph.
Variables F A B C : node.
Hypothesis Hdia : is_diamond g F A B C.

Lemma diamond_distinct : F <> A /\ F <> B /\ F <> C /\ A <> B /\ A <> C /\ B <> C.
Proof.
  destruct Hdia as [_ [Hnd _]].
  repeat match goal with
         | H : NoDup (_ :: _) |- _ => apply NoDup_cons_iff in H; destruct H
         end.
  simpl in *. intuition congruence.
Qed.

Lemma diamond_adj u v :
  In v (adj_succ g u) <-> In (u, v) [(F, A); (F, B); (A, C); (B, C)].
Proof. rewrite in_adj_succ. apply Hdia. Qed.

Lemma diamond_children_F : Permutation (adj_succ g F) [A; B].
Proof.
  destruct diamond_distinct as [? [? [? [? [? ?]]]]].
  apply NoDup_Permutation.
  - apply adj_succ_NoDup. apply Hdia.
  - constructor; [simpl; intuition congruence | constructor; [simpl; tauto | constructor]].
  - intro x. rewrite diamond_adj. simpl. intuition congruence.
Qed.

Lemma diamond_children_A : adj_succ g A = [C].
Proof.
  destruct diamond_distinct as [? [? [? [? [? ?]]]]].
  apply singleton_list; [apply adj_succ_NoDup; apply Hdia|].
  intro x. rewrite diamond_adj. simpl. intuition congruence.
Qed.

Lemma diamond_children_B : adj_succ g B = [C].
Proof.
  destruct diamond_distinct as [? [? [? [? [? ?]]]]].
  apply singleton_list; [apply adj_succ_NoDup; apply Hdia|].
  intro x. rewrite diamond_adj. simpl. intuition congruence.
Qed.

Lemma diamond_children_C : adj_succ g C = [].
Proof.
  destruct diamond_distinct as [? [? [? [? [? ?]]]]].
  apply empty_list. intro x. rewrite diamond_adj. simpl. intuition congruence.
Qed.

(** The generation of each node of the diamond. *)
Definition diamond_rank (z : node) : nat :=
  if (z =? C)%Z then 2 else if ((z =? A) || (z =? B))%Z%bool then 1 else 0.

Lemma diamond_rank_values :
  diamond_rank F = 0 /\ diamond_rank A = 1 /\ diamond_rank B = 1 /\ diamond_rank C = 2.
Proof.
  destruct diamond_distinct as [? [? [? [? [? ?]]]]].
  unfold diamond_rank. repeat split; eqb_cases; reflexivity.
Qed.

Lemma diamond_ranked : ranked diamond_rank g = true.
Proof.
  destruct diamond_rank_values as [HF [HA [HB HC]]].
  unfold ranked. apply forallb_forall. intros e He. apply Hdia in He.
  destruct He as [<-|[<-|[<-|[<-|[]]]]]; cbn [fst snd];
    rewrite ?HF, ?HA, ?HB, ?HC; reflexivity.
Qed.

Lemma diamond_is_acyclic : acyclic g.
Proof. apply (ranked_acyclic diamond_rank). exact diamond_ranked. Qed.

Lemma diamond_size : length (nodes g) = 4.
Proof.
  destruct Hdia as [[Hnd _] [Hnd' [Hn _]]].
  apply (Permutation_length (NoDup_Permutation Hnd Hnd' Hn)).
Qed.

Lemma diamond_walks v :
  In v (nodes g) -> exists r, walk (adj_succ g) r v (diamond_rank v).
Proof.
  destruct diamond_rank_values as [HF [HA [HB HC]]].
  intro Hv. apply Hdia in Hv. exists F.
  destruct Hv as [<-|[<-|[<-|[<-|[]]]]]; rewrite ?HF, ?HA, ?HB, ?HC.
  - constructor.
  - apply walk_cons with (y := A); [apply diamond_adj; simpl; auto | constructor].
  - apply walk_cons with (y := B); [apply diamond_adj; simpl; auto | constructor].
  - apply walk_cons with (y := A); [apply diamond_adj; simpl; auto|].
    apply walk_cons with (y := C); [apply diamond_adj; simpl; auto | constructor].
Qed.

Lemma diamond_has_edge n : has_edge g n <-> In n [F; A; B; C].
Proof.
  split.
  - intros [u [c [Hin Hx]]]. apply Hdia in Hin.
    destruct Hin as [H|[H|[H|[H|[]]]]]; inversion H; subst;
      destruct Hx; subst; simpl; tauto.
  - intro Hn.
    assert (HFA : In (F, A) (edge_list g)) by (apply Hdia; simpl; auto).
    assert (HBC : In (B, C) (edge_list g)) by (apply Hdia; simpl; auto).
    destruct Hn as [<-|[<-|[<-|[<-|[]]]]].
    + exists F, A. auto.
    + exists F, A. auto.
    + exists B, C. auto.
    + exists B, C. auto.
Qed.

Lemma diamond_num_paths :
  num_paths g F C = 2 /\ num_paths g A C = 1 /\
  num_paths g B C = 1 /\ num_paths g C C = 1.
Proof.
  destruct diamond_distinct as [? [? [? [? [? ?]]]]].
  pose proof (proj1 Hdia) as Hwf. pose proof diamond_is_acyclic as Hac.
  assert (HC : num_paths g C C = 1).
  { rewrite num_paths_unfold by (auto; apply Hdia; simpl; auto).
    rewrite diamond_children_C, Z.eqb_refl. reflexivity. }
  assert (HA : num_paths g A C = 1).
  { rewrite num_paths_unfold by (auto; apply Hdia; simpl; auto).
    rewrite diamond_children_A. cbn [map list_sum]. rewrite HC.
    eqb_cases. reflexivity. }
  assert (HB : num_paths g B C = 1).
  { rewrite num_paths_unfold by (auto; apply Hdia; simpl; auto).
    rewrite diamond_children_B. cbn [map list_sum]. rewrite HC.
    eqb_cases. reflexivity. }
  split; [| auto].
  rewrite num_paths_unfold by (auto; apply Hdia; simpl; auto).
  rewrite (list_sum_perm _ _ (Permutation_map (fun c => num_paths g c C)
                                diamond_children_F)).
  cbn [map list_sum]. rewrite HA, HB. eqb_cases. reflexivity.
Qed.

Lemma diamond_counts n t :
  stopping_paths g [C] n t = if (t =? C)%Z then num_paths g n C else 0.
Proof.
  rewrite (stopping_paths_leaves g [C] n t).
  - simpl. rewrite orb_false_r.
    destruct (Z.eqb_spec t C); [subst; reflexivity | reflexivity].
  - intros x [<-|[]]. exact diamond_children_C.
Qed.

(** The entry of [n] in [pts] is the counter with the one key [C], at [v]. *)
Lemma diamond_entry pts n v :
  (forall n c, dict_get pts n = Some c ->
     wf_counter c /\
     forall t, count_of c t = stopping_paths g [C] n t) ->
  In n (keys pts) -> num_paths g n C = v -> 0 < v ->
  dict_get pts n = Some [(C, v)].
Proof.
  intros Hpts Hn Hv Hpos.
  apply dict_get_In_keys in Hn.
  destruct (dict_get pts n) as [c|] eqn:E; [| congruence].
  destruct (Hpts n c E) as [Hwf Hcount].
  f_equal. apply singleton_counter; auto.
  intro t. rewrite Hcount, diamond_counts, Hv. reflexivity.
Qed.

End Diamond.

(** C5, as the claim has it, fails: with [include_target] left at its
    default the target itself is an entry of the result. *)
Lemma diamond_paths_counterexample :
  ~ (forall ord : SetOrder,
       exists pts,
         get_num_paths_to_target ord 4 diamond (Some [4%Z]) true = Ok pts /\
         forall n, In n (keys pts) <-> In n [1; 2; 3]%Z).
Proof.
  intro H. destruct (H insertion_order) as [pts [Hrun Hkeys]].
  vm_compute in Hrun. inversion Hrun; subst pts.
  assert (Hin : In 4%Z [1; 2; 3]%Z) by (apply Hkeys; simpl; auto).
  simpl in Hin. intuition discriminate.
Qed.

(** C5, amended.  On the diamond (founder F, its children A and B, and C the
    child of both), however it was built and whatever the order of sets,
    [infer_depth(forward=True)] returns the depths F: 0, A: 1, B: 1, C: 2,
    and [get_num_paths_to_target(target=[C])] returns the entries
    F: {C: 2}, A: {C: 1}, B: {C: 1} and, with [include_target] left at its
    default, the target's own entry C: {C: 1}; with [include_target=False]
    the entries are those of F, A and B alone. *)
Theorem diamond_depth_and_paths (ord : SetOrder) (g : DiGraph) (F A B C : node) :
  is_diamond g F A B C ->
  (exists depth,
     (forall fuel, 4 <= fuel -> infer_depth ord fuel g true = Ok depth) /\
     depth_of depth F = 0 /\ depth_of depth A = 1 /\
     depth_of depth B = 1 /\ depth_of depth C = 2 /\
     NoDup (keys depth) /\
     (forall n, In n (keys depth) <-> In n [F; A; B; C])) /\
  (exists pts,
     (forall fuel, 4 <= fuel ->
        get_num_paths_to_target ord fuel g (Some [C]) true = Ok pts) /\
     NoDup (keys pts) /\
     (forall n, In n (keys pts) <-> In n [F; A; B; C]) /\
     dict_get pts F = Some [(C, 2)] /\
     dict_get pts A = Some [(C, 1)] /\
     dict_get pts B = Some [(C, 1)] /\
     dict_get pts C = Some [(C, 1)]) /\
  (exists pts,
     (forall fuel, 4 <= fuel ->
        get_num_paths_to_target ord fuel g (Some [C]) false = Ok pts) /\
     NoDup (keys pts) /\
     (forall n, In n (keys pts) <-> In n [F; A; B]) /\
     dict_get pts F = Some [(C, 2)] /\
     dict_get pts A = Some [(C, 1)] /\
     dict_get pts B = Some [(C, 1)]).
Proof.
  intro Hdia.
  pose proof (proj1 Hdia) as Hwf.
  pose proof (diamond_is_acyclic g F A B C Hdia) as Hac.
  pose proof (diamond_size g F A B C Hdia) as Hsize.
  destruct (diamond_distinct g F A B C Hdia) as [HFA [HFB [HFC [HAB [HAC HBC]]]]].
  destruct (diamond_rank_values g F A B C Hdia) as [RF [RA [RB RC]]].
  destruct (diamond_num_paths g F A B C Hdia) as [NF [NA [NB NC]]].
  assert (Hdepth : exists depth,
     (forall fuel, 4 <= fuel -> infer_depth ord fuel g true = Ok depth) /\
     depth_of depth F = 0 /\ depth_of depth A = 1 /\
     depth_of depth B = 1 /\ depth_of depth C = 2 /\
     NoDup (keys depth) /\
     (forall n, In n (keys depth) <-> In n [F; A; B; C])).
  { destruct (infer_depth_forward ord g Hwf Hac) as [d [Hrun [Hd [Hnd Hkeys]]]].
    assert (Hval : forall v, In v [F; A; B; C] -> depth_of d v = diamond_rank A B C v).
    { intros v Hv. apply Hdia in Hv. destruct (Hd v Hv) as [[r [_ Hw]] Hup].
      apply (depth_by_rank g (diamond_rank A B C) d v); auto.
      - apply (diamond_ranked g F A B C Hdia).
      - exists r. exact Hw.
      - apply (diamond_walks g F A B C Hdia). exact Hv. }
    exists d. rewrite Hsize in Hrun. split; [exact Hrun|].
    split; [rewrite (Hval F) by (simpl; tauto); exact RF|].
    split; [rewrite (Hval A) by (simpl; tauto); exact RA|].
    split; [rewrite (Hval B) by (simpl; tauto); exact RB|].
    split; [rewrite (Hval C) by (simpl; tauto); exact RC|].
    split; [exact Hnd|].
    intro n. rewrite Hkeys, <- (diamond_has_edge g F A B C Hdia). unfold has_edge.
    split; intros [u [c [Hc Hx]]]; exists u, c; split; auto; apply in_adj_succ; exact Hc. }
  assert (Hpaths : exists pts,
     (forall fuel, 4 <= fuel ->
        get_num_paths_to_target ord fuel g (Some [C]) true = Ok pts) /\
     NoDup (keys pts) /\
     (forall n, In n (keys pts) <-> In n [F; A; B; C]) /\
     dict_get pts F = Some [(C, 2)] /\
     dict_get pts A = Some [(C, 1)] /\
     dict_get pts B = Some [(C, 1)] /\
     dict_get pts C = Some [(C, 1)]).
  { destruct (stopping_paths_table ord g (Some [C]) Hwf Hac)
      as [pts [Hrun [Hnd [Hkeys Hpts]]]].
    cbn [targets_of] in Hkeys, Hpts.
    assert (Hk : forall n, In n (keys pts) <-> In n [F; A; B; C]).
    { intro n. rewrite Hkeys, (diamond_has_edge g F A B C Hdia). split; [tauto|].
      intro Hn. split; [exact Hn|]. exists C.
      rewrite (diamond_counts g F A B C Hdia), Z.eqb_refl.
      destruct Hn as [<-|[<-|[<-|[<-|[]]]]]; lia. }
    exists pts. rewrite Hsize in Hrun.
    split; [exact Hrun | split; [exact Hnd | split; [exact Hk |]]].
    repeat split; apply (diamond_entry g F A B C Hdia pts); auto;
      try (apply Hk; simpl; tauto); lia. }
  split; [exact Hdepth | split; [exact Hpaths |]].
  destruct Hpaths as [pts [Hrun [Hnd [Hk [H1 [H2 [H3 H4]]]]]]].
  destruct (dict_del_present pts C Hnd) as [pts' [Hdel [Hnd' [Hk' Hg']]]].
  { apply Hk. simpl. tauto. }
  exists pts'. split; [| split; [exact Hnd' | split]].
  - intros fuel Hfuel. rewrite exclude_target, (Hrun fuel Hfuel).
    cbn [bind targets_of delete_all]. rewrite Hdel. reflexivity.
  - intro n. rewrite Hk', Hk. simpl. intuition congruence.
  - rewrite !Hg' by congruence. auto.
Qed.

(** The diamond that has node 0 for its founder. *)
Lemma diamond_depth_and_paths_witness :
  is_diamond (graph_of [0; 1; 2; 3]%Z [(0, 1); (0, 2); (1, 3); (2, 3)]%Z)
             0%Z 1%Z 2%Z 3%Z /\
  exists pts,
    (forall fuel, 4 <= fuel ->
       get_num_paths_to_target insertion_order fuel
         (graph_of [0; 1; 2; 3]%Z [(0, 1); (0, 2); (1, 3); (2, 3)]%Z)
         (Some [3%Z]) true = Ok pts) /\
    NoDup (keys pts) /\
    (forall n, In n (keys pts) <-> In n [0; 1; 2; 3]%Z) /\
    dict_get pts 0%Z = Some [(3%Z, 2)] /\
    dict_get pts 1%Z = Some [(3%Z, 1)] /\
    dict_get pts 2%Z = Some [(3%Z, 1)] /\
    dict_get pts 3%Z = Some [(3%Z, 1)].
Proof.
  assert (H : is_diamond
                (graph_of [0; 1; 2; 3]%Z [(0, 1); (0, 2); (1, 3); (2, 3)]%Z)
                0%Z 1%Z 2%Z 3%Z).
  { split; [apply wf_graphb_sound; reflexivity | split; [| split]].
    - apply (nodupb_sound Z.eqb Z.eqb_refl). reflexivity.
    - intro x. reflexivity.
    - intro e. reflexivity. }
  split; [exact H|].
  exact (proj1 (proj2 (diamond_depth_and_paths insertion_order _ 0%Z 1%Z 2%Z 3%Z H))).
Defined.

(** ** Default targets *)

Lemma zero_child_wf : wf_graph zero_child.
Proof. apply wf_graphb_sound. reflexivity. Qed.

Lemma zero_child_acyclic : acyclic zero_child.
Proof.
  apply (ranked_acyclic (fun z => if (z =? 1)%Z then 0 else if (z =? 0)%Z then 1 else 2)).
  reflexivity.
Qed.

(** C4: the code at the failing input.  On the DAG 1 -> 0 -> 2 the only
    proband is 2 and one path leads from 1 to 2, but [probands()] tests
    [any(successors(n))], node 0 is falsy, and node 1 is taken for a proband:
    [get_num_paths_to_target()] gives node 1 the entry {1: 1}, which counts
    no path to 2. *)
Theorem default_targets_zero_child (ord : SetOrder) :
  exists pts,
    (forall fuel, 3 <= fuel ->
       get_num_paths_to_target ord fuel zero_child None true = Ok pts) /\
    probands zero_child = [1; 2]%Z /\
    ~ is_proband zero_child 1%Z /\
    is_proband zero_child 2%Z /\
    num_paths zero_child 1%Z 2%Z = 1 /\
    dict_get pts 1%Z = Some [(1%Z, 1)] /\
    paths_to pts 1%Z 2%Z = 0.
Proof.
  destruct (stopping_paths_table ord zero_child None zero_child_wf zero_child_acyclic)
    as [pts [Hrun [Hnd [Hkeys Hpts]]]].
  assert (H1 : dict_get pts 1%Z = Some [(1%Z, 1)]).
  { assert (Hin : In 1%Z (keys pts)).
    { apply Hkeys. split.
      - exists 1%Z, 0%Z. simpl. auto.
      - exists 1%Z. vm_compute. lia. }
    apply dict_get_In_keys in Hin.
    destruct (dict_get pts 1%Z) as [c|] eqn:E; [| congruence].
    destruct (Hpts 1%Z c E) as [Hwf Hcount].
    f_equal. apply singleton_counter; auto.
    intro t. rewrite Hcount.
    rewrite (stopping_paths_unfold zero_child _ 1%Z t zero_child_wf zero_child_acyclic)
      by (simpl; auto).
    cbn. rewrite (Z.eqb_sym t 1). reflexivity. }
  exists pts. split; [exact Hrun|].
  split; [reflexivity|].
  split; [intros [_ H]; discriminate|].
  split; [split; [simpl; auto | reflexivity]|].
  split; [reflexivity|].
  split; [exact H1|].
  unfold paths_to. rewrite H1. reflexivity.
Qed.

(** ** What [num_paths] counts *)

Lemma length_flat_map_sum {A B} (f : A -> list B) (l : list A) :
  length (flat_map f l) = list_sum (map (fun x => length (f x)) l).
Proof.
  induction l as [|x l IH]; simpl; auto.
  rewrite length_app, IH. reflexivity.
Qed.

Lemma count_paths_length g t : forall fuel n,
  count_paths g fuel n t = length (paths_between g fuel n t).
Proof.
  induction fuel as [|fuel IH]; intro n; [reflexivity|].
  cbn [count_paths paths_between]. rewrite length_app, length_flat_map_sum.
  f_equal.
  - destruct (n =? t)%Z; reflexivity.
  - f_equal. apply map_ext. intro c. rewrite length_map. apply IH.
Qed.

Lemma paths_between_sound g t : forall fuel n p,
  In p (paths_between g fuel n t) -> path g n t p.
Proof.
  induction fuel as [|fuel IH]; intros n p Hin; [contradiction|].
  cbn [paths_between] in Hin. apply in_app_iff in Hin. destruct Hin as [Hin | Hin].
  - destruct (Z.eqb_spec n t); [| contradiction].
    destruct Hin as [<-|[]]. subst. constructor.
  - apply in_flat_map in Hin. destruct Hin as [c [Hc Hin]].
    apply in_map_iff in Hin. destruct Hin as [q [<- Hq]].
    apply path_step with (c := c); auto.
Qed.

Lemma paths_between_complete g t : forall fuel n p,
  path g n t p -> length p <= fuel -> In p (paths_between g fuel n t).
Proof.
  induction fuel as [|fuel IH]; intros n p Hp Hlen.
  - inversion Hp; subst; simpl in Hlen; lia.
  - cbn [paths_between]. apply in_app_iff.
    inversion Hp as [| ? c ? q Hc Hq]; subst.
    + left. rewrite Z.eqb_refl. left. reflexivity.
    + right. apply in_flat_map. exists c. split; auto.
      apply in_map. apply IH; auto. simpl in Hlen. lia.
Qed.

Lemma path_head g n t p : path g n t p -> exists q, p = n :: q.
Proof. inversion 1; eexists; reflexivity. Qed.

Lemma NoDup_map_cons {A} (x : A) (l : list (list A)) :
  NoDup l -> NoDup (map (cons x) l).
Proof.
  induction 1 as [|p l Hp Hl IH]; simpl; constructor; auto.
  intro Hin. apply in_map_iff in Hin. destruct Hin as [q [Heq Hq]].
  inversion Heq; subst. contradiction.
Qed.

Lemma paths_between_NoDup g t : wf_graph g -> forall fuel n,
  NoDup (paths_between g fuel n t).
Proof.
  intros Hwf. induction fuel as [|fuel IH]; intro n; [constructor|].
  cbn [paths_between].
  assert (Hflat : forall l, NoDup l ->
            NoDup (flat_map (fun c => map (cons n) (paths_between g fuel c t)) l)).
  { induction l as [|c l IHl]; intro Hl; [constructor|].
    inversion Hl as [|? ? Hc Hl']; subst. simpl.
    apply NoDup_app; auto.
    - apply NoDup_map_cons. apply IH.
    - intros p Hp1 Hp2.
      apply in_map_iff in Hp1. destruct Hp1 as [q1 [<- Hq1]].
      apply in_flat_map in Hp2. destruct Hp2 as [c' [Hc' Hq2]].
      apply in_map_iff in Hq2. destruct Hq2 as [q2 [Heq Hq2]].
      inversion Heq; subst q2.
      apply paths_between_sound in Hq1. apply paths_between_sound in Hq2.
      destruct (path_head _ _ _ _ Hq1) as [r1 ->].
      destruct (path_head _ _ _ _ Hq2) as [r2 Hr2]. inversion Hr2; subst.
      contradiction. }
  apply NoDup_app.
  - destruct (n =? t)%Z; [constructor; [simpl; tauto | constructor] | constructor].
  - apply Hflat. apply adj_succ_NoDup. exact Hwf.
  - intros p Hp1 Hp2. destruct (n =? t)%Z; [| contradiction].
    destruct Hp1 as [<-|[]].
    apply in_flat_map in Hp2. destruct Hp2 as [c [_ Hq]].
    apply in_map_iff in Hq. destruct Hq as [q [Heq Hq]].
    inversion Heq; subst q. apply paths_between_sound in Hq.
    destruct (path_head _ _ _ _ Hq) as [r Hr]. discriminate.
Qed.

Lemma path_walk g n t p : path g n t p -> walk (adj_succ g) n t (length p - 1).
Proof.
  induction 1 as [n | n c t p Hc Hp IH]; simpl; [constructor|].
  destruct (path_head _ _ _ _ Hp) as [q ->]. simpl in *.
  rewrite Nat.sub_0_r in *. eapply walk_cons; eauto.
Qed.

(** On a DAG [num_paths g n t] is the number of distinct directed paths from
    [n] to [t]: the length of a list that holds each of them once. *)
Lemma num_paths_enumerates g n t :
  wf_graph g -> acyclic g -> In n (node_ids g) ->
  exists l, NoDup l /\ (forall p, In p l <-> path g n t p) /\
            length l = num_paths g n t.
Proof.
  intros Hwf Hac Hn.
  exists (paths_between g (length (node_ids g)) n t).
  split; [apply paths_between_NoDup; exact Hwf | split].
  - intro p. split; [apply paths_between_sound|].
    intro Hp. apply paths_between_complete; auto.
    pose proof (walk_bound (node_ids g) (adj_succ g) (succ_closed g Hwf) Hac
                  n t _ (path_walk g n t p Hp) Hn).
    destruct (path_head _ _ _ _ Hp) as [q ->]. simpl in *. lia.
  - unfold num_paths. symmetry. apply count_paths_length.
Qed.

(** Where [probands()] is right, that is where none of the nodes it lists has
    a child, the default call counts, for every node with an entry and every
    proband, the paths between them. *)
Lemma paths_to_probands ord g :
  wf_graph g -> acyclic g ->
  (forall p, In p (probands g) -> adj_succ g p = []) ->
  exists pts,
    (forall fuel, length (nodes g) <= fuel ->
                  get_num_paths_to_target ord fuel g None true = Ok pts) /\
    forall n, In n (keys pts) ->
      (forall p, is_proband g p -> paths_to pts n p = num_paths g n p) /\
      list_sum (map (paths_to pts n) (probands g)) =
      list_sum (map (num_paths g n) (probands g)).
Proof.
  intros Hwf Hac Hleaf.
  destruct (stopping_paths_table ord g None Hwf Hac) as [pts [Hrun [Hnd [Hkeys Hpts]]]].
  cbn [targets_of] in Hpts.
  exists pts. split; [exact Hrun|].
  intros n Hn. apply dict_get_In_keys in Hn.
  destruct (dict_get pts n) as [c|] eqn:E; [| congruence].
  destruct (Hpts n c E) as [_ Hcount].
  assert (Hp : forall p, In p (probands g) -> paths_to pts n p = num_paths g n p).
  { intros p Hin. unfold paths_to. rewrite E, Hcount.
    rewrite (stopping_paths_leaves g (probands g) n p Hleaf).
    apply mem_target in Hin. rewrite Hin. reflexivity. }
  split.
  - intros p Hprob. apply Hp. apply is_proband_probands. exact Hprob.
  - f_equal. apply map_ext_in. exact Hp.
Qed.

(** * Further properties *)

(** ** Founders and probands as the code lists them *)

Lemma py_any_false l : py_any (Iter l) = false <-> forall x, In x l -> x = 0%Z.
Proof.
  unfold py_any. cbn [items]. split.
  - intros H x Hx. destruct (Z.eq_dec x 0) as [|Hne]; auto. exfalso.
    assert (existsb truthy l = true); [| congruence].
    apply existsb_exists. exists x. split; auto.
    unfold truthy. apply negb_true_iff. apply Z.eqb_neq. exact Hne.
  - intro H. apply Bool.not_true_iff_false. intro Ht.
    apply existsb_exists in Ht. destruct Ht as [x [Hx Ht]].
    unfold truthy in Ht. apply negb_true_iff in Ht. apply Z.eqb_neq in Ht.
    apply Ht. apply H. exact Hx.
Qed.

(** X1.  [founders()] lists, each once, the nodes of the graph all of whose
    parents are node 0: every node without parents is among them, and they are
    those nodes alone unless node 0 has a child.  [probands()] does the same
    with children in place of parents. *)
Theorem founders_probands_listed (g : DiGraph) :
  wf_graph g ->
  (NoDup (founders g) /\
   (forall x, In x (founders g) <->
              In x (nodes g) /\ forall p, In (p, x) (edge_list g) -> p = 0%Z) /\
   (forall x, is_founder g x -> In x (founders g)) /\
   ((forall c, ~ In (0%Z, c) (edge_list g)) ->
    forall x, In x (founders g) <-> is_founder g x)) /\
  (NoDup (probands g) /\
   (forall x, In x (probands g) <->
              In x (nodes g) /\ forall c, In (x, c) (edge_list g) -> c = 0%Z) /\
   (forall x, is_proband g x -> In x (probands g)) /\
   ((forall p, ~ In (p, 0%Z) (edge_list g)) ->
    forall x, In x (probands g) <-> is_proband g x)).
Proof.
  intros [Hnd _].
  assert (HF : forall x, In x (founders g) <->
             In x (nodes g) /\ forall p, In (p, x) (edge_list g) -> p = 0%Z).
  { intro x. unfold founders. rewrite filter_In, negb_true_iff, py_any_false.
    split; intros [Hx H]; split; auto; intros p Hp; apply H;
      apply in_adj_pred; exact Hp. }
  assert (HP : forall x, In x (probands g) <->
             In x (nodes g) /\ forall c, In (x, c) (edge_list g) -> c = 0%Z).
  { intro x. unfold probands. rewrite filter_In, negb_true_iff, py_any_false.
    split; intros [Hx H]; split; auto; intros p Hp; apply H;
      apply in_adj_succ; exact Hp. }
  split; (split; [apply NoDup_filter; exact Hnd | split; [assumption | split]]).
  - apply is_founder_founders.
  - intros Hzero x. split; [| apply is_founder_founders].
    intro Hx. apply HF in Hx. destruct Hx as [Hx Hp]. split; auto.
    apply empty_list. intros p Hin. apply in_adj_pred in Hin.
    pose proof (Hp p Hin). subst p. apply (Hzero x). exact Hin.
  - apply is_proband_probands.
  - intros Hzero x. split; [| apply is_proband_probands].
    intro Hx. apply HP in Hx. destruct Hx as [Hx Hp]. split; auto.
    apply empty_list. intros c Hin. apply in_adj_succ in Hin.
    pose proof (Hp c Hin). subst c. apply (Hzero x). exact Hin.
Qed.

(** The graph 1 -> 0 -> 2, where node 1 passes for a proband and node 2 for a
    founder. *)
Lemma founders_probands_listed_witness :
  wf_graph zero_child /\
  (forall x, In x (founders zero_child) <->
             In x (nodes zero_child) /\
             forall p, In (p, x) (edge_list zero_child) -> p = 0%Z) /\
  founders zero_child = [1; 2]%Z.
Proof.
  split; [exact zero_child_wf | split; [| reflexivity]].
  exact (proj1 (proj2 (proj1 (founders_probands_listed zero_child zero_child_wf)))).
Defined.

(** ** Breadth-first distances *)

Lemma walk_ext f f' :
  (forall u v, In v (f u) <-> In v (f' u)) ->
  forall u v n, walk f u v n -> walk f' u v n.
Proof.
  intros Hff u v n H. induction H as [u | u y v n Hy Hw IH]; [constructor|].
  eapply walk_cons; [apply Hff; exact Hy | exact IH].
Qed.

Lemma walk_split nbrs u v n :
  walk nbrs u v n -> forall k, k <= n ->
  exists w, walk nbrs u w k /\ walk nbrs w v (n - k).
Proof.
  induction 1 as [u | u y v n Hy Hw IH]; intros k Hk.
  - replace k with 0 by lia. exists u. split; constructor.
  - destruct k as [|k].
    + exists u. split; [constructor | eapply walk_cons; eauto].
    + destruct (IH k ltac:(lia)) as [w [H1 H2]].
      exists w. split; [eapply walk_cons; eauto | exact H2].
Qed.

Lemma nearest_unique nbrs s v m m' :
  nearest nbrs s v m -> nearest nbrs s v m' -> m = m'.
Proof. intros [H1 H2] [H3 H4]. apply H2 in H3. apply H4 in H1. lia. Qed.

Lemma in_keys_entry {V} (d : list (node * V)) k :
  In k (keys d) <-> exists v, In (k, v) d.
Proof.
  unfold keys. rewrite in_map_iff. split.
  - intros [[k' v] [Heq Hin]]. simpl in Heq. subst. exists v. exact Hin.
  - intros [v Hin]. exists (k, v). auto.
Qed.

Lemma visit_level_spec level : forall l seen found,
  NoDup l ->
  visit_level l level seen found =
  (seen ++ map (fun v => (v, level)) (filter (fun v => negb (dict_mem seen v)) l),
   found ++ filter (fun v => negb (dict_mem seen v)) l).
Proof.
  induction l as [|v r IH]; intros seen found Hnd; simpl.
  - rewrite !app_nil_r. reflexivity.
  - inversion Hnd as [|? ? Hv Hr]; subst.
    destruct (dict_mem seen v) eqn:E; simpl; [apply IH; exact Hr|].
    rewrite IH by exact Hr.
    assert (Hf : filter (fun w => negb (dict_mem (seen ++ [(v, level)]) w)) r =
                 filter (fun w => negb (dict_mem seen w)) r).
    { apply filter_ext_in. intros w Hw. f_equal.
      unfold dict_mem. rewrite dict_get_app.
      destruct (dict_get seen w); [reflexivity|]. simpl.
      destruct (Z.eqb_spec v w); [subst; contradiction | reflexivity]. }
    rewrite Hf, <- !app_assoc. reflexivity.
Qed.

Section Bfs.
Variable ord : SetOrder.
Variable adj : node -> list node.
Variable V : list node.
Variable s : node.
Variable cutoff : nat.
Hypothesis adj_closed : forall u v, In v (adj u) -> In u V /\ In v V.
Hypothesis s_in : In s V.

Lemma walk_end_in v m : walk adj s v m -> In v V.
Proof.
  intro Hw. destruct m as [|m].
  - apply walk_zero in Hw. subst. exact s_in.
  - apply walk_snoc_inv in Hw. destruct Hw as [u [_ Hv]].
    apply adj_closed in Hv. tauto.
Qed.

(** The state of the search when the levels below [L] are done. *)
Definition bfs_inv (L : nat) (seen : list (node * nat)) (next : list node) : Prop :=
  NoDup next /\
  NoDup (keys seen) /\
  (forall v m, In (v, m) seen -> nearest adj s v m /\ m < L) /\
  (forall v, In v next -> walk adj s v L) /\
  (forall v, walk adj s v L -> In v next \/ In v (keys seen)) /\
  (forall v m, walk adj s v m -> m < L -> In v (keys seen)).

(** What the finished table is to satisfy. *)
Definition bfs_done (table : list (node * nat)) : Prop :=
  NoDup (keys table) /\
  (forall v m, In (v, m) table -> nearest adj s v m /\ m <= cutoff) /\
  (forall v m, walk adj s v m -> m <= cutoff -> In v (keys table)).

Lemma bfs_exhausted L seen :
  bfs_inv L seen [] -> forall m v, walk adj s v m -> In v (keys seen).
Proof.
  intros [_ [_ [H2 [_ [H4 H5]]]]] m.
  induction m as [m IH] using lt_wf_ind. intros v Hw.
  destruct (le_lt_dec L m) as [Hle | Hlt]; [| eapply H5; eauto].
  destruct (walk_split adj s v m Hw L Hle) as [w [Hw1 Hw2]].
  destruct (H4 w Hw1) as [[] | Hk].
  apply in_keys_entry in Hk. destruct Hk as [m' Hin].
  destruct (H2 w m' Hin) as [[Hw' _] Hm'].
  apply (IH (m' + (m - L))); [lia|].
  eapply walk_app; eauto.
Qed.

Lemma bfs_inv_step L seen next :
  bfs_inv L seen next ->
  let fresh := filter (fun v => negb (dict_mem seen v)) next in
  bfs_inv (S L) (seen ++ map (fun v => (v, L)) fresh)
          (set_iter ord (flat_map adj fresh)).
Proof.
  intros [H0 [H1 [H2 [H3 [H4 H5]]]]] fresh.
  assert (Hfresh : forall v, In v fresh <-> In v next /\ ~ In v (keys seen)).
  { intro v. unfold fresh. rewrite filter_In, negb_true_iff, <- dict_mem_In.
    destruct (dict_mem seen v); intuition congruence. }
  assert (Hkeys : forall v, In v (keys (seen ++ map (fun v => (v, L)) fresh)) <->
                            In v (keys seen) \/ In v fresh).
  { intro v. unfold keys. rewrite map_app, in_app_iff, map_map. simpl.
    rewrite map_id. reflexivity. }
  assert (H5' : forall v m, walk adj s v m -> m < S L ->
                 In v (keys (seen ++ map (fun v => (v, L)) fresh))).
  { intros v m Hw Hm. apply Hkeys.
    destruct (Nat.eq_dec m L) as [-> | Hne].
    - destruct (in_dec Z.eq_dec v (keys seen)) as [|Hn]; auto.
      destruct (H4 v Hw); auto. right. apply Hfresh. auto.
    - left. apply (H5 v m); auto. lia. }
  split; [apply set_iter_NoDup | split; [| split; [| split; [| split]]]].
  - unfold keys. rewrite map_app, map_map. simpl. rewrite map_id.
    apply NoDup_app; auto.
    + unfold fresh. apply NoDup_filter. exact H0.
    + intros v Hv Hf. apply Hfresh in Hf. tauto.
  - intros v m Hin. apply in_app_iff in Hin. destruct Hin as [Hin | Hin].
    + destruct (H2 v m Hin). split; auto.
    + apply in_map_iff in Hin. destruct Hin as [v' [Heq Hv']].
      inversion Heq; subst v' m. apply Hfresh in Hv'. destruct Hv' as [Hn Hk].
      split; [| lia]. split; [apply H3; exact Hn|].
      intros m' Hw'. destruct (le_lt_dec L m'); auto.
      exfalso. apply Hk. eapply H5; eauto.
  - intros v Hv. apply set_iter_In in Hv. apply in_flat_map in Hv.
    destruct Hv as [u [Hu Hv]]. apply Hfresh in Hu.
    apply walk_snoc with (v := u); [apply H3; tauto | exact Hv].
  - intros v Hw. apply walk_snoc_inv in Hw. destruct Hw as [u [Hu Hv]].
    destruct (in_dec Z.eq_dec u (keys seen)) as [Hk | Hn].
    + right. apply in_keys_entry in Hk. destruct Hk as [m' Hin].
      destruct (H2 u m' Hin) as [[Hw' _] Hm'].
      apply (H5' v (S m')); [apply walk_snoc with (v := u); auto | lia].
    + left. apply set_iter_In. apply in_flat_map. exists u. split; auto.
      apply Hfresh. split; auto. destruct (H4 u Hu); tauto.
  - exact H5'.
Qed.

Lemma sssp_loop_spec : forall rounds L next seen,
  L + rounds = S cutoff -> bfs_inv L seen next ->
  bfs_done (sssp_loop ord adj (length V) rounds L next seen).
Proof.
  induction rounds as [|r IH]; intros L next seen HL Hinv.
  - destruct Hinv as [_ [H1 [H2 [_ [_ H5]]]]]. simpl.
    split; [exact H1 | split].
    + intros v m Hin. destruct (H2 v m Hin). split; auto. lia.
    + intros v m Hw Hm. apply (H5 v m); auto. lia.
  - destruct next as [|x l].
    + simpl. pose proof (bfs_exhausted L seen Hinv) as Hall.
      destruct Hinv as [_ [H1 [H2 _]]].
      split; [exact H1 | split].
      * intros v m Hin. destruct (H2 v m Hin). split; auto. lia.
      * intros v m Hw _. eapply Hall; eauto.
    + rewrite sssp_loop_step.
      rewrite visit_level_spec by apply Hinv. cbn [app].
      pose proof (bfs_inv_step L seen (x :: l) Hinv) as Hnext. cbv zeta in Hnext.
      set (fresh := filter (fun v => negb (dict_mem seen v)) (x :: l)) in *.
      set (seen' := seen ++ map (fun v => (v, L)) fresh) in *.
      destruct (Nat.eqb_spec (length seen') (length V)) as [Hfull | _].
      * destruct Hnext as [_ [H1 [H2 _]]].
        assert (Hsub : incl (keys seen') V).
        { intros v Hv. apply in_keys_entry in Hv. destruct Hv as [m Hin].
          destruct (H2 v m Hin) as [[Hw _] _]. eapply walk_end_in; eauto. }
        assert (Hall : incl V (keys seen')).
        { apply NoDup_length_incl; auto. unfold keys. rewrite length_map. lia. }
        split; [exact H1 | split].
        -- intros v m Hin. destruct (H2 v m Hin). split; auto. lia.
        -- intros v m Hw _. apply Hall. eapply walk_end_in; eauto.
      * apply IH; [lia | exact Hnext].
Qed.

Lemma bfs_init : bfs_inv 0 [] (set_iter ord [s]).
Proof.
  split; [apply set_iter_NoDup | split; [constructor | split; [| split; [| split]]]].
  - intros v m [].
  - intros v Hv. apply set_iter_In in Hv. destruct Hv as [<-|[]]. constructor.
  - intros v Hw. apply walk_zero in Hw. subst. left. apply set_iter_In. left. reflexivity.
  - intros v m _ Hm. lia.
Qed.

(** The table holds each node within [cutoff] steps of the source once, with
    its least number of steps. *)
Lemma bfs_table :
  let table := sssp_loop ord adj (length V) (S cutoff) 0 (set_iter ord [s]) [] in
  NoDup (keys table) /\
  (forall v m, In (v, m) table <-> nearest adj s v m /\ m <= cutoff) /\
  (forall v, In v (keys table) <-> exists m, walk adj s v m /\ m <= cutoff).
Proof.
  intro table.
  destruct (sssp_loop_spec (S cutoff) 0 (set_iter ord [s]) [] eq_refl bfs_init)
    as [H1 [H2 H3]]. fold table in H1, H2, H3.
  split; [exact H1 | split].
  - intros v m. split; [apply H2|]. intros [Hn Hm].
    assert (Hk : In v (keys table)) by (apply (H3 v m); [apply Hn | exact Hm]).
    apply in_keys_entry in Hk. destruct Hk as [m' Hin].
    destruct (H2 v m' Hin) as [Hn' _].
    rewrite (nearest_unique adj s v m m' Hn Hn'). exact Hin.
  - intro v. split.
    + intro Hk. apply in_keys_entry in Hk. destruct Hk as [m Hin].
      destruct (H2 v m Hin) as [[Hw _] Hm]. exists m. auto.
    + intros [m [Hw Hm]]. eapply H3; eauto.
Qed.

End Bfs.

Lemma nearest_ext f f' :
  (forall u v, In v (f u) <-> In v (f' u)) ->
  forall s v m, nearest f s v m <-> nearest f' s v m.
Proof.
  intros Hff s v m.
  assert (Hback : forall u v, In v (f' u) <-> In v (f u)) by (intros; symmetry; apply Hff).
  split; intros [Hw Hmin]; (split; [eapply walk_ext; eauto |]);
    intros m' Hw'; apply Hmin; eapply walk_ext; eauto.
Qed.

Lemma reverse_adj g : wf_graph g ->
  forall u v, In v (adj_succ (G_reverse g) u) <-> In v (adj_pred g u).
Proof. intros Hwf u v. rewrite in_adj_reverse by exact Hwf. symmetry. apply in_adj_pred. Qed.

Lemma cohort_of_table (k : nat) (table : list (node * nat)) :
  NoDup (keys table) ->
  NoDup (map fst (filter (fun e => snd e =? k) table)) /\
  forall v, In v (map fst (filter (fun e => snd e =? k) table)) <-> In (v, k) table.
Proof.
  intro Hnd. split; [apply (keys_filter_NoDup _ table Hnd)|].
  intro v. rewrite in_map_iff. split.
  - intros [[v' m] [Heq Hin]]. apply filter_In in Hin. destruct Hin as [Hin Hm].
    simpl in *. apply Nat.eqb_eq in Hm. subst. exact Hin.
  - intro Hin. exists (v, k). split; auto. apply filter_In. split; auto.
    simpl. apply Nat.eqb_refl.
Qed.

(** What [successors] returns when the ends are not asked for. *)
Lemma successors_spec (ord : SetOrder) (g : DiGraph) (n : node) (k : nat)
        (include_intermediates : bool) :
  wf_graph g -> In n (nodes g) ->
  exists l, successors ord g n k include_intermediates false = Ok l /\
    NoDup l /\
    forall v, In v l <->
      if include_intermediates
      then exists m, walk (adj_succ g) n v m /\ m <= k
      else nearest (adj_succ g) n v k.
Proof.
  intros Hwf Hn. unfold successors, single_source_shortest_path_length.
  pose proof Hn as Hh. apply has_node_In in Hh. rewrite Hh. cbn [bind].
  destruct (bfs_table ord (adj_succ g) (node_ids g) n k (succ_closed g Hwf) Hn)
    as [H1 [H2 H3]].
  destruct include_intermediates.
  - eexists. split; [reflexivity | split; [exact H1 | exact H3]].
  - rewrite collect_at_plain. cbn [app].
    destruct (cohort_of_table k _ H1) as [Hnd Hin].
    eexists. split; [reflexivity | split; [exact Hnd |]].
    intro v. rewrite Hin, H2. split; [tauto | intro; split; auto].
Qed.

(** X2.  [successors(n, k)] on a node of the graph, without
    [include_leaves]: the call returns, no node is listed twice, and the nodes
    listed are those whose shortest path from [n] has exactly [k] edges; with
    [include_intermediates] they are the nodes some path of at most [k] edges
    reaches, [n] among them. *)
Theorem successors_by_distance (ord : SetOrder) (g : DiGraph) (n : node) (k : nat)
        (include_intermediates : bool) :
  wf_graph g -> In n (nodes g) ->
  exists l, successors ord g n k include_intermediates false = Ok l /\
    NoDup l /\
    forall v, In v l <->
      if include_intermediates
      then exists m, walk (adj_succ g) n v m /\ m <= k
      else nearest (adj_succ g) n v k.
Proof. apply successors_spec. Qed.

Lemma successors_by_distance_witness :
  exists l, successors insertion_order diamond 1%Z 2 false false = Ok l /\
    NoDup l /\ forall v, In v l <-> nearest (adj_succ diamond) 1%Z v 2.
Proof.
  apply (successors_by_distance insertion_order diamond 1%Z 2 false).
  - apply diamond_wf.
  - simpl. auto.
Defined.

(** What [predecessors] returns when the ends are not asked for. *)
Lemma predecessors_spec (ord : SetOrder) (g : DiGraph) (n : node) (k : nat)
        (include_intermediates : bool) :
  wf_graph g -> In n (nodes g) ->
  exists l, predecessors ord g n k include_intermediates false = Ok l /\
    NoDup l /\
    forall v, In v l <->
      if include_intermediates
      then exists m, walk (adj_pred g) n v m /\ m <= k
      else nearest (adj_pred g) n v k.
Proof.
  intros Hwf Hn. unfold predecessors, single_source_shortest_path_length.
  assert (Hh : has_node (G_reverse g) n = true) by (apply has_node_In; exact Hn).
  rewrite Hh. cbn [bind].
  destruct (bfs_table ord (adj_succ (G_reverse g)) (node_ids (G_reverse g)) n k
              (succ_closed _ (G_reverse_wf g Hwf)) Hn) as [H1 [H2 H3]].
  destruct include_intermediates.
  - eexists. split; [reflexivity | split; [exact H1 |]].
    intro v. rewrite H3. split; intros [m [Hw Hm]]; exists m; split; auto;
      eapply walk_ext; try exact Hw; intros a b;
      [| symmetry]; apply reverse_adj; exact Hwf.
  - rewrite collect_at_plain. cbn [app].
    destruct (cohort_of_table k _ H1) as [Hnd Hin].
    eexists. split; [reflexivity | split; [exact Hnd |]].
    intro v. rewrite Hin, H2.
    rewrite (nearest_ext _ _ (reverse_adj g Hwf)).
    split; [tauto | intro; split; auto].
Qed.

(** X3.  [predecessors(n, k)] on a node of the graph, without
    [include_founders]: the call returns, no node is listed twice, and the
    nodes listed are those whose shortest path to [n] has exactly [k] edges;
    with [include_intermediates] they are the nodes from which some path of at
    most [k] edges reaches [n], [n] among them. *)
Theorem predecessors_by_distance (ord : SetOrder) (g : DiGraph) (n : node) (k : nat)
        (include_intermediates : bool) :
  wf_graph g -> In n (nodes g) ->
  exists l, predecessors ord g n k include_intermediates false = Ok l /\
    NoDup l /\
    forall v, In v l <->
      if include_intermediates
      then exists m, walk (adj_pred g) n v m /\ m <= k
      else nearest (adj_pred g) n v k.
Proof. apply predecessors_spec. Qed.

Lemma predecessors_by_distance_witness :
  exists l, predecessors insertion_order diamond 4%Z 2 true false = Ok l /\
    NoDup l /\ forall v, In v l <-> exists m, walk (adj_pred diamond) 4%Z v m /\ m <= 2.
Proof.
  apply (predecessors_by_distance insertion_order diamond 4%Z 2 true).
  - apply diamond_wf.
  - simpl. auto.
Defined.

(** ** Leaves under a node *)

Lemma set_add_In s x y : In y (set_add s x) <-> In y s \/ y = x.
Proof.
  unfold set_add. destruct (existsb (Z.eqb x) s) eqn:E.
  - apply existsb_exists in E. destruct E as [x' [Hx' E]].
    apply Z.eqb_eq in E. subst x'. split; [tauto | intros [? | ->]; auto].
  - rewrite in_app_iff. simpl. intuition.
Qed.

Lemma set_add_NoDup s x : NoDup s -> NoDup (set_add s x).
Proof.
  intro Hnd. unfold set_add. destruct (existsb (Z.eqb x) s) eqn:E; auto.
  apply NoDup_app; auto.
  - constructor; [simpl; tauto | constructor].
  - intros a Ha [Ea|[]]. subst a.
    assert (existsb (Z.eqb x) s = true); [| congruence].
    apply existsb_exists. exists x. split; auto. apply Z.eqb_refl.
Qed.

(** The number of loop iterations that one queued node costs: the number of
    paths of fewer than [fuel] edges that start at it. *)
Fixpoint drain_cost (g : DiGraph) (fuel : nat) (n : node) : nat :=
  match fuel with
  | O => 0
  | S fuel' => 1 + list_sum (map (drain_cost g fuel') (adj_succ g n))
  end.

Lemma drain_cost_stable g : forall f f' n,
  (forall y m, walk (adj_succ g) n y m -> m < f) -> f <= f' ->
  drain_cost g f' n = drain_cost g f n.
Proof.
  induction f as [|f IH]; intros f' n Hfar Hle.
  - specialize (Hfar n 0 (walk_nil _ n)). lia.
  - destruct f' as [|f']; [lia|]. cbn [drain_cost]. f_equal. f_equal.
    apply map_ext_in. intros c Hc. apply IH; [| lia].
    intros y m Hw.
    assert (S m < S f) by (apply (Hfar y); eapply walk_cons; eauto). lia.
Qed.

Lemma set_iter_empty ord l : set_iter ord l = [] -> l = [].
Proof.
  intro E. destruct l as [|x r]; auto. exfalso.
  assert (H : In x (set_iter ord (x :: r))) by (apply set_iter_In; left; reflexivity).
  rewrite E in H. destruct H.
Qed.

Section LeavesUnder.
Variable ord : SetOrder.
Variable g : DiGraph.
Hypothesis Hwf : wf_graph g.
Hypothesis Hac : acyclic g.

Definition queue_cost (q : list node) : nat :=
  list_sum (map (drain_cost g (length (node_ids g))) q).

Lemma queue_cost_app q1 q2 : queue_cost (q1 ++ q2) = queue_cost q1 + queue_cost q2.
Proof. unfold queue_cost. rewrite map_app, list_sum_app. reflexivity. Qed.

Lemma drain_cost_unfold n :
  In n (node_ids g) ->
  drain_cost g (length (node_ids g)) n =
  1 + list_sum (map (drain_cost g (length (node_ids g))) (adj_succ g n)).
Proof.
  intro Hn.
  pose proof (fun u v m => walk_bound (node_ids g) (adj_succ g) (succ_closed g Hwf)
                             Hac u v m) as Hbound.
  destruct (length (node_ids g)) as [|N] eqn:EN.
  - destruct (node_ids g); [contradiction | discriminate].
  - change (drain_cost g (S N) n)
      with (1 + list_sum (map (drain_cost g N) (adj_succ g n))).
    f_equal. f_equal.
    apply map_ext_in. intros c Hc. symmetry. apply drain_cost_stable; [| lia].
    intros y m Hw.
    assert (S m < S N) by (apply (Hbound n y); [eapply walk_cons; eauto | exact Hn]).
    lia.
Qed.

Lemma queue_cost_cons n q :
  In n (node_ids g) ->
  queue_cost (n :: q) = 1 + queue_cost (set_iter ord (adj_succ g n)) + queue_cost q.
Proof.
  intro Hn. unfold queue_cost. cbn [map list_sum].
  rewrite (drain_cost_unfold n Hn).
  rewrite (list_sum_perm _ _ (Permutation_map _ (successors_permutation ord g n Hwf))).
  reflexivity.
Qed.

Lemma leaf_under_leaf n y : adj_succ g n = [] -> leaf_under g n y <-> y = n.
Proof.
  intro Hleaf. split.
  - intros [_ [m Hw]]. inversion Hw as [|? c ? ? Hc _]; subst; auto.
    rewrite Hleaf in Hc. destruct Hc.
  - intros ->. split; auto. exists 0. constructor.
Qed.

Lemma leaf_under_inner n y : adj_succ g n <> [] ->
  leaf_under g n y <-> exists c, In c (adj_succ g n) /\ leaf_under g c y.
Proof.
  intro Hinner. split.
  - intros [Hleaf [m Hw]]. inversion Hw as [|? c ? m' Hc Hw']; subst.
    + contradiction.
    + exists c. split; auto. split; auto. exists m'. exact Hw'.
  - intros [c [Hc [Hleaf [m Hw]]]]. split; auto.
    exists (S m). eapply walk_cons; eauto.
Qed.

Lemma expand_leaves_spec : forall fuel q reached,
  (forall x, In x q -> In x (node_ids g)) -> queue_cost q <= fuel -> NoDup reached ->
  exists res, expand_leaves ord fuel g q reached = Ok res /\ NoDup res /\
    forall y, In y res <-> In y reached \/ exists x, In x q /\ leaf_under g x y.
Proof.
  induction fuel as [|fuel IH]; intros q reached Hq Hcost Hnd.
  - destruct q as [|nn rest].
    + exists reached. split; [reflexivity | split; auto].
      intro y. split; [tauto | intros [|[x [[] _]]]; auto].
    + rewrite queue_cost_cons in Hcost by (apply Hq; left; reflexivity). lia.
  - destruct q as [|nn rest].
    + exists reached. split; [reflexivity | split; auto].
      intro y. split; [tauto | intros [|[x [[] _]]]; auto].
    + assert (Hnn : In nn (node_ids g)) by (apply Hq; left; reflexivity).
      rewrite queue_cost_cons in Hcost by exact Hnn.
      cbn [expand_leaves].
      rewrite successors_children by (auto using acyclic_no_loop). cbn [bind].
      destruct (set_iter ord (adj_succ g nn)) as [|c cs] eqn:Ech.
      * assert (Hleaf : adj_succ g nn = []).
        { apply (set_iter_empty ord). exact Ech. }
        cbn [length Nat.ltb Nat.leb].
        destruct (IH rest (set_add reached nn)) as [res [Hres [Hnd' Hin]]].
        -- intros x Hx. apply Hq. right. exact Hx.
        -- lia.
        -- apply set_add_NoDup. exact Hnd.
        -- exists res. split; [exact Hres | split; [exact Hnd' |]].
           intro y. rewrite Hin, set_add_In. split.
           ++ intros [[Hy | ->] | [x [Hx Hl]]]; auto.
              ** right. exists nn. split; [left; reflexivity |].
                 apply leaf_under_leaf; auto.
              ** right. exists x. split; [right |]; auto.
           ++ intros [Hy | [x [[<- | Hx] Hl]]]; auto.
              ** left. right. apply (leaf_under_leaf nn y Hleaf). exact Hl.
              ** right. exists x. auto.
      * assert (Hinner : adj_succ g nn <> []).
        { intro E. rewrite E, set_iter_nil in Ech. discriminate. }
        replace (0 <? length (c :: cs)) with true by reflexivity.
        rewrite <- Ech in *.
        destruct (IH (rest ++ set_iter ord (adj_succ g nn)) reached)
          as [res [Hres [Hnd' Hin]]].
        -- intros x Hx. apply in_app_iff in Hx. destruct Hx as [Hx | Hx].
           ++ apply Hq. right. exact Hx.
           ++ apply set_iter_In in Hx. apply (succ_closed g Hwf) in Hx. tauto.
        -- rewrite queue_cost_app. lia.
        -- exact Hnd.
        -- exists res. split; [exact Hres | split; [exact Hnd' |]].
           intro y. rewrite Hin. split.
           ++ intros [Hy | [x [Hx Hl]]]; auto. right.
              apply in_app_iff in Hx. destruct Hx as [Hx | Hx].
              ** exists x. split; [right |]; auto.
              ** exists nn. split; [left; reflexivity |].
                 apply leaf_under_inner; auto. exists x. split; auto.
                 apply set_iter_In in Hx. exact Hx.
           ++ intros [Hy | [x [[<- | Hx] Hl]]]; auto.
              ** apply leaf_under_inner in Hl; auto. destruct Hl as [c' [Hc' Hl]].
                 right. exists c'. split; auto. apply in_app_iff. right.
                 apply set_iter_In. exact Hc'.
              ** right. exists x. split; auto. apply in_app_iff. auto.
Qed.

Definition leaf_set (n : node) (set : list node) : Prop :=
  NoDup set /\ forall y, In y set <-> leaf_under g n y.

Lemma queue_cost_le n : In n (node_ids g) ->
  queue_cost (set_iter ord (adj_succ g n)) <= queue_cost (node_ids g).
Proof.
  intro Hn. apply in_split in Hn. destruct Hn as [l1 [l2 E]].
  assert (In n (node_ids g)) as Hn by (rewrite E; apply in_elt).
  pose proof (queue_cost_cons n l2 Hn) as Hc.
  rewrite E. rewrite queue_cost_app. lia.
Qed.

Lemma probands_under_loop_spec fuel : queue_cost (node_ids g) <= fuel ->
  forall ns ntp, (forall n, In n ns -> In n (node_ids g)) ->
  exists ntp', probands_under_loop ord fuel g ns 0 ntp = Ok ntp' /\
    (forall n, In n (keys ntp') <-> In n (keys ntp) \/ In n ns) /\
    (forall n, In n ns -> exists set, dict_get ntp' n = Some set /\ leaf_set n set) /\
    (forall n, ~ In n ns -> dict_get ntp' n = dict_get ntp n).
Proof.
  intro Hfuel. induction ns as [|n r IH]; intros ntp Hns.
  - exists ntp. split; [reflexivity |]. split; [| split]; auto.
    + intro n. simpl. tauto.
    + intros n [].
  - assert (Hn : In n (node_ids g)) by (apply Hns; left; reflexivity).
    cbn [probands_under_loop].
    rewrite predecessors_zero by exact Hn.
    cbn [bind gather_successors].
    rewrite successors_children by (auto using acyclic_no_loop).
    cbn [bind gather_successors app].
    assert (Hreach : exists set,
               (if length (set_iter ord (adj_succ g n)) =? 0 then Ok (set_add [] n)
                else expand_leaves ord fuel g (set_iter ord (adj_succ g n)) [])
               = Ok set /\ leaf_set n set).
    { destruct (set_iter ord (adj_succ g n)) as [|c cs] eqn:Ech.
      - assert (Hleaf : adj_succ g n = []).
        { apply (set_iter_empty ord). exact Ech. }
        exists [n]. split; [reflexivity |]. split.
        + constructor; [simpl; tauto | constructor].
        + intro y. rewrite leaf_under_leaf by exact Hleaf. simpl. intuition.
      - assert (Hinner : adj_succ g n <> []).
        { intro E. rewrite E, set_iter_nil in Ech. discriminate. }
        replace (length (c :: cs) =? 0) with false by reflexivity.
        rewrite <- Ech.
        destruct (expand_leaves_spec fuel (set_iter ord (adj_succ g n)) [])
          as [res [Hres [Hnd Hin]]].
        + intros x Hx. apply set_iter_In in Hx. apply (succ_closed g Hwf) in Hx. tauto.
        + pose proof (queue_cost_le n Hn). lia.
        + constructor.
        + exists res. split; [exact Hres |]. split; [exact Hnd |].
          intro y. rewrite Hin, leaf_under_inner by exact Hinner. split.
          * intros [[] | [x [Hx Hl]]]. exists x. split; auto.
            apply set_iter_In in Hx. exact Hx.
          * intros [x [Hx Hl]]. right. exists x. split; auto.
            apply set_iter_In. exact Hx. }
    destruct Hreach as [set [Hset Hgood]]. rewrite Hset. cbn [bind].
    destruct (IH (dict_set (dict_set ntp n []) n set)) as [ntp' [Hrun [Hk [Hg Hrest]]]].
    { intros x Hx. apply Hns. right. exact Hx. }
    exists ntp'. split; [exact Hrun |]. split; [| split].
    + intro x. rewrite Hk, !keys_dict_set_In. simpl. intuition.
    + intros x Hx. destruct (in_dec Z.eq_dec x r) as [Hr | Hr]; [apply Hg; exact Hr |].
      destruct Hx as [<- | Hx]; [| contradiction].
      exists set. split; auto. rewrite Hrest by exact Hr.
      rewrite dict_get_set, Z.eqb_refl. reflexivity.
    + intros x Hx. rewrite Hrest by (intro; apply Hx; right; assumption).
      rewrite !dict_get_set.
      destruct (Z.eqb_spec n x); auto. subst. exfalso. apply Hx. left. reflexivity.
Qed.

End LeavesUnder.

(** X4.  [get_probands_under(nodes)] with the default [climb_up_step=0] on a
    DAG, for nodes of the graph ([nodes=None] stands for all of them): the
    call returns, its keys are the nodes asked for, and each is mapped to the
    set of the childless nodes that can be reached from it, itself when it has
    no child. *)
Theorem get_probands_under_leaves (ord : SetOrder) (g : DiGraph)
        (asked : option (list node)) :
  wf_graph g -> acyclic g ->
  (forall l n, asked = Some l -> In n l -> In n (nodes g)) ->
  exists fuel0, forall fuel, fuel0 <= fuel ->
  exists ntp, get_probands_under ord fuel g asked 0 = Ok ntp /\
    (forall n, In n (keys ntp) <->
               In n (match asked with Some l => l | None => nodes g end)) /\
    (forall n, In n (match asked with Some l => l | None => nodes g end) ->
       exists set, dict_get ntp n = Some set /\ NoDup set /\
                   forall y, In y set <-> leaf_under g n y).
Proof.
  intros Hwf Hac Hasked. exists (queue_cost g (node_ids g)). intros fuel Hfuel.
  unfold get_probands_under.
  destruct (probands_under_loop_spec ord g Hwf Hac fuel Hfuel
              (match asked with Some l => l | None => node_ids g end) [])
    as [ntp [Hrun [Hk [Hg _]]]].
  - destruct asked as [l|]; [intros n Hn; eapply Hasked; eauto | auto].
  - exists ntp. split; [exact Hrun | split].
    + intro n. rewrite Hk. simpl. unfold nodes. tauto.
    + exact Hg.
Qed.

Lemma get_probands_under_leaves_witness :
  exists fuel0, forall fuel, fuel0 <= fuel ->
  exists ntp, get_probands_under insertion_order fuel diamond None 0 = Ok ntp /\
    (forall n, In n (keys ntp) <-> In n (nodes diamond)) /\
    (forall n, In n (nodes diamond) ->
       exists set, dict_get ntp n = Some set /\ NoDup set /\
                   forall y, In y set <-> leaf_under diamond n y).
Proof.
  apply (get_probands_under_leaves insertion_order diamond None).
  - apply diamond_wf.
  - apply diamond_acyclic.
  - intros l n H. discriminate H.
Defined.

(** ** Calls that raise *)

Lemma sssp_absent ord g n k :
  ~ In n (nodes g) -> single_source_shortest_path_length ord g n k = Raise NodeNotFound.
Proof.
  intro Hn. unfold single_source_shortest_path_length.
  destruct (has_node g n) eqn:E; auto.
  apply has_node_In in E. contradiction.
Qed.

(** X5.  A node that is not in the graph: [predecessors] and [successors]
    raise networkx's [NodeNotFound] whatever the other arguments are, and so do
    [siblings] and [get_probands_under] when the first node asked for is
    missing. *)
Theorem absent_node_raises (ord : SetOrder) (g : DiGraph) (n : node) :
  ~ In n (nodes g) ->
  (forall k include_intermediates include_founders,
     predecessors ord g n k include_intermediates include_founders = Raise NodeNotFound) /\
  (forall k include_intermediates include_leaves,
     successors ord g n k include_intermediates include_leaves = Raise NodeNotFound) /\
  siblings ord g n = Raise NodeNotFound /\
  (forall fuel rest climb_up_step,
     get_probands_under ord fuel g (Some (n :: rest)) climb_up_step = Raise NodeNotFound).
Proof.
  intro Hn.
  assert (Hp : forall k a b, predecessors ord g n k a b = Raise NodeNotFound).
  { intros k a b. unfold predecessors.
    rewrite (sssp_absent ord (G_reverse g) n k Hn). reflexivity. }
  split; [exact Hp | split; [| split]].
  - intros k a b. unfold successors. rewrite (sssp_absent ord g n k Hn). reflexivity.
  - unfold siblings. rewrite Hp. reflexivity.
  - intros fuel rest k. unfold get_probands_under. cbn [probands_under_loop].
    rewrite Hp. reflexivity.
Qed.

Lemma absent_node_raises_witness :
  predecessors insertion_order diamond 7%Z 1 false false = Raise NodeNotFound.
Proof.
  apply (absent_node_raises insertion_order diamond 7%Z).
  simpl. intros [H | [H | [H | [H | []]]]]; discriminate H.
Defined.

(** X6.  Climbing before descending never works: for every graph, with
    [climb_up_step >= 1] [get_probands_under] raises [TypeError] at the first
    node asked for that is in the graph, because it calls [predecessors] with
    [include_founders=True], which takes [len] of an iterator. *)
Theorem get_probands_under_climbing (ord : SetOrder) (fuel : nat) (g : DiGraph)
        (asked : option (list node)) (n : node) (rest : list node)
        (climb_up_step : nat) :
  match asked with Some l => l | None => nodes g end = n :: rest ->
  In n (nodes g) -> 1 <= climb_up_step ->
  get_probands_under ord fuel g asked climb_up_step = Raise TypeError.
Proof.
  intros E Hn Hk.
  destruct (include_ends_raises ord g n climb_up_step Hn Hk) as [Hp _].
  unfold get_probands_under. unfold nodes in E. rewrite E.
  cbn [probands_under_loop]. rewrite Hp. reflexivity.
Qed.

Lemma get_probands_under_climbing_witness :
  get_probands_under insertion_order 0 diamond None 1 = Raise TypeError.
Proof.
  apply (get_probands_under_climbing insertion_order 0 diamond None 1%Z [2; 3; 4]%Z 1).
  - reflexivity.
  - simpl. auto.
  - lia.
Defined.

(** X7.  On a node of the graph and one generation or more away,
    [include_founders=True] and [include_leaves=True] make [predecessors] and
    [successors] raise [TypeError], whatever the graph is; zero generations
    away they return the node itself; and with [include_intermediates=True]
    the two flags are not looked at. *)
Theorem include_ends_behaviour (ord : SetOrder) (g : DiGraph) (n : node) :
  In n (nodes g) ->
  (forall k, 1 <= k ->
     predecessors ord g n k false true = Raise TypeError /\
     successors ord g n k false true = Raise TypeError) /\
  (predecessors ord g n 0 false true = Ok [n] /\
   successors ord g n 0 false true = Ok [n]) /\
  (forall k,
     predecessors ord g n k true true = predecessors ord g n k true false /\
     successors ord g n k true true = successors ord g n k true false).
Proof.
  intro Hn. split; [| split].
  - intros k Hk. apply include_ends_raises; assumption.
  - split; [apply predecessors_zero; exact Hn |].
    unfold successors, single_source_shortest_path_length.
    apply has_node_In in Hn. rewrite Hn, set_iter_single.
    cbn [sssp_loop visit_level dict_mem dict_get app].
    destruct (length [(n, 0)] =? _); reflexivity.
  - intro k. split; reflexivity.
Qed.

Lemma include_ends_behaviour_witness :
  predecessors insertion_order diamond 4%Z 0 false true = Ok [4%Z] /\
  successors insertion_order diamond 4%Z 0 false true = Ok [4%Z].
Proof.
  apply (include_ends_behaviour insertion_order diamond 4%Z).
  simpl. auto.
Defined.

(** ** Siblings *)

Lemma nearest_one adj s v : nearest adj s v 1 <-> In v (adj s) /\ v <> s.
Proof.
  split.
  - intros [Hw Hmin]. split.
    + inversion Hw as [|? y ? ? Hy Hw']; subst.
      apply walk_zero in Hw'. subst. exact Hy.
    + intros ->. specialize (Hmin 0 (walk_nil _ s)). lia.
  - intros [Hin Hne]. split.
    + eapply walk_cons; [exact Hin | constructor].
    + intros m' Hw. destruct m'; [| lia].
      apply walk_zero in Hw. congruence.
Qed.

Lemma sibling_candidates_spec ord g n : wf_graph g ->
  forall ps, (forall p, In p ps -> In p (nodes g)) ->
  exists cands, sibling_candidates ord g n ps = Ok cands /\
    forall x, In x cands <->
      x <> n /\ exists p, In p ps /\ In (p, x) (edge_list g) /\ x <> p.
Proof.
  intro Hwf. induction ps as [|p r IH]; intro Hps.
  - exists []. split; [reflexivity |]. intro x. split; [intros [] | intros [_ [p [[] _]]]].
  - cbn [sibling_candidates].
    destruct (successors_spec ord g p 1 false Hwf (Hps p (or_introl eq_refl)))
      as [children [Hrun [_ Hch]]].
    rewrite Hrun. cbn [bind].
    destruct IH as [rest [Hrest Hin]]; [intros q Hq; apply Hps; right; exact Hq |].
    rewrite Hrest. cbn [bind]. eexists. split; [reflexivity |].
    intro x. rewrite in_app_iff, filter_In, Hin, Hch, nearest_one, in_adj_succ.
    rewrite negb_true_iff, Z.eqb_neq. split.
    + intros [[[He Hne] Hxn] | [Hxn [q [Hq Hr]]]].
      * split; auto. exists p. split; [left; reflexivity | split; auto].
      * split; auto. exists q. split; [right; exact Hq | exact Hr].
    + intros [Hxn [q [[<- | Hq] [He Hne]]]].
      * left. auto.
      * right. split; auto. exists q. auto.
Qed.

(** X8.  [siblings(node)] on a node of the graph: the call returns, no node
    is listed twice, and the nodes listed are those other than [node] that
    share a parent with it, half siblings included (a node that is its own
    parent does not count as a parent). *)
Theorem siblings_share_parent (ord : SetOrder) (g : DiGraph) (n : node) :
  wf_graph g -> In n (nodes g) ->
  exists l, siblings ord g n = Ok l /\ NoDup l /\
    forall x, In x l <->
      x <> n /\
      exists p, In (p, n) (edge_list g) /\ In (p, x) (edge_list g) /\ p <> n /\ p <> x.
Proof.
  intros Hwf Hn. unfold siblings.
  destruct (predecessors_spec ord g n 1 false Hwf Hn) as [ps [Hrun [_ Hpar]]].
  rewrite Hrun. cbn [bind].
  assert (Hps : forall p, In p ps <-> In (p, n) (edge_list g) /\ p <> n).
  { intro p. rewrite Hpar, nearest_one, in_adj_pred. reflexivity. }
  destruct (sibling_candidates_spec ord g n Hwf ps) as [cands [Hc Hin]].
  { intros p Hp. apply Hps in Hp. destruct Hp as [He _].
    apply Hwf in He. apply He. }
  rewrite Hc. cbn [bind]. eexists. split; [reflexivity | split; [apply set_iter_NoDup |]].
  intro x. rewrite set_iter_In, Hin. split.
  - intros [Hxn [p [Hp [He Hne]]]]. apply Hps in Hp. destruct Hp as [Hpn Hne'].
    split; auto. exists p. auto.
  - intros [Hxn [p [Hpn [He [Hne Hne']]]]]. split; auto.
    exists p. split; [apply Hps; auto | auto].
Qed.

Lemma siblings_share_parent_witness :
  exists l, siblings insertion_order diamond 2%Z = Ok l /\ NoDup l /\
    forall x, In x l <->
      x <> 2%Z /\
      exists p, In (p, 2%Z) (edge_list diamond) /\ In (p, x) (edge_list diamond) /\
                p <> 2%Z /\ p <> x.
Proof.
  apply (siblings_share_parent insertion_order diamond 2%Z).
  - apply diamond_wf.
  - simpl. auto.
Defined.

(** ** Traversals that yield once *)

Section FirstVisits.
Context {A : Type}.
Variable eqb : A -> A -> bool.
Hypothesis eqb_eq : forall a b, eqb a b = true <-> a = b.

Lemma existsb_eqb_In x l : existsb (eqb x) l = true <-> In x l.
Proof.
  rewrite existsb_exists. split.
  - intros [y [Hy E]]. apply eqb_eq in E. subst. exact Hy.
  - intro H. exists x. split; auto. apply eqb_eq. reflexivity.
Qed.

Lemma first_visits_In l : forall visited x,
  In x (first_visits eqb visited l) <-> In x l /\ ~ In x visited.
Proof.
  induction l as [|y r IH]; intros visited x; simpl.
  - tauto.
  - destruct (existsb (eqb y) visited) eqn:E.
    + apply existsb_eqb_In in E. rewrite IH. split; [tauto |].
      intros [[<- | H] Hn]; tauto.
    + assert (Hy : ~ In y visited).
      { intro H. apply existsb_eqb_In in H. congruence. }
      simpl. rewrite IH. simpl. split.
      * intros [<- | [Hx Hn]]; [tauto |]. split; [tauto |]. intro; apply Hn; auto.
      * intros [[<- | Hx] Hn]; [tauto |].
        destruct (eqb y x) eqn:Eyx.
        -- apply eqb_eq in Eyx. auto.
        -- right. split; auto. intros [<- | H]; [| contradiction].
           assert (eqb y y = true) by (apply eqb_eq; reflexivity). congruence.
Qed.

Lemma first_visits_NoDup l : forall visited, NoDup (first_visits eqb visited l).
Proof.
  induction l as [|y r IH]; intro visited; simpl.
  - constructor.
  - destruct (existsb (eqb y) visited); [apply IH |].
    constructor; [| apply IH].
    intro H. apply first_visits_In in H. apply (proj2 H). left. reflexivity.
Qed.

End FirstVisits.

Lemma edge_eq_eq (a b : edge) : edge_eq a b = true <-> a = b.
Proof.
  destruct a as [a1 a2], b as [b1 b2]. unfold edge_eq. simpl.
  rewrite andb_true_iff, !Z.eqb_eq. split.
  - intros [-> ->]. reflexivity.
  - intro H. inversion H. auto.
Qed.

Section TraceReach.
Variable ord : SetOrder.
Variable V : list node.
Variable nbrs : node -> list node.
Variable G_nbrs : node -> outcome (iterator node).
Hypothesis nbrs_closed : forall u v, In v (nbrs u) -> In u V /\ In v V.
Hypothesis G_nbrs_spec : forall n, In n V -> G_nbrs n = Ok (Iter (nbrs n)).

(** Every pair yielded starts at a node that a current node leads to. *)
Lemma trace_loop_reach fuel : forall curr,
  incl curr V ->
  forall u c, In (u, c) (fst (trace_loop ord fuel G_nbrs curr)) ->
  exists s m, In s curr /\ walk nbrs s u m.
Proof.
  induction fuel as [|fuel IH]; intros curr Hincl u c Hin.
  - destruct curr; simpl in Hin; contradiction.
  - destruct curr as [|n r]; [simpl in Hin; contradiction|].
    rewrite (trace_loop_step ord V nbrs G_nbrs G_nbrs_spec) in Hin by assumption.
    specialize (IH _ (next_gen_incl ord V nbrs nbrs_closed (n :: r)) u c).
    destruct (trace_loop ord fuel G_nbrs _) as [rest st]. cbn [fst] in Hin, IH.
    apply in_app_iff in Hin. destruct Hin as [Hin | Hin].
    + apply in_layer in Hin. exists u, 0. split; [tauto | constructor].
    + destruct (IH Hin) as [s [m [Hs Hw]]].
      apply in_next_gen in Hs. destruct Hs as [p [Hp Hs]].
      exists p, (S m). split; auto. eapply walk_cons; eauto.
Qed.

End TraceReach.

Lemma trace_back_spec g forward u v :
  In u (trace_nbrs g (negb forward) v) <-> In v (trace_nbrs g forward u).
Proof.
  destruct forward; simpl; [apply adj_pred_succ | symmetry; apply adj_pred_succ].
Qed.

Lemma default_source_incl g forward : incl (trace_source g forward None) (node_ids g).
Proof. destruct forward; simpl; [apply founders_incl | apply probands_incl]. Qed.

Lemma default_source_root g forward r :
  In r (node_ids g) -> trace_nbrs g (negb forward) r = [] ->
  In r (trace_source g forward None).
Proof.
  intros Hr Hb. destruct forward; simpl in *.
  - apply is_founder_founders. split; assumption.
  - apply is_proband_probands. split; assumption.
Qed.

Lemma G_trace_node g (forward : bool) n :
  In n (node_ids g) ->
  (if forward then G_successors g else G_predecessors g) n =
  Ok (Iter (trace_nbrs g forward n)).
Proof. intro Hn. rewrite G_trace_def. apply has_node_In in Hn. rewrite Hn. reflexivity. Qed.

(** On a DAG the default sources lead to every node. *)
Lemma default_source_reaches g forward u :
  wf_graph g -> acyclic g -> In u (node_ids g) ->
  reached_from (trace_nbrs g forward) (trace_source g forward None) u.
Proof.
  intros Hwf Hac Hu.
  destruct (extend_to_root (node_ids g) (trace_nbrs g forward)
              (trace_nbrs g (negb forward)) (trace_nbrs_closed g forward Hwf)
              (trace_back_spec g forward) (acyclic_trace_nbrs g forward Hac)
              (length (node_ids g)) 0 u u (Nat.le_sub_l _ _) (walk_nil _ u) Hu)
    as [r [m [Hr [Hb [Hw _]]]]].
  exists r, m. split; auto. apply default_source_root; assumption.
Qed.

(** What [trace_edges] yields on a DAG. *)
Lemma trace_edges_spec ord g forward source :
  wf_graph g -> acyclic g ->
  (forall l, source = Some l -> incl l (nodes g)) ->
  exists ys,
    (forall fuel, length (nodes g) <= fuel ->
       trace_edges ord fuel g forward source = (ys, Ok tt)) /\
    (forall u c, In (u, c) ys <->
       In c (trace_nbrs g forward u) /\
       reached_from (trace_nbrs g forward) (trace_source g forward source) u) /\
    (source = None -> forall u c, In (u, c) ys <-> In c (trace_nbrs g forward u)).
Proof.
  intros Hwf Hac Hsrc.
  set (G := if forward then G_successors g else G_predecessors g).
  set (nbrs := trace_nbrs g forward).
  set (src := trace_source g forward source).
  assert (Hincl : incl (set_iter ord src) (node_ids g)).
  { intros x Hx. apply set_iter_In in Hx. unfold src in Hx.
    destruct source as [l|]; [apply (Hsrc l eq_refl); exact Hx |].
    apply (default_source_incl g forward). exact Hx. }
  pose proof (trace_nbrs_closed g forward Hwf) as Hclosed.
  pose proof (G_trace_node g forward) as HG.
  assert (Hfin : snd (trace_loop ord (length (node_ids g)) G (set_iter ord src)) = Ok tt).
  { apply (trace_loop_finishes ord (node_ids g) nbrs G Hclosed HG _ _
             (length (node_ids g))); auto.
    apply far_nodes; auto. apply acyclic_trace_nbrs. exact Hac. }
  assert (Hreach : forall u c,
             In (u, c) (fst (trace_loop ord (length (node_ids g)) G (set_iter ord src))) <->
             In c (nbrs u) /\ reached_from nbrs src u).
  { intros u c. split.
    - intro Hin. split.
      + eapply (trace_loop_edges ord (node_ids g) nbrs G Hclosed HG); eauto.
      + destruct (trace_loop_reach ord (node_ids g) nbrs G Hclosed HG _ _ Hincl u c Hin)
          as [s [m [Hs Hw]]].
        exists s, m. split; auto. apply set_iter_In in Hs. exact Hs.
    - intros [Hc [s [m [Hs Hw]]]].
      apply (trace_loop_covers ord (node_ids g) nbrs G Hclosed HG _ _ Hincl Hfin s u m c);
        auto.
      apply set_iter_In. exact Hs. }
  exists (fst (trace_loop ord (length (node_ids g)) G (set_iter ord src))).
  split; [| split].
  - intros fuel Hfuel. rewrite trace_edges_unfold. fold G src.
    rewrite (trace_loop_fuel_mono ord (node_ids g) nbrs G Hclosed HG
               (length (node_ids g))); auto.
    destruct (trace_loop ord _ G _) as [ys st]. simpl in *. rewrite Hfin. reflexivity.
  - exact Hreach.
  - intros -> u c. rewrite Hreach. split; [tauto |]. intro Hc. split; auto.
    apply default_source_reaches; auto. apply Hclosed in Hc. tauto.
Qed.

(** X9.  [trace_edges] on a DAG, in either direction, from the default
    sources or from given nodes of the graph: the generator is exhausted, and
    the pairs it yields are the pairs [(node, neighbor)] (child when going
    forward, parent when going backward) whose [node] can be reached from a
    source; from the default sources these are all the edges of the graph. *)
Theorem trace_edges_yields (ord : SetOrder) (g : DiGraph) (forward : bool)
        (source : option (list node)) :
  wf_graph g -> acyclic g ->
  (forall l, source = Some l -> incl l (nodes g)) ->
  exists ys,
    (forall fuel, length (nodes g) <= fuel ->
       trace_edges ord fuel g forward source = (ys, Ok tt)) /\
    (forall u c, In (u, c) ys <->
       In c (trace_nbrs g forward u) /\
       reached_from (trace_nbrs g forward) (trace_source g forward source) u) /\
    (source = None -> forall u c, In (u, c) ys <-> In c (trace_nbrs g forward u)).
Proof. apply trace_edges_spec. Qed.

Lemma trace_edges_yields_witness :
  exists ys,
    (forall fuel, length (nodes diamond) <= fuel ->
       trace_edges insertion_order fuel diamond false (Some [4%Z]) = (ys, Ok tt)) /\
    (forall u c, In (u, c) ys <->
       In c (trace_nbrs diamond false u) /\
       reached_from (trace_nbrs diamond false) (trace_source diamond false (Some [4%Z])) u) /\
    (Some [4%Z] = None -> forall u c, In (u, c) ys <-> In c (trace_nbrs diamond false u)).
Proof.
  apply (trace_edges_yields insertion_order diamond false (Some [4%Z])).
  - apply diamond_wf.
  - apply diamond_acyclic.
  - intros l H x Hx. inversion H; subst. destruct Hx as [<- | []]. simpl. auto.
Defined.

Lemma trace_source_some g forward source :
  trace_source g forward (Some (trace_source g forward source)) =
  trace_source g forward source.
Proof. reflexivity. Qed.

Lemma iter_edges_spec ord g forward source :
  wf_graph g -> acyclic g ->
  (forall l, source = Some l -> incl l (nodes g)) ->
  exists ys,
    (forall fuel, length (nodes g) <= fuel ->
       iter_edges ord fuel g forward source = (ys, Ok tt)) /\
    NoDup ys /\
    (forall u c, In (u, c) ys <->
       In c (trace_nbrs g forward u) /\
       reached_from (trace_nbrs g forward) (trace_source g forward source) u).
Proof.
  intros Hwf Hac Hsrc.
  destruct (trace_edges_spec ord g forward (Some (trace_source g forward source)) Hwf Hac)
    as [ys [Hrun [Hin _]]].
  { intros l E. inversion E; subst. destruct source as [l|]; simpl.
    - apply Hsrc. reflexivity.
    - apply default_source_incl. }
  exists (first_visits edge_eq [] ys). split; [| split].
  - intros fuel Hfuel. unfold iter_edges. fold (trace_source g forward source).
    rewrite (Hrun fuel Hfuel). reflexivity.
  - apply first_visits_NoDup. exact edge_eq_eq.
  - intros u c. rewrite (first_visits_In edge_eq edge_eq_eq), Hin. simpl. tauto.
Qed.

(** X10.  [iter_edges] on a DAG, in either direction, from the default
    sources or from given nodes of the graph: the generator is exhausted, no
    pair is yielded twice, and the pairs are those of [trace_edges]; from the
    default sources every edge of the graph is yielded exactly once, as
    [(parent, child)] going forward and as [(child, parent)] going backward. *)
Theorem iter_edges_once (ord : SetOrder) (g : DiGraph) (forward : bool)
        (source : option (list node)) :
  wf_graph g -> acyclic g ->
  (forall l, source = Some l -> incl l (nodes g)) ->
  exists ys,
    (forall fuel, length (nodes g) <= fuel ->
       iter_edges ord fuel g forward source = (ys, Ok tt)) /\
    NoDup ys /\
    (forall u c, In (u, c) ys <->
       In c (trace_nbrs g forward u) /\
       reached_from (trace_nbrs g forward) (trace_source g forward source) u) /\
    (source = None -> forall u c,
       In (u, c) ys <-> In (if forward then (u, c) else (c, u)) (edge_list g)).
Proof.
  intros Hwf Hac Hsrc.
  destruct (iter_edges_spec ord g forward source Hwf Hac Hsrc) as [ys [Hrun [Hnd Hin]]].
  exists ys. split; [exact Hrun | split; [exact Hnd | split; [exact Hin |]]].
  intros -> u c. rewrite Hin.
  assert (Hedge : In c (trace_nbrs g forward u) <->
                  In (if forward then (u, c) else (c, u)) (edge_list g)).
  { destruct forward; simpl; [apply in_adj_succ | apply in_adj_pred]. }
  rewrite <- Hedge. split; [tauto |]. intro Hc. split; auto.
  apply default_source_reaches; auto.
  apply (trace_nbrs_closed g forward Hwf) in Hc. tauto.
Qed.

Lemma iter_edges_once_witness :
  exists ys,
    (forall fuel, length (nodes diamond) <= fuel ->
       iter_edges insertion_order fuel diamond true None = (ys, Ok tt)) /\
    NoDup ys /\
    (forall u c, In (u, c) ys <->
       In c (trace_nbrs diamond true u) /\
       reached_from (trace_nbrs diamond true) (trace_source diamond true None) u) /\
    (@None (list node) = None ->
     forall u c, In (u, c) ys <-> In (u, c) (edge_list diamond)).
Proof.
  apply (iter_edges_once insertion_order diamond true None).
  - apply diamond_wf.
  - apply diamond_acyclic.
  - intros l H. discriminate H.
Defined.

(** X11.  [iter_nodes] on a DAG, in either direction, from the default
    sources or from given nodes of the graph: the generator is exhausted, no
    node is yielded twice, and the nodes yielded are those that a source leads
    to, the sources included; from the default sources every node of the graph
    is yielded exactly once. *)
Theorem iter_nodes_once (ord : SetOrder) (g : DiGraph) (forward : bool)
        (source : option (list node)) :
  wf_graph g -> acyclic g ->
  (forall l, source = Some l -> incl l (nodes g)) ->
  exists ns,
    (forall fuel, length (nodes g) <= fuel ->
       iter_nodes ord fuel g forward source = (ns, Ok tt)) /\
    NoDup ns /\
    (forall x, In x ns <->
       reached_from (trace_nbrs g forward) (trace_source g forward source) x) /\
    (source = None -> forall x, In x ns <-> In x (nodes g)).
Proof.
  intros Hwf Hac Hsrc.
  set (src := trace_source g forward source).
  assert (Hincl : incl src (nodes g)).
  { unfold src. destruct source as [l|]; simpl.
    - apply Hsrc. reflexivity.
    - apply default_source_incl. }
  destruct (iter_edges_spec ord g forward (Some src) Hwf Hac) as [es [Hrun [_ Hin]]].
  { intros l E. inversion E; subst. exact Hincl. }
  set (first := first_visits Z.eqb [] src).
  set (ns := first ++ first_visits Z.eqb (rev first) (map snd es)).
  assert (Hfirst : forall x, In x first <-> In x src).
  { intro x. unfold first. rewrite (first_visits_In Z.eqb Z.eqb_eq). simpl. tauto. }
  assert (Hns : forall x, In x ns <-> reached_from (trace_nbrs g forward) src x).
  { intro x. unfold ns.
    rewrite in_app_iff, (first_visits_In Z.eqb Z.eqb_eq), <- in_rev, Hfirst, in_map_iff.
    split.
    - intros [Hx | [[[u c] [Heq Huc]] _]].
      + exists x, 0. split; [exact Hx | constructor].
      + simpl in Heq. subst c. apply Hin in Huc.
        destruct Huc as [Hc [s [m [Hs Hw]]]].
        exists s, (S m). split; [exact Hs |]. eapply walk_snoc; eauto.
    - intros [s [m [Hs Hw]]].
      destruct (in_dec Z.eq_dec x src) as [Hx | Hx]; [left; exact Hx | right].
      split; [| exact Hx].
      destruct m as [|m]; [apply walk_zero in Hw; subst; contradiction |].
      apply walk_snoc_inv in Hw. destruct Hw as [u [Hw Hc]].
      exists (u, x). split; [reflexivity |]. apply Hin. split; [exact Hc |].
      exists s, m. split; assumption. }
  exists ns. split; [| split; [| split]].
  - intros fuel Hfuel. unfold iter_nodes. fold (trace_source g forward source). fold src.
    rewrite (Hrun fuel Hfuel). reflexivity.
  - unfold ns. apply NoDup_app.
    + apply first_visits_NoDup. exact Z.eqb_eq.
    + apply first_visits_NoDup. exact Z.eqb_eq.
    + intros x Hx Hx'. apply (first_visits_In Z.eqb Z.eqb_eq) in Hx'.
      apply (proj2 Hx'). apply -> in_rev. exact Hx.
  - exact Hns.
  - intros E x. rewrite Hns. split.
    + intros [s [m [Hs Hw]]]. apply Hincl in Hs.
      destruct m as [|m]; [apply walk_zero in Hw; subst; exact Hs |].
      apply walk_snoc_inv in Hw. destruct Hw as [u [_ Hc]].
      apply (trace_nbrs_closed g forward Hwf) in Hc. apply Hc.
    + intro Hx. unfold src. rewrite E. apply default_source_reaches; auto.
Qed.

Lemma iter_nodes_once_witness :
  exists ns,
    (forall fuel, length (nodes diamond) <= fuel ->
       iter_nodes insertion_order fuel diamond false None = (ns, Ok tt)) /\
    NoDup ns /\
    (forall x, In x ns <->
       reached_from (trace_nbrs diamond false) (trace_source diamond false None) x) /\
    (@None (list node) = None -> forall x, In x ns <-> In x (nodes diamond)).
Proof.
  apply (iter_nodes_once insertion_order diamond false None).
  - apply diamond_wf.
  - apply diamond_acyclic.
  - intros l H. discriminate H.
Defined.

(** ** The table of depths *)

(** X12.  The dictionary that [infer_depth] returns on a DAG, in either
    direction, has one entry for each node that has a parent or a child and
    none for the others: a node without any edge is absent from it. *)
Theorem infer_depth_entries (ord : SetOrder) (g : DiGraph) (forward : bool) :
  wf_graph g -> acyclic g ->
  exists depth,
    (forall fuel, length (nodes g) <= fuel ->
                  infer_depth ord fuel g forward = Ok depth) /\
    NoDup (keys depth) /\
    (forall x, In x (keys depth) <->
               exists y, In (x, y) (edge_list g) \/ In (y, x) (edge_list g)).
Proof.
  intros Hwf Hac.
  destruct (trace_edges_spec ord g forward None Hwf Hac) as [ys [Hrun [_ Hin]]].
  { intros l H. discriminate H. }
  specialize (Hin eq_refl).
  assert (Hedge : forall u c, In c (trace_nbrs g forward u) <->
                              In (if forward then (u, c) else (c, u)) (edge_list g)).
  { intros u c. destruct forward; simpl; [apply in_adj_succ | apply in_adj_pred]. }
  exists (fold_left relax ys []). split; [| split].
  - intros fuel Hfuel. unfold infer_depth. rewrite (Hrun fuel Hfuel). reflexivity.
  - apply fold_relax_NoDup. constructor.
  - intro x. rewrite fold_relax_keys. simpl. split.
    + intros [[] | [u [c [Huc Hx]]]]. apply Hin, Hedge in Huc.
      destruct forward, Hx as [-> | ->]; eauto.
    + intros [y Hy]. right.
      destruct forward.
      * destruct Hy as [Hy | Hy]; [exists x, y | exists y, x];
          (split; [apply Hin, (Hedge _ _); exact Hy | auto]).
      * destruct Hy as [Hy | Hy]; [exists y, x | exists x, y];
          (split; [apply Hin, (Hedge _ _); exact Hy | auto]).
Qed.

Lemma infer_depth_entries_witness :
  exists depth,
    (forall fuel, length (nodes diamond) <= fuel ->
                  infer_depth insertion_order fuel diamond false = Ok depth) /\
    NoDup (keys depth) /\
    (forall x, In x (keys depth) <->
               exists y, In (x, y) (edge_list diamond) \/ In (y, x) (edge_list diamond)).
Proof.
  apply (infer_depth_entries insertion_order diamond false).
  - apply diamond_wf.
  - apply diamond_acyclic.
Defined.

(** X13.  [infer_depth] on a graph with a cycle: when a founder (a proband,
    going backward) leads into a cycle the call never returns, and when the
    graph has no founder (no proband) at all it returns the empty dictionary
    at once. *)
Theorem infer_depth_cyclic (ord : SetOrder) (g : DiGraph) (forward : bool) :
  wf_graph g ->
  (reaches_cycle (trace_nbrs g forward) (trace_source g forward None) ->
   forall fuel, infer_depth ord fuel g forward = OutOfFuel) /\
  (trace_source g forward None = [] ->
   forall fuel, infer_depth ord fuel g forward = Ok []).
Proof.
  intro Hwf. split.
  - intros [s [c [n [m [Hs [Hw Hc]]]]]] fuel.
    pose proof (trace_loop_runs_on ord g (trace_nbrs g forward) _ (G_trace_def g forward)
                  (trace_nbrs_closed g forward Hwf) (trace_source g forward None)
                  s c n m (default_source_incl g forward) Hs Hw Hc fuel) as Hrun.
    unfold infer_depth. rewrite trace_edges_unfold.
    destruct (trace_loop ord fuel _ _) as [ys st]. simpl in Hrun. subst st.
    reflexivity.
  - intros E fuel. unfold infer_depth. rewrite trace_edges_unfold, E, set_iter_nil.
    destruct fuel; reflexivity.
Qed.

Lemma infer_depth_cyclic_witness :
  (forall fuel, infer_depth insertion_order fuel lasso true = OutOfFuel) /\
  (forall fuel, infer_depth insertion_order fuel two_cycle true = Ok []).
Proof.
  split.
  - apply (proj1 (infer_depth_cyclic insertion_order lasso true
                    (wf_graphb_sound lasso eq_refl))).
    exact lasso_reaches_cycle.
  - apply (proj2 (infer_depth_cyclic insertion_order two_cycle true
                    (wf_graphb_sound two_cycle eq_refl))).
    reflexivity.
Defined.

(** ** Counting paths to given targets *)

Lemma has_edge_node g n : wf_graph g -> has_edge g n -> In n (node_ids g).
Proof.
  intros Hwf [u [c [He Hn]]]. apply Hwf in He. destruct Hn as [-> | ->]; tauto.
Qed.

(** X14.  [get_num_paths_to_target(target)] on a DAG, for the default targets
    or given ones: the call returns; the nodes with an entry are those that
    have an edge and lead to a target; the count kept for a node and a target
    is the number of paths between them that meet no other target on the way;
    and when no target has a child it is the number of all the directed paths
    from the node to the target. *)
Theorem paths_to_target_counts (ord : SetOrder) (g : DiGraph)
        (target : option (list node)) :
  wf_graph g -> acyclic g ->
  exists pts,
    (forall fuel, length (nodes g) <= fuel ->
                  get_num_paths_to_target ord fuel g target true = Ok pts) /\
    NoDup (keys pts) /\
    (forall n, In n (keys pts) <->
               has_edge g n /\
               exists t, 0 < stopping_paths g (targets_of g target) n t) /\
    (forall n t, In n (keys pts) ->
                 paths_to pts n t = stopping_paths g (targets_of g target) n t) /\
    ((forall x, In x (targets_of g target) -> adj_succ g x = []) ->
     forall n t, In n (keys pts) -> In t (targets_of g target) ->
       exists l, NoDup l /\ (forall p, In p l <-> path g n t p) /\
                 paths_to pts n t = length l).
Proof.
  intros Hwf Hac.
  destruct (stopping_paths_table ord g target Hwf Hac) as [pts [Hrun [Hnd [Hkeys Hpts]]]].
  assert (Hcount : forall n t, In n (keys pts) ->
             paths_to pts n t = stopping_paths g (targets_of g target) n t).
  { intros n t Hn. apply dict_get_In_keys in Hn. unfold paths_to.
    destruct (dict_get pts n) as [c|] eqn:E; [| congruence].
    apply (Hpts n c E). }
  exists pts. split; [exact Hrun | split; [exact Hnd | split; [exact Hkeys |]]].
  split; [exact Hcount |].
  intros Hleaf n t Hn Ht.
  assert (HnV : In n (node_ids g)).
  { apply Hkeys in Hn. apply has_edge_node; tauto. }
  destruct (num_paths_enumerates g n t Hwf Hac HnV) as [l [Hl [Hp Hlen]]].
  exists l. split; [exact Hl | split; [exact Hp |]].
  rewrite (Hcount n t Hn), (stopping_paths_leaves g _ n t Hleaf).
  apply mem_target in Ht. rewrite Ht. symmetry. exact Hlen.
Qed.

Lemma paths_to_target_counts_witness :
  exists pts,
    (forall fuel, length (nodes diamond) <= fuel ->
       get_num_paths_to_target insertion_order fuel diamond (Some [4%Z]) true = Ok pts) /\
    NoDup (keys pts) /\
    (forall n, In n (keys pts) <->
               has_edge diamond n /\
               exists t, 0 < stopping_paths diamond [4%Z] n t) /\
    (forall n t, In n (keys pts) ->
                 paths_to pts n t = stopping_paths diamond [4%Z] n t) /\
    ((forall x, In x [4%Z] -> adj_succ diamond x = []) ->
     forall n t, In n (keys pts) -> In t [4%Z] ->
       exists l, NoDup l /\ (forall p, In p l <-> path diamond n t p) /\
                 paths_to pts n t = length l).
Proof.
  apply (paths_to_target_counts insertion_order diamond (Some [4%Z])).
  - apply diamond_wf.
  - apply diamond_acyclic.
Defined.

Lemma delete_all_present {V} : forall (target : list node) (pts : list (node * V)),
  NoDup (keys pts) -> NoDup target -> incl target (keys pts) ->
  exists pts', delete_all pts target = Ok pts' /\ NoDup (keys pts') /\
    (forall x, In x (keys pts') <-> In x (keys pts) /\ ~ In x target) /\
    (forall x, ~ In x target -> dict_get pts' x = dict_get pts x).
Proof.
  induction target as [|t r IH]; intros pts Hnd Ht Hincl.
  - exists pts. split; [reflexivity | split; [exact Hnd | split]]; auto.
    intro x. simpl. tauto.
  - inversion Ht as [|? ? Htr Hr]; subst. cbn [delete_all].
    destruct (dict_del_present pts t Hnd (Hincl t (or_introl eq_refl)))
      as [d' [Hdel [Hnd' [Hk Hg]]]].
    rewrite Hdel. cbn [bind].
    destruct (IH d' Hnd' Hr) as [pts' [Hrun [Hnd'' [Hk' Hg']]]].
    { intros x Hx. apply Hk. split; [apply Hincl; right; exact Hx |].
      intros ->. contradiction. }
    exists pts'. split; [exact Hrun | split; [exact Hnd'' | split]].
    + intro x. rewrite Hk', Hk. simpl. intuition.
    + intros x Hx. rewrite Hg' by (intro; apply Hx; right; assumption).
      apply Hg. intros ->. apply Hx. left. reflexivity.
Qed.

Lemma delete_all_missing {V} : forall (target : list node) (pts : list (node * V)),
  NoDup (keys pts) -> ~ (NoDup target /\ incl target (keys pts)) ->
  delete_all pts target = Raise KeyError.
Proof.
  induction target as [|t r IH]; intros pts Hnd Hbad.
  - exfalso. apply Hbad. split; [constructor | intros x []].
  - cbn [delete_all].
    destruct (in_dec Z.eq_dec t (keys pts)) as [Hin | Hout].
    + destruct (dict_del_present pts t Hnd Hin) as [d' [Hdel [Hnd' [Hk _]]]].
      rewrite Hdel. cbn [bind]. apply IH; [exact Hnd' |].
      intros [Hr Hincl]. apply Hbad. split.
      * constructor; [| exact Hr]. intro Htr. apply Hincl, Hk in Htr. tauto.
      * intros x [<- | Hx]; [exact Hin |]. apply Hincl, Hk in Hx. tauto.
    + rewrite (dict_del_missing pts t Hout). reflexivity.
Qed.

(** X15.  [get_num_paths_to_target(target, include_target=False)] on a DAG:
    when the targets are distinct and each has an edge, the result is the
    table of the default call without the targets' own entries; otherwise, as
    with a target that has no parent and no child or one that is named twice,
    the call raises [KeyError]. *)
Theorem exclude_target_entries (ord : SetOrder) (g : DiGraph)
        (target : option (list node)) :
  wf_graph g -> acyclic g ->
  exists full,
    (forall fuel, length (nodes g) <= fuel ->
       get_num_paths_to_target ord fuel g target true = Ok full) /\
    ((NoDup (targets_of g target) /\
      forall t, In t (targets_of g target) -> has_edge g t) ->
     exists pts,
       (forall fuel, length (nodes g) <= fuel ->
          get_num_paths_to_target ord fuel g target false = Ok pts) /\
       NoDup (keys pts) /\
       (forall x, In x (keys pts) <-> In x (keys full) /\ ~ In x (targets_of g target)) /\
       (forall x, ~ In x (targets_of g target) -> dict_get pts x = dict_get full x)) /\
    (~ (NoDup (targets_of g target) /\
        forall t, In t (targets_of g target) -> has_edge g t) ->
     forall fuel, length (nodes g) <= fuel ->
       get_num_paths_to_target ord fuel g target false = Raise KeyError).
Proof.
  intros Hwf Hac.
  destruct (stopping_paths_table ord g target Hwf Hac) as [full [Hrun [Hnd [Hkeys _]]]].
  assert (Hentry : forall t, In t (targets_of g target) ->
                             (In t (keys full) <-> has_edge g t)).
  { intros t Ht. rewrite Hkeys. split; [tauto |]. intro He. split; [exact He |].
    exists t. rewrite (stopping_paths_unfold g _ t t Hwf Hac (has_edge_node g t Hwf He)).
    apply mem_target in Ht. rewrite Ht, Z.eqb_refl. lia. }
  exists full. split; [exact Hrun | split].
  - intros [Hts Hedges].
    destruct (delete_all_present (targets_of g target) full Hnd Hts)
      as [pts [Hdel Hrest]].
    { intros t Ht. apply Hentry; auto. }
    exists pts. split; [| exact Hrest].
    intros fuel Hfuel. rewrite exclude_target, (Hrun fuel Hfuel). exact Hdel.
  - intros Hbad fuel Hfuel. rewrite exclude_target, (Hrun fuel Hfuel). cbn [bind].
    apply delete_all_missing; [exact Hnd |].
    intros [Hts Hincl]. apply Hbad. split; [exact Hts |].
    intros t Ht. apply Hentry; auto.
Qed.

Lemma exclude_target_entries_witness :
  get_num_paths_to_target insertion_order 1 loner None false = Raise KeyError.
Proof.
  destruct (exclude_target_entries insertion_order loner None
              (wf_graphb_sound loner eq_refl)
              (ranked_acyclic (fun _ => 0) loner eq_refl)) as [full [_ [_ Hraise]]].
  apply Hraise.
  - intros [_ Hedges].
    destruct (Hedges 1%Z (or_introl eq_refl)) as [u [c [[] _]]].
  - simpl. lia.
Defined.

(** ** Entries of the similarity matrix that stay zero *)

Section SimilarityZeros.
Context {R : Type} `{Scalar R}.
Variable g : DiGraph.
Hypothesis Hwf : wf_graph g.
Hypothesis Hrange : forall z, In z (nodes g) <-> (0 <= z < Z.of_nat (n_individuals g))%Z.

(** The test [any(self.graph.predecessors(b))] fails. *)
Definition test_fails (b : nat) : Prop :=
  py_any (Iter (adj_pred g (Z.of_nat b))) = false.

(** Off the diagonal nothing has been written where the test fails for the
    larger index. *)
Definition zeros_kept (K : ndarray R) : Prop :=
  shape K = n_individuals g /\
  forall a b, a <> b -> test_fails (Nat.max a b) -> cell K a b = zero.

Lemma zeros_kept_cell i j K :
  i < j -> j < n_individuals g -> zeros_kept K ->
  exists K', similarity_cell g i j K = Ok K' /\ zeros_kept K'.
Proof.
  intros Hij Hj [Hshape Hz].
  destruct (similarity_cell_spec g Hwf Hrange i j K Hshape ltac:(lia) Hj)
    as [K' [Hrun [Hsh Hw]]].
  exists K'. split; [exact Hrun |]. split; [congruence |].
  intros a b Hab Hfail.
  destruct Hw as [[_ Hsame] | [Hany [p [_ Hnew]]]].
  - rewrite Hsame. apply Hz; assumption.
  - rewrite Hnew.
    destruct (Nat.eqb_spec a i) as [-> | Hai]; destruct (Nat.eqb_spec b j) as [-> | Hbj];
      cbn [andb orb].
    + unfold test_fails in Hfail. rewrite Nat.max_r in Hfail by lia. congruence.
    + destruct (Nat.eqb_spec i j); [lia |]. cbn [andb]. apply Hz; assumption.
    + destruct (Nat.eqb_spec a j) as [-> | Haj]; [contradiction |].
      cbn [andb]. apply Hz; assumption.
    + destruct (Nat.eqb_spec a j) as [-> | Haj]; destruct (Nat.eqb_spec b i) as [-> | Hbi];
        cbn [andb]; try (apply Hz; assumption).
      unfold test_fails in Hfail. rewrite Nat.max_l in Hfail by lia. congruence.
Qed.

Lemma zeros_kept_row i K :
  i < n_individuals g -> zeros_kept K ->
  exists K', similarity_row g (n_individuals g) i K = Ok K' /\ zeros_kept K'.
Proof.
  intros Hi [Hshape Hz].
  unfold similarity_row, np_set.
  rewrite Hshape, !(np_index_nat g i Hi). cbn [bind].
  apply (for_each_seq (similarity_cell g i) (fun _ K => zeros_kept K)
           (n_individuals g - (i + 1)) (i + 1)).
  - split; [reflexivity |]. intros a b Hab Hfail. cbn [cell].
    destruct (Nat.eqb_spec a i); destruct (Nat.eqb_spec b i); cbn [andb];
      try (apply Hz; assumption). lia.
  - intros k K2 Hk HK2. apply zeros_kept_cell; [lia | lia | exact HK2].
Qed.

Lemma similarity_zeros :
  exists K, similarity g = Ok K /\ zeros_kept K.
Proof.
  unfold similarity, py_range. rewrite Nat.sub_0_r.
  apply (for_each_seq (similarity_row g (n_individuals g)) (fun _ K => zeros_kept K)
           (n_individuals g) 0 (np_zeros (n_individuals g))).
  - split; [reflexivity |]. intros. reflexivity.
  - intros k K Hk HK. apply zeros_kept_row; [lia | exact HK].
Qed.

End SimilarityZeros.

(** X16.  On a graph whose [n] nodes are the integers [0..n-1], the matrix of
    [similarity()] is 0 at [K[i,j]] and [K[j,i]] for every [i < j] such that
    [j] has no parent other than node 0: a founder [j] is unrelated to every
    node before it, and so is a child of node 0 alone, its parent included. *)
Theorem similarity_zero_entries {R : Type} `{Scalar R} (g : DiGraph) :
  wf_graph g ->
  (forall z, In z (nodes g) <-> (0 <= z < Z.of_nat (n_individuals g))%Z) ->
  exists K,
    similarity g = Ok K /\
    forall i j, i < j -> j < n_individuals g ->
      (forall p, In (p, Z.of_nat j) (edge_list g) -> p = 0%Z) ->
      cell K i j = zero /\ cell K j i = zero.
Proof.
  intros Hwf Hrange.
  destruct (similarity_zeros g Hwf Hrange) as [K [Hrun [_ Hz]]].
  exists K. split; [exact Hrun |].
  intros i j Hij Hj Hpar.
  assert (Hfail : test_fails g j).
  { apply py_any_false. intros p Hp. apply Hpar. apply in_adj_pred. exact Hp. }
  split; apply Hz; try lia.
  - rewrite Nat.max_r by lia. exact Hfail.
  - rewrite Nat.max_l by lia. exact Hfail.
Qed.

Lemma similarity_zero_entries_witness :
  exists K : ndarray Q,
    similarity lineage = Ok K /\
    forall i j, i < j -> j < n_individuals lineage ->
      (forall p, In (p, Z.of_nat j) (edge_list lineage) -> p = 0%Z) ->
      cell K i j = zero /\ cell K j i = zero.
Proof.
  apply (similarity_zero_entries lineage).
  - apply wf_graphb_sound. reflexivity.
  - intro z. simpl. lia.
Defined.

(** ** Node names that the similarity matrix needs *)

(** A computation that returns, or raises one of the two exceptions that the
    loop of [similarity] can meet. *)
Definition returns_or_raises {A} (o : outcome A) : Prop :=
  (exists a, o = Ok a) \/ o = Raise NetworkXError \/ o = Raise IndexError.

Lemma returns_or_raises_bind {A B} (o : outcome A) (k : A -> outcome B) :
  returns_or_raises o -> (forall a, returns_or_raises (k a)) ->
  returns_or_raises (bind o k).
Proof.
  intros [[a ->] | [-> | ->]] Hk; cbn [bind]; [apply Hk | |];
    unfold returns_or_raises; auto.
Qed.

Lemma np_index_outcome n i : returns_or_raises (np_index n i).
Proof.
  unfold np_index, returns_or_raises.
  destruct ((0 <=? i) && (i <? Z.of_nat n))%Z%bool; [eauto |].
  destruct ((- Z.of_nat n <=? i) && (i <? 0))%Z%bool; eauto.
Qed.

Section SimilarityNames.
Context {R : Type} `{Scalar R}.
Variable g : DiGraph.

Lemma np_get_outcome (K : ndarray R) i j : returns_or_raises (np_get K i j).
Proof.
  unfold np_get. apply returns_or_raises_bind; [apply np_index_outcome |].
  intro a. apply returns_or_raises_bind; [apply np_index_outcome |].
  intro b. left. eauto.
Qed.

Lemma np_set_outcome (K : ndarray R) i j v : returns_or_raises (np_set K i j v).
Proof.
  unfold np_set. apply returns_or_raises_bind; [apply np_index_outcome |].
  intro a. apply returns_or_raises_bind; [apply np_index_outcome |].
  intro b. left. eauto.
Qed.

Lemma similarity_cell_outcome i j (K : ndarray R) :
  returns_or_raises (similarity_cell g i j K).
Proof.
  unfold similarity_cell, G_predecessors.
  destruct (has_node g (Z.of_nat j)); cbn [bind]; [| right; left; reflexivity].
  destruct (py_any (Iter (adj_pred g (Z.of_nat j)))) eqn:Hany; [| left; eauto].
  destruct (adj_pred g (Z.of_nat j)) as [|p rest]; [discriminate Hany |].
  unfold py_next. cbn [items bind].
  apply returns_or_raises_bind; [apply np_get_outcome |]. intro x.
  apply returns_or_raises_bind; [apply np_set_outcome |]. intro K1.
  apply returns_or_raises_bind; [apply np_get_outcome |]. intro y.
  apply np_set_outcome.
Qed.

Lemma similarity_cell_absent i j (K : ndarray R) :
  ~ In (Z.of_nat j) (nodes g) -> similarity_cell g i j K = Raise NetworkXError.
Proof.
  intro Hj. unfold similarity_cell, G_predecessors.
  destruct (has_node g (Z.of_nat j)) eqn:E; [| reflexivity].
  apply has_node_In in E. contradiction.
Qed.

Lemma for_each_raises {S : Type} (body : nat -> S -> outcome S) (j : nat) :
  (forall k s, returns_or_raises (body k s)) ->
  (forall s, body j s = Raise NetworkXError) ->
  forall l s, In j l ->
    for_each l body s = Raise NetworkXError \/ for_each l body s = Raise IndexError.
Proof.
  intros Hbody Hj. induction l as [|k r IH]; intros s Hin; [contradiction |].
  cbn [for_each].
  destruct (Nat.eq_dec k j) as [-> | Hne].
  - rewrite Hj. left. reflexivity.
  - destruct Hin as [-> | Hin]; [contradiction |].
    destruct (Hbody k s) as [[s' ->] | [-> | ->]]; cbn [bind]; auto.
Qed.

Lemma similarity_raises j :
  1 <= j < n_individuals g -> ~ In (Z.of_nat j) (nodes g) ->
  similarity g = Raise NetworkXError \/ similarity g = Raise IndexError.
Proof.
  intros Hj Hout. unfold similarity, py_range. rewrite Nat.sub_0_r.
  destruct (n_individuals g) as [|n] eqn:En; [lia |].
  cbn [seq for_each].
  assert (Hrow : similarity_row g (S n) 0 (np_zeros (S n)) = Raise NetworkXError \/
                 similarity_row g (S n) 0 (np_zeros (S n)) = Raise IndexError).
  { unfold similarity_row, np_set, np_index. cbn [np_zeros shape bind].
    destruct (Z.leb_spec 0 (Z.of_nat 0)); [| lia].
    destruct (Z.ltb_spec (Z.of_nat 0) (Z.of_nat (S n))); [| lia].
    cbn [andb bind].
    apply for_each_raises with (j := j).
    - apply similarity_cell_outcome.
    - intro K. apply similarity_cell_absent. exact Hout.
    - unfold py_range. apply in_seq. lia. }
  destruct Hrow as [E | E]; rewrite E; [left | right]; reflexivity.
Qed.

End SimilarityNames.

(** X17.  [similarity()] needs the nodes to be named [0..n-1]: on a graph of
    [n] nodes in which some integer [j] with [1 <= j < n] is not a node, the
    call raises, with networkx's [NetworkXError] for the missing node or with
    an [IndexError] met before it. *)
Theorem similarity_missing_name {R : Type} `{Scalar R} (g : DiGraph) (j : nat) :
  1 <= j < n_individuals g -> ~ In (Z.of_nat j) (nodes g) ->
  similarity g = Raise NetworkXError \/ similarity g = Raise IndexError.
Proof. apply similarity_raises. Qed.

Lemma similarity_missing_name_witness :
  similarity (R := Q) (graph_of [0; 2]%Z []) = Raise NetworkXError \/
  similarity (R := Q) (graph_of [0; 2]%Z []) = Raise IndexError.
Proof.
  apply (similarity_missing_name (graph_of [0; 2]%Z []) 1).
  - change (1 <= 1 < 2). lia.
  - simpl. intros [H0 | [H0 | []]]; discriminate H0.
Defined.

(** ** Node attributes and generations *)

Lemma nx_get_node_attributes_keys g name n :
  In n (keys (nx_get_node_attributes g name)) -> In n (node_ids g).
Proof.
  unfold nx_get_node_attributes, node_ids, keys.
  induction (node_data g) as [|[k d] r IH]; simpl; [tauto |].
  rewrite map_app, in_app_iff. intros [Hin | Hin]; [| right; apply IH; exact Hin].
  destruct (attr_get d name); simpl in Hin; [| contradiction].
  destruct Hin as [-> | []]. left. reflexivity.
Qed.

Lemma nx_get_node_attributes_NoDup g name :
  NoDup (node_ids g) -> NoDup (keys (nx_get_node_attributes g name)).
Proof.
  pose proof (nx_get_node_attributes_keys
                {| node_data := node_data g; edge_list := [] |} name) as Hk.
  unfold nx_get_node_attributes, node_ids, keys in *. cbn [node_data] in Hk.
  revert Hk. induction (node_data g) as [|[k d] r IH]; simpl; intros Hk Hnd;
    [constructor |].
  inversion Hnd as [|? ? Hn Hr]; subst.
  assert (Hrest : forall n, In n (map fst (flat_map
             (fun nd => match attr_get (snd nd) name with
                        | Some v => [(fst nd, v)]
                        | None => []
                        end) r)) -> In n (map fst r)).
  { clear -r. induction r as [|[k' d'] r IH]; simpl; [tauto |].
    intro n. rewrite map_app, in_app_iff. intros [Hin | Hin]; [| right; apply IH; exact Hin].
    destruct (attr_get d' name); simpl in Hin; [| contradiction].
    destruct Hin as [-> | []]. left. reflexivity. }
  rewrite map_app. apply NoDup_app.
  - destruct (attr_get d name); simpl; [| constructor].
    constructor; [simpl; tauto | constructor].
  - apply IH; auto.
  - intros a Ha Hb. destruct (attr_get d name); simpl in Ha; [| contradiction].
    destruct Ha as [<- | []]. apply Hn. apply Hrest. exact Hb.
Qed.

Lemma nx_get_node_attributes_get g name n :
  NoDup (node_ids g) ->
  dict_get (nx_get_node_attributes g name) n = node_attr g n name.
Proof.
  unfold nx_get_node_attributes, node_attr, node_ids.
  induction (node_data g) as [|[k d] r IH]; simpl; intro Hnd; [reflexivity |].
  inversion Hnd as [|? ? Hn Hr]; subst.
  rewrite dict_get_app.
  destruct (Z.eqb_spec k n) as [-> | Hne].
  - destruct (attr_get d name) as [v|] eqn:E; simpl.
    + rewrite Z.eqb_refl. reflexivity.
    + destruct (dict_get (flat_map _ r) n) as [v|] eqn:Eg; [| reflexivity].
      exfalso. apply Hn.
      apply (nx_get_node_attributes_keys {| node_data := r; edge_list := [] |} name n).
      apply dict_get_In_keys. unfold nx_get_node_attributes. cbn [node_data].
      rewrite Eg. discriminate.
  - destruct (attr_get d name) as [v|]; simpl.
    + destruct (Z.eqb_spec k n); [contradiction |]. apply IH. exact Hr.
    + apply IH. exact Hr.
Qed.

Lemma generation_filter_ok time k : forall ns,
  (forall n, In n ns -> dict_get time n <> None) ->
  generation_filter time k ns =
  Ok (filter (fun n => match dict_get time n with
                       | Some t => pyval_eqb t k
                       | None => false
                       end) ns).
Proof.
  induction ns as [|n r IH]; intro Hall; [reflexivity |].
  cbn [generation_filter filter].
  destruct (dict_get time n) as [t|] eqn:E.
  - rewrite IH by (intros x Hx; apply Hall; right; exact Hx). reflexivity.
  - exfalso. apply (Hall n); [left; reflexivity | exact E].
Qed.

Lemma generation_filter_raises time k : forall ns n,
  In n ns -> dict_get time n = None ->
  generation_filter time k ns = Raise KeyError.
Proof.
  induction ns as [|x r IH]; intros n Hin Hn; [contradiction |].
  cbn [generation_filter].
  destruct (dict_get time x) as [t|] eqn:E; [| reflexivity].
  destruct Hin as [-> | Hin]; [congruence |].
  rewrite (IH n Hin Hn). reflexivity.
Qed.

(** X18.  [get_node_attributes(attr)] returns the dictionary of the nodes that
    carry [attr] with their values; [get_node_attributes(attr, node)] returns
    the value of [node], and the empty dictionary, not an error, when [node]
    lacks the attribute or is not in the graph. *)
Theorem get_node_attributes_lookup (g : DiGraph) (attr : String.string) :
  wf_graph g ->
  (exists d, get_node_attributes g attr None = AllNodes d /\
     NoDup (keys d) /\
     forall n, dict_get d n = node_attr g n attr) /\
  (forall n, get_node_attributes g attr (Some n) =
             match node_attr g n attr with
             | Some v => OneValue v
             | None => EmptyDict
             end) /\
  (forall n, ~ In n (nodes g) -> get_node_attributes g attr (Some n) = EmptyDict).
Proof.
  intros [Hnd _]. split; [| split].
  - exists (nx_get_node_attributes g attr). split; [reflexivity | split].
    + apply nx_get_node_attributes_NoDup. exact Hnd.
    + intro n. apply nx_get_node_attributes_get. exact Hnd.
  - intro n. unfold get_node_attributes.
    rewrite nx_get_node_attributes_get by exact Hnd. reflexivity.
  - intros n Hn. unfold get_node_attributes.
    rewrite nx_get_node_attributes_get by exact Hnd.
    unfold node_attr.
    destruct (dict_get (node_data g) n) eqn:E; [| reflexivity].
    exfalso. apply Hn. apply (dict_get_In_keys (node_data g) n). rewrite E. discriminate.
Qed.

Lemma get_node_attributes_lookup_witness :
  get_node_attributes diamond AttrNames.time (Some 7%Z) = EmptyDict.
Proof.
  apply (get_node_attributes_lookup diamond AttrNames.time).
  - apply diamond_wf.
  - simpl. intros [H | [H | [H | [H | []]]]]; discriminate H.
Defined.

(** X19.  [nodes_at_generation(k)]: when every node of the graph carries a
    ['time'], the call returns the nodes whose time equals [k], in the order
    of the graph; when some node carries none, it raises [KeyError], whatever
    [k] is. *)
Theorem nodes_at_generation_filter (g : DiGraph) (k : pyval) :
  wf_graph g ->
  ((forall n, In n (nodes g) -> node_attr g n AttrNames.time <> None) ->
   nodes_at_generation g k = Ok (filter (at_time g k) (nodes g))) /\
  ((exists n, In n (nodes g) /\ node_attr g n AttrNames.time = None) ->
   nodes_at_generation g k = Raise KeyError).
Proof.
  intros [Hnd _]. unfold nodes_at_generation, get_node_attributes. split.
  - intro Hall. rewrite generation_filter_ok.
    + f_equal. apply filter_ext. intro n. unfold at_time.
      rewrite nx_get_node_attributes_get by exact Hnd. reflexivity.
    + intros n Hn. rewrite nx_get_node_attributes_get by exact Hnd.
      apply Hall. exact Hn.
  - intros [n [Hn Hnone]]. apply (generation_filter_raises _ k _ n Hn).
    rewrite nx_get_node_attributes_get by exact Hnd. exact Hnone.
Qed.

Lemma nodes_at_generation_filter_witness :
  nodes_at_generation two_generations (PInt 0) =
    Ok (filter (at_time two_generations (PInt 0)) (nodes two_generations)) /\
  nodes_at_generation diamond (PInt 0) = Raise KeyError.
Proof.
  split.
  - apply (nodes_at_generation_filter two_generations (PInt 0)).
    + apply wf_graphb_sound. reflexivity.
    + intros n [<- | [<- | []]]; discriminate.
  - apply (nodes_at_generation_filter diamond (PInt 0)).
    + apply diamond_wf.
    + exists 1%Z. split; [simpl; auto | reflexivity].
Defined.

(** ** Parents *)

Lemma adj_pred_NoDup g n : wf_graph g -> NoDup (adj_pred g n).
Proof.
  intros [_ [Hnd _]]. unfold adj_pred.
  induction (edge_list g) as [|[a b] l IH]; simpl; [constructor|].
  inversion Hnd as [|? ? Hn Hl]; subst.
  destruct (Z.eqb_spec b n); simpl; auto.
  subst b. constructor; auto.
  intro Hin. apply Hn. apply in_map_iff in Hin. destruct Hin as [[a' b'] [Heq Hin]].
  apply filter_In in Hin. destruct Hin as [Hin Hf]. simpl in *.
  apply Z.eqb_eq in Hf. subst. exact Hin.
Qed.

(** X20.  [parents(node)] on a node of the graph lists each parent once;
    [predecessors(node)] lists the same nodes, except [node] itself when it is
    its own parent; and where [predecessors] raises [NodeNotFound] for a node
    that is not in the graph, [parents] raises [NetworkXError]. *)
Theorem parents_and_predecessors (ord : SetOrder) (g : DiGraph) (n : node) :
  wf_graph g ->
  (In n (nodes g) ->
   exists ps l,
     parents g n = Ok ps /\ predecessors ord g n 1 false false = Ok l /\
     NoDup ps /\ NoDup l /\
     (forall p, In p ps <-> In (p, n) (edge_list g)) /\
     (forall p, In p l <-> In p ps /\ p <> n)) /\
  (~ In n (nodes g) ->
   parents g n = Raise NetworkXError /\
   predecessors ord g n 1 false false = Raise NodeNotFound).
Proof.
  intro Hwf. split.
  - intro Hn.
    destruct (predecessors_spec ord g n 1 false Hwf Hn) as [l [Hrun [Hnd Hin]]].
    exists (adj_pred g n), l. unfold parents.
    rewrite (G_predecessors_node g n Hn). cbn [bind items].
    split; [reflexivity | split; [exact Hrun | split; [| split; [exact Hnd | split]]]].
    + apply adj_pred_NoDup. exact Hwf.
    + intro p. apply in_adj_pred.
    + intro p. rewrite Hin. apply nearest_one.
  - intro Hn. split.
    + unfold parents, G_predecessors.
      destruct (has_node g n) eqn:E; [| reflexivity].
      apply has_node_In in E. contradiction.
    + unfold predecessors. rewrite (sssp_absent ord (G_reverse g) n 1 Hn). reflexivity.
Qed.

Lemma parents_and_predecessors_witness :
  exists ps l,
    parents diamond 4%Z = Ok ps /\
    predecessors insertion_order diamond 4%Z 1 false false = Ok l /\
    NoDup ps /\ NoDup l /\
    (forall p, In p ps <-> In (p, 4%Z) (edge_list diamond)) /\
    (forall p, In p l <-> In p ps /\ p <> 4%Z).
Proof.
  apply (parents_and_predecessors insertion_order diamond 4%Z).
  - apply diamond_wf.
  - simpl. auto.
Defined.

(** ** Ancestors and descendants mirror each other *)

Lemma nearest_reverse g u v k :
  nearest (adj_succ g) u v k <-> nearest (adj_pred g) v u k.
Proof.
  assert (Hfb : forall a b, In a (adj_pred g b) <-> In b (adj_succ g a))
    by apply adj_pred_succ.
  assert (Hbf : forall a b, In a (adj_succ g b) <-> In b (adj_pred g a))
    by (intros; symmetry; apply adj_pred_succ).
  split; intros [Hw Hmin]; split.
  - apply (walk_reverse _ _ Hfb). exact Hw.
  - intros m Hm. apply Hmin. apply (walk_reverse _ _ Hbf). exact Hm.
  - apply (walk_reverse _ _ Hbf). exact Hw.
  - intros m Hm. apply Hmin. apply (walk_reverse _ _ Hfb). exact Hm.
Qed.

(** X21.  For two nodes [n] and [v] of the graph and every [k], [v] is among
    [successors(n, k)] exactly when [n] is among [predecessors(v, k)], and
    likewise with [include_intermediates]. *)
Theorem successors_predecessors_mirror (ord : SetOrder) (g : DiGraph) (n v : node)
        (k : nat) (include_intermediates : bool) :
  wf_graph g -> In n (nodes g) -> In v (nodes g) ->
  exists ls lp,
    successors ord g n k include_intermediates false = Ok ls /\
    predecessors ord g v k include_intermediates false = Ok lp /\
    (In v ls <-> In n lp).
Proof.
  intros Hwf Hn Hv.
  destruct (successors_spec ord g n k include_intermediates Hwf Hn) as [ls [Hs [_ Hls]]].
  destruct (predecessors_spec ord g v k include_intermediates Hwf Hv) as [lp [Hp [_ Hlp]]].
  exists ls, lp. split; [exact Hs | split; [exact Hp |]].
  rewrite Hls, Hlp. destruct include_intermediates.
  - split; intros [m [Hw Hm]]; exists m; split; auto.
    + apply (walk_reverse (adj_succ g) (adj_pred g) (adj_pred_succ g)). exact Hw.
    + apply (walk_reverse (adj_pred g) (adj_succ g)); [| exact Hw].
      intros a b. symmetry. apply adj_pred_succ.
  - apply nearest_reverse.
Qed.

Lemma successors_predecessors_mirror_witness :
  exists ls lp,
    successors insertion_order diamond 1%Z 2 false false = Ok ls /\
    predecessors insertion_order diamond 4%Z 2 false false = Ok lp /\
    (In 4%Z ls <-> In 1%Z lp).
Proof.
  apply (successors_predecessors_mirror insertion_order diamond 1%Z 4%Z 2 false).
  - apply diamond_wf.
  - simpl. auto.
  - simpl. auto.
Defined.

(** ** Two ways to the probands under a node *)

Lemma walk_path g n t m : walk (adj_succ g) n t m -> exists p, path g n t p.
Proof.
  induction 1 as [u | u y v k Hy Hw [p Hp]].
  - exists [u]. constructor.
  - exists (u :: p). eapply path_step; eauto.
Qed.

Lemma counter_key_positive c t : wf_counter c -> In t (keys c) <-> 0 < count_of c t.
Proof.
  intros [_ Hpos]. rewrite dict_get_In_keys. unfold count_of.
  destruct (dict_get c t) as [v|] eqn:E.
  - split; [intros _; apply (Hpos t v E) | discriminate].
  - split; [congruence | lia].
Qed.

(** X22.  [get_num_paths_to_target()] and [get_probands_under()] agree: on a
    DAG in which no node listed by [probands()] has a child, the targets
    counted for a node by the first are the members of the set that the second
    gives for the node. *)
Theorem paths_table_matches_probands_under (ord : SetOrder) (g : DiGraph) :
  wf_graph g -> acyclic g ->
  (forall p, In p (probands g) -> adj_succ g p = []) ->
  exists fuel0, forall fuel, fuel0 <= fuel ->
  exists pts ntp,
    get_num_paths_to_target ord fuel g None true = Ok pts /\
    get_probands_under ord fuel g None 0 = Ok ntp /\
    forall n c, dict_get pts n = Some c ->
      exists set, dict_get ntp n = Some set /\
                  forall t, In t (keys c) <-> In t set.
Proof.
  intros Hwf Hac Hleaf.
  destruct (stopping_paths_table ord g None Hwf Hac) as [pts [Hrun [_ [Hkeys Hpts]]]].
  cbn [targets_of] in Hkeys, Hpts.
  exists (Nat.max (length (nodes g)) (queue_cost g (node_ids g))).
  intros fuel Hfuel.
  destruct (probands_under_loop_spec ord g Hwf Hac fuel ltac:(lia) (node_ids g) [])
    as [ntp [Hrun' [_ [Hsets _]]]]; [auto |].
  exists pts, ntp. split; [apply Hrun; lia | split; [exact Hrun' |]].
  intros n c Hc.
  assert (Hn : In n (node_ids g)).
  { apply has_edge_node; [exact Hwf |]. apply Hkeys.
    apply dict_get_In_keys. rewrite Hc. discriminate. }
  destruct (Hsets n Hn) as [set [Hset [_ Hin]]].
  exists set. split; [exact Hset |].
  destruct (Hpts n c Hc) as [Hwfc Hcount].
  intro t. rewrite (counter_key_positive c t Hwfc), Hcount, Hin.
  rewrite (stopping_paths_leaves g (probands g) n t Hleaf).
  destruct (num_paths_enumerates g n t Hwf Hac Hn) as [l [_ [Hl Hlen]]].
  split.
  - destruct (existsb (Z.eqb t) (probands g)) eqn:Et; [| lia].
    intro Hpos. apply mem_target in Et. split; [apply Hleaf; exact Et |].
    destruct l as [|p l']; [simpl in Hlen; lia |].
    exists (length p - 1). apply path_walk. apply Hl. left. reflexivity.
  - intros [Ht [m Hw]].
    assert (HtV : In t (node_ids g)).
    { destruct m as [|m]; [apply walk_zero in Hw; subst; exact Hn |].
      apply walk_snoc_inv in Hw. destruct Hw as [u [_ Hu]].
      apply (succ_closed g Hwf) in Hu. tauto. }
    assert (Et : existsb (Z.eqb t) (probands g) = true).
    { apply mem_target. apply is_proband_probands. split; assumption. }
    rewrite Et. destruct (walk_path g n t m Hw) as [p Hp].
    apply Hl in Hp. destruct l; [contradiction | simpl in Hlen; lia].
Qed.

Lemma paths_table_matches_probands_under_witness :
  exists fuel0, forall fuel, fuel0 <= fuel ->
  exists pts ntp,
    get_num_paths_to_target insertion_order fuel diamond None true = Ok pts /\
    get_probands_under insertion_order fuel diamond None 0 = Ok ntp /\
    forall n c, dict_get pts n = Some c ->
      exists set, dict_get ntp n = Some set /\
                  forall t, In t (keys c) <-> In t set.
Proof.
  apply (paths_table_matches_probands_under insertion_order diamond).
  - apply diamond_wf.
  - apply diamond_acyclic.
  - intros p [<- | []]. reflexivity.
Defined.
